(** * UAStools [plotshpcreate]: a shallow embedding and its properties

    The Python function [plotshpcreate] turns an experimental-design table
    (Plot, Range, Row, Barcode) and an AB line into two sets of rotated
    rectangles (unbuffered and buffered).

    Modelling choices.
    - The index columns of the numpy matrix [PlotsSquareM] (columns 0, 1, 2
      and 11) hold integer data: they are [Z].  The corner columns 3..10 are
      real numbers ([R]): floating point is idealised to the reals, and
      every statement about lengths, areas and corners is a statement of
      exact arithmetic; the binary64 values the program computes meet it
      up to rounding only.  Where a property turns on rounding, the
      rectangle loop is evaluated in binary64 as well ([Binary64]).
    - [np.argsort] fixes the order of its result only up to the order of
      equal keys.  The serpentine loop is written over any index sort that
      meets that contract ([argsort_ok]); [argsort] is the instance that
      keeps equal keys in input order, and the one the runs are evaluated
      with.
    - [PlotsSquareM] and [row_names] are two parallel sequences in the source
      and stay two lists here; a Python index that can be out of range is an
      [IndexError] in the model.
    - Warnings, the two PDF files and the two shapefiles are events of a
      writer monad; exceptions are the left summand of its result. *)

From Stdlib Require Import ZArith List String Bool Lia Reals Lra.
From Stdlib Require Import Permutation Sorted DecimalString FinFun.
From Stdlib Require Floats.
Import ListNotations.

Open Scope Z_scope.

(** ** Exceptions, events and the monad *)

Inductive vmsg : Type :=
| MissingColumns (cols : list string)
| StaggerFirstPlot
| StaggerPlanter
| StaggerCombined
| SubsetSingular
| SubsetCentral
| SubsetEmpty.

(** [ValidationError] stands for the [ValueError]s raised by the [raise]
    statements of [plotshpcreate] itself; [NumpyValueError] for a
    [ValueError] coming out of a numpy reduction or [np.vstack]. *)
Inductive exn : Type :=
| ValidationError (m : vmsg)
| ZeroDivisionError
| IndexError
| NumpyValueError.

Inductive warning : Type :=
| LengthMismatch
| NoCRS.

Definition ring : Type := list (R * R).

Inductive event : Type :=
| Warn (w : warning)
| SavePdf (filename : string)
| WriteShp (filename : string) (ids : list string) (geometry : list ring)
           (crs : option string).

Definition is_artifact (e : event) : bool :=
  match e with
  | Warn _ => false
  | SavePdf _ => true
  | WriteShp _ _ _ _ => true
  end.

Definition M (A : Type) : Type := (list event * (exn + A))%type.

Definition ret {A} (a : A) : M A := ([], inr a).

Definition bind {A B} (m : M A) (f : A -> M B) : M B :=
  match snd m with
  | inl e => (fst m, inl e)
  | inr a => (fst m ++ fst (f a), snd (f a))
  end.

Definition raise {A} (e : exn) : M A := ([], inl e).

Definition emit (e : event) : M unit := ([e], inr tt).

Definition lift {A} (e : exn) (o : option A) : M A :=
  match o with
  | Some a => ret a
  | None => raise e
  end.

Definition when (b : bool) (m : M unit) : M unit :=
  if b then m else ret tt.

Notation "x <- c1 ;; c2" := (bind c1 (fun x => c2))
  (at level 61, c1 at next level, right associativity).
Notation "' pat <- c1 ;; c2" :=
  (bind c1 (fun x => match x with pat => c2 end))
  (at level 61, pat pattern, c1 at next level, right associativity).
Notation "c1 ;;; c2" := (bind c1 (fun _ => c2))
  (at level 61, right associativity).

(** ** The input table *)

Record infile_row : Type := mk_infile_row
  { Plot : Z; Range : Z; Row : Z; Barcode : string }.

Record DataFrame : Type := mk_df
  { columns : list string; df_rows : list infile_row }.

Definition required_cols : list string :=
  ["Plot"; "Range"; "Row"; "Barcode"]%string.

Definition missing_cols (df : DataFrame) : list string :=
  filter (fun c => negb (existsb (String.eqb c) (columns df))) required_cols.

(** [infile.sort_values(['Plot', 'Row'])]: a stable sort on the pair. *)
Definition plot_row_le (a b : infile_row) : bool :=
  (Plot a <? Plot b) || ((Plot a =? Plot b) && (Row a <=? Row b)).

Section InsertionSort.
Context {A : Type} (leb : A -> A -> bool).

Fixpoint insert_by (x : A) (l : list A) : list A :=
  match l with
  | [] => [x]
  | y :: t => if leb x y then x :: y :: t else y :: insert_by x t
  end.

Fixpoint sort_by (l : list A) : list A :=
  match l with
  | [] => []
  | x :: t => insert_by x (sort_by t)
  end.
End InsertionSort.

Definition sort_values (rows : list infile_row) : list infile_row :=
  sort_by plot_row_le rows.

(** [Series.unique()]: distinct values in order of first appearance. *)
Fixpoint unique_z (l : list Z) : list Z :=
  match l with
  | [] => []
  | x :: t => x :: filter (fun y => negb (y =? x)) (unique_z t)
  end.

Fixpoint unique_s (l : list string) : list string :=
  match l with
  | [] => []
  | x :: t => x :: filter (fun y => negb (String.eqb y x)) (unique_s t)
  end.

Definition n_unique (l : list Z) : nat := List.length (unique_z l).

(** [min] and [max] of a column; on an empty column [min] is never used
    (there is no row to assign) and numpy's [max] raises. *)
Definition col_min (l : list Z) : Z :=
  match l with
  | [] => 0
  | x :: t => fold_left Z.min t x
  end.

Definition col_max (l : list Z) : option Z :=
  match l with
  | [] => None
  | x :: t => Some (fold_left Z.max t x)
  end.

(** ** The matrix [PlotsSquareM]

    Column 0 is the plot, 1 the local range, 2 the local row, 11 the local
    row before renumbering; columns (3,4), (5,6), (7,8), (9,10) are the
    (Y, X) pairs of the bottom-left, bottom-right, top-right and top-left
    corners. *)

Record mrow : Type := mk_mrow
  { m_plot : Z; m_range : Z; m_row : Z;
    m_bl : R * R; m_br : R * R; m_tr : R * R; m_tl : R * R;
    m_orig : Z }.

Definition zero2 : R * R := (0%R, 0%R).

Definition create_matrix (rows : list infile_row) : list mrow :=
  let rmin := col_min (map Range rows) in
  let cmin := col_min (map Row rows) in
  map (fun r =>
         {| m_plot := Plot r;
            m_range := Range r - rmin + 1;
            m_row := Row r - cmin + 1;
            m_bl := zero2; m_br := zero2; m_tr := zero2; m_tl := zero2;
            m_orig := Row r - cmin + 1 |}) rows.

(** Boolean-mask indexing [P[mask]] (numpy; mask and array of one length). *)
Fixpoint compress {A} (mask : list bool) (l : list A) : list A :=
  match mask, l with
  | m :: mask', x :: l' =>
      if m then x :: compress mask' l' else compress mask' l'
  | _, _ => []
  end.

(** [[names[i] for i, m in enumerate(mask) if m]]: [names[i]] is evaluated
    only where the mask is set, and raises when [i] is out of range. *)
Fixpoint pick {A} (mask : list bool) (l : list A) : option (list A) :=
  match mask with
  | [] => Some []
  | m :: mask' =>
      match l with
      | [] => if m then None else pick mask' []
      | x :: l' =>
          if m then option_map (cons x) (pick mask' l') else pick mask' l'
      end
  end.

(** Integer-array indexing [l[idx]]. *)
Fixpoint gather {A} (l : list A) (idx : list nat) : option (list A) :=
  match idx with
  | [] => Some []
  | j :: idx' =>
      match nth_error l j, gather l idx' with
      | Some x, Some r => Some (x :: r)
      | _, _ => None
      end
  end.

(** [ceil(a / b)] on integers, for [b <> 0]. *)
Definition ceil_div (a b : Z) : Z := - ((- a) / b).

(** [np.arange(start, stop, step)] for a positive step. *)
Definition arange (start stop step : Z) : list Z :=
  map (fun k => start + Z.of_nat k * step)
      (seq 0 (Z.to_nat (ceil_div (stop - start) step))).

(** What [np.argsort] promises of its result: the indices 0..len-1, each
    once, in an order along which the keys ascend.  The order of equal
    keys is left open (the default kind is not a stable sort). *)
Definition argsort_ok (sorter : list Z -> list nat) : Prop :=
  forall keys,
    Permutation (sorter keys) (seq 0 (List.length keys)) /\
    StronglySorted Z.le (map (fun j => nth j keys 0) (sorter keys)).

(** The index sort that keeps equal keys in input order: one [np.argsort]
    among those [argsort_ok] admits, and the only one when the keys are
    distinct. *)
Definition argsort (keys : list Z) : list nat :=
  map fst (sort_by (fun a b : nat * Z => snd a <=? snd b)
                   (combine (seq 0 (List.length keys)) keys)).

(** ** Row grouping (source lines 190-247) *)

Definition combined_mode (nrowplot : Z) (multirowind : bool) (plotsubset : Z)
  : bool :=
  (1 <? nrowplot) && negb multirowind && (plotsubset =? 0).

Definition relabel_mode (nrowplot : Z) (multirowind : bool) (plotsubset : Z)
  : bool :=
  ((1 <? nrowplot) && multirowind) || negb (plotsubset =? 0).

Definition combined_mask (nrowplot plotsubset mx : Z) (P : list mrow)
  : list bool :=
  map (fun r =>
         (m_row r =? 1 + plotsubset)
         || existsb (Z.eqb (m_row r))
              (arange (1 + nrowplot + plotsubset) (mx + 1) nrowplot)) P.

Definition set_row (r : mrow) (v : Z) : mrow :=
  {| m_plot := m_plot r; m_range := m_range r; m_row := v;
     m_bl := m_bl r; m_br := m_br r; m_tr := m_tr r; m_tl := m_tl r;
     m_orig := m_orig r |}.

Definition renumber (nrowplot : Z) (r : mrow) : mrow :=
  if 1 <? m_row r then set_row r (ceil_div (m_row r) nrowplot) else r.

Definition combine_rows (nrowplot plotsubset : Z)
           (P : list mrow) (row_names : list string)
  : M (list mrow * list string) :=
  mx <- lift NumpyValueError (col_max (map m_row P)) ;;
  let mask := combined_mask nrowplot plotsubset mx P in
  let P' := compress mask P in
  names' <- lift IndexError (pick mask row_names) ;;
  ret (map (renumber nrowplot) P', names').

Definition string_of_nat (n : nat) : string :=
  NilEmpty.string_of_uint (Nat.to_uint n).

Definition count_s (b : string) (l : list string) : nat :=
  List.length (filter (String.eqb b) l).

Definition suffixed (b : string) (k : nat) : string :=
  (b ++ "_" ++ string_of_nat (k + 1))%string.

Definition new_row_names (barcodes : list string) : list string :=
  flat_map (fun b => map (suffixed b) (seq 0 (count_s b barcodes)))
           (unique_s barcodes).

Definition subset_mask (plotsubset : Z) (P : list mrow) : list bool :=
  map (fun r =>
         let plot_rows :=
           map m_row (filter (fun q => m_plot q =? m_plot r) P) in
         let lo := col_min plot_rows + plotsubset in
         let hi := match col_max plot_rows with
                   | Some m => m
                   | None => 0
                   end - plotsubset + 1 in
         existsb (Z.eqb (m_row r)) (arange lo hi 1)) P.

Definition subset_checks (nrowplot plotsubset : Z) : M unit :=
  if nrowplot =? 1 then raise (ValidationError SubsetSingular)
  else if nrowplot <? 3 then raise (ValidationError SubsetCentral)
  else if nrowplot =? 2 * plotsubset then raise (ValidationError SubsetEmpty)
  else ret tt.

Definition relabel_rows (nrowplot plotsubset : Z) (barcodes : list string)
           (P : list mrow)
  : M (list mrow * list string) :=
  let row_names := firstn (List.length P) (new_row_names barcodes) in
  if negb (plotsubset =? 0) then
    subset_checks nrowplot plotsubset ;;;
    let plot_mask := subset_mask plotsubset P in
    names' <- lift IndexError (pick plot_mask row_names) ;;
    ret (compress plot_mask P, names')
  else ret (P, row_names).

Definition row_grouping (nrowplot : Z) (multirowind : bool) (plotsubset : Z)
           (barcodes : list string) (P : list mrow) (row_names : list string)
  : M (list mrow * list string) :=
  '(P1, names1) <-
     (if combined_mode nrowplot multirowind plotsubset
      then combine_rows nrowplot plotsubset P row_names
      else ret (P, row_names)) ;;
  if relabel_mode nrowplot multirowind plotsubset
  then relabel_rows nrowplot plotsubset barcodes P1
  else ret (P1, names1).

(** ** Serpentine ordering (source lines 249-266) *)

(** One pass of the loop body, over the index sort [sorter] that stands
    for [np.argsort]. *)
Definition serpentine_range_with (sorter : list Z -> list nat)
           (P : list mrow) (row_names : list string) (i : Z)
  : M (list mrow * list string) :=
  let range_mask := map (fun r => m_range r =? i) P in
  let subset_PSM := compress range_mask P in
  subset_names <- lift IndexError (pick range_mask row_names) ;;
  let sort_idx0 := sorter (map m_row subset_PSM) in
  let sort_idx := if i mod 2 =? 0 then rev sort_idx0 else sort_idx0 in
  rows <- lift IndexError (gather subset_PSM sort_idx) ;;
  names <- lift IndexError (gather subset_names sort_idx) ;;
  ret (rows, names).

Fixpoint serpentine_loop_with (sorter : list Z -> list nat)
         (P : list mrow) (row_names : list string)
         (idxs : list Z) (ordered_plots : list (list mrow))
         (ordered_names : list string)
  : M (list (list mrow) * list string) :=
  match idxs with
  | [] => ret (ordered_plots, ordered_names)
  | i :: idxs' =>
      '(rows, names) <- serpentine_range_with sorter P row_names i ;;
      serpentine_loop_with sorter P row_names idxs'
                           (ordered_plots ++ [rows]) (ordered_names ++ names)
  end.

(** [range(1, nRange + 1)] *)
Definition range1 (n : nat) : list Z := map Z.of_nat (seq 1 n).

(** [np.vstack] raises on an empty sequence of arrays. *)
Definition vstack {A} (parts : list (list A)) : M (list A) :=
  match parts with
  | [] => raise NumpyValueError
  | _ => ret (List.concat parts)
  end.

Definition serpentine_with (sorter : list Z -> list nat)
           (nRange : nat) (P : list mrow) (row_names : list string)
  : M (list mrow * list string) :=
  '(ordered_plots, ordered_names) <-
     serpentine_loop_with sorter P row_names (range1 nRange) [] [] ;;
  P' <- vstack ordered_plots ;;
  ret (P', ordered_names).

(** The loop with equal keys kept in input order. *)
Definition serpentine_range : list mrow -> list string -> Z
                              -> M (list mrow * list string) :=
  serpentine_range_with argsort.

Definition serpentine_loop : list mrow -> list string -> list Z
                             -> list (list mrow) -> list string
                             -> M (list (list mrow) * list string) :=
  serpentine_loop_with argsort.

Definition serpentine : nat -> list mrow -> list string
                        -> M (list mrow * list string) :=
  serpentine_with argsort.

(** ** The AB line (source lines 147-164) *)

Open Scope R_scope.

Definition Rgtb (x y : R) : bool := if Rlt_dec y x then true else false.
Definition Rltb (x y : R) : bool := if Rlt_dec x y then true else false.

Record abline : Type := mk_abline
  { DeltaEasting : R; DeltaNorthing : R; DirectionTheta : R;
    Theta : R; srt_theta : R }.

Definition direction_theta (dN dE : R) : R := atan (Rabs dN / Rabs dE).

Definition theta_of (dN dE : R) : R :=
  let dt := direction_theta dN dE in
  if Rgtb dN 0 && Rgtb dE 0 then 3 * PI / 2 + dt
  else if Rgtb dN 0 && Rltb dE 0 then PI / 2 - dt
  else if Rltb dN 0 && Rltb dE 0 then PI / 2 + dt
  else 3 * PI / 2 - dt.

Definition srt_theta_of (dN dE : R) : R :=
  let dt := direction_theta dN dE in
  if Rgtb dN 0 && Rgtb dE 0 then 90 - dt * (180 / PI)
  else if Rgtb dN 0 && Rltb dE 0 then 270 + dt * (180 / PI)
  else if Rltb dN 0 && Rltb dE 0 then dt * (180 / PI)
  else 270 + dt * (180 / PI).

(** Python's float division raises on a zero divisor. *)
Definition ab_line (A B : R * R) : M abline :=
  let dE := fst B - fst A in
  let dN := snd B - snd A in
  if Req_dec_T (Rabs dE) 0 then raise ZeroDivisionError
  else ret {| DeltaEasting := dE; DeltaNorthing := dN;
              DirectionTheta := direction_theta dN dE;
              Theta := theta_of dN dE;
              srt_theta := srt_theta_of dN dE |}.

(** ** Units (source lines 166-178, 193-196) *)

Definition is_feet (unit_ : string) : bool := String.eqb unit_ "feet".

Definition to_m (unit_ : string) (v : R) : R :=
  if is_feet unit_ then v / 3.281 else v.

(** [RowSpacingM] of the combined-rows branch: the product by [nrowplot]
    is taken first, the conversion to meters after it. *)
Definition combined_row_spacing (unit_ : string) (nrowplot : Z) (rowspc : R)
  : R :=
  if is_feet unit_ then (IZR nrowplot * rowspc) / 3.281
  else IZR nrowplot * rowspc.

(** [staggerM]; it is [None] without a stagger and then never read. *)
Definition stagger_m (unit_ : string) (stagger : option (Z * Z * R)) : R :=
  match stagger with
  | Some (_, _, d) => to_m unit_ d
  | None => 0
  end.

(** [RowSpacingM] as the rectangle loop reads it: the combined-rows branch
    overwrites the value of the unit conversion. *)
Definition row_spacing_m (unit_ : string) (nrowplot : Z) (multirowind : bool)
           (plotsubset : Z) (rowspc : R) : R :=
  if combined_mode nrowplot multirowind plotsubset
  then combined_row_spacing unit_ nrowplot rowspc
  else to_m unit_ rowspc.

(** ** Rectangles, stagger, buffer (source lines 269-312) *)

Definition set_corners (r : mrow) (bl br tr tl : R * R) : mrow :=
  {| m_plot := m_plot r; m_range := m_range r; m_row := m_row r;
     m_bl := bl; m_br := br; m_tr := tr; m_tl := tl;
     m_orig := m_orig r |}.

(** The four corners of a row (range-axis coordinate first), in exact
    arithmetic; [Binary64.corners] is the same loop body on binary64
    numbers. *)
Definition corners (RangeSpacingM RowSpacingM : R) (r : mrow) : mrow :=
  let y := IZR (m_range r) in
  let x := IZR (m_row r) in
  set_corners r
    (0 + (y - 1) * RangeSpacingM, 0 + (x - 1) * RowSpacingM)
    (0 + (y - 1) * RangeSpacingM, 0 + x * RowSpacingM)
    (0 + y * RangeSpacingM, 0 + x * RowSpacingM)
    (0 + y * RangeSpacingM, 0 + (x - 1) * RowSpacingM).

(** [ceil((floor((o - s) + 1) + p) / p) % 2 == 0]; with [p = 0] the float
    quotient is infinite or NaN, its remainder NaN, and the test fails. *)
Definition stagger_check (s p o : Z) : bool :=
  if (p =? 0)%Z then false
  else (ceil_div (o - s + 1 + p) p mod 2 =? 0)%Z.

Definition use_stagger (stagger : option (Z * Z * R)) (r : mrow) : bool :=
  match stagger with
  | Some (s, p, _) => stagger_check s p (m_orig r)
  | None => false
  end.

Definition shiftY (d : R) (c : R * R) : R * R := (fst c + d, snd c).

Definition shift_range (d : R) (r : mrow) : mrow :=
  set_corners r (shiftY d (m_bl r)) (shiftY d (m_br r))
              (shiftY d (m_tr r)) (shiftY d (m_tl r)).

(** The copy [PlotSquare4plot] drawn in the square-plot PDF. *)
Definition plot_square_4plot (stagger : option (Z * Z * R)) (staggerM : R)
           (before_corners PlotsSquareM : list mrow) : list mrow :=
  match stagger with
  | Some _ =>
      map (fun r => if use_stagger stagger r then shift_range staggerM r
                    else r) PlotsSquareM
  | None => before_corners
  end.

Definition buffer (RangeBufferM RowBufferM : R) (r : mrow) : mrow :=
  set_corners r
    (fst (m_bl r) + RangeBufferM, snd (m_bl r) + RowBufferM)
    (fst (m_br r) + RangeBufferM, snd (m_br r) - RowBufferM)
    (fst (m_tr r) - RangeBufferM, snd (m_tr r) - RowBufferM)
    (fst (m_tl r) - RangeBufferM, snd (m_tl r) + RowBufferM).

(** ** Rotation about the AB line (source lines 319-366) *)

Definition stag_origin (A : R * R) (ab : abline) (staggerM : R) : R * R :=
  let dN := DeltaNorthing ab in
  let dE := DeltaEasting ab in
  let th := Theta ab in
  if Rgtb dN 0 && Rgtb dE 0
  then (fst A - staggerM * sin th, snd A + staggerM * cos th)
  else if Rgtb dN 0 && Rltb dE 0
  then (fst A - staggerM * cos th, snd A + staggerM * sin th)
  else if Rltb dN 0 && Rltb dE 0
  then (fst A - staggerM * cos th, snd A + staggerM * sin th)
  else (fst A + staggerM * cos th, snd A - staggerM * sin th).

(** The origin (Easting, Northing) a row is rotated about. *)
Definition origin_of (A : R * R) (ab : abline)
           (stagger : option (Z * Z * R)) (staggerM : R) (r : mrow) : R * R :=
  if use_stagger stagger r then stag_origin A ab staggerM else A.

(** One corner under the rotation, in exact arithmetic: [sin] and [cos] are
    the real functions, which [np.sin] and [np.cos] approximate. *)
Definition rotate_corner (th : R) (origin : R * R) (c : R * R) : R * R :=
  (fst c * cos th + snd c * sin th + snd origin,
   snd c * cos th - fst c * sin th + fst origin).

Definition rotate (th : R) (origin : R * R) (r : mrow) : mrow :=
  set_corners r
    (rotate_corner th origin (m_bl r)) (rotate_corner th origin (m_br r))
    (rotate_corner th origin (m_tr r)) (rotate_corner th origin (m_tl r)).

(** The rotation loop: every row about its own origin. *)
Definition adjust (A : R * R) (ab : abline)
           (stagger : option (Z * Z * R)) (staggerM : R)
           (P : list mrow) : list mrow :=
  map (fun r => rotate (Theta ab) (origin_of A ab stagger staggerM r) r) P.

(** ** Output (source lines 373-386, 389-491) *)

Definition xy (c : R * R) : R * R := (snd c, fst c).

(** The closed ring of a row, in (X, Y) order. *)
Definition ring_of (r : mrow) : ring :=
  [xy (m_bl r); xy (m_br r); xy (m_tr r); xy (m_tl r); xy (m_bl r)].

Definition truthy (field : option string) : bool :=
  match field with
  | Some s => negb (String.eqb s "")
  | None => false
  end.

Definition file_name (field : option string) (outfile suffix : string)
  : string :=
  match field with
  | Some f => if truthy field then (f ++ "_" ++ outfile ++ suffix)%string
              else (outfile ++ suffix)%string
  | None => (outfile ++ suffix)%string
  end.

Definition crs_of (UTMzone : option string) (Hemisphere : string)
  : option string :=
  match UTMzone with
  | None => None
  | Some z =>
      if String.eqb Hemisphere "N"
      then Some ("+proj=utm +zone=" ++ z
                 ++ " +datum=NAD83 +units=m +no_defs +ellps=GRS80")%string
      else Some ("+proj=utm +zone=" ++ z
                 ++ " +south +datum=NAD83 +units=m +no_defs +ellps=GRS80")%string
  end.

(** Both plotting helpers reduce over the rows and fail on an empty matrix. *)
Definition _create_square_plot (P4 : list mrow) (field : option string)
           (outfile : string) : M unit :=
  lift NumpyValueError (col_max (map m_row P4)) ;;;
  emit (SavePdf (file_name field outfile "_Square_plots.pdf")).

Definition _create_rotated_plot (PlotsAdjustedM : list mrow)
           (field : option string) (outfile : string) : M unit :=
  lift NumpyValueError (col_max (map m_row PlotsAdjustedM)) ;;;
  emit (SavePdf (file_name field outfile "_Rotated_plots.pdf")).

(** [GeoDataFrame] refuses an id column and a geometry of two lengths.
    It also hands a CRS string to pyproj, which may refuse it; whether it
    does is decided inside that library and is not modelled: with a UTM
    zone, a run of the model that returns is the run in which pyproj
    accepts the string.  With [crs = None] nothing is parsed. *)
Definition _write_shapefile (PlotsAdjusted : list mrow)
           (row_names : list string) (field : option string)
           (outfile : string) (crs : option string) (buffered : bool)
  : M unit :=
  let polygons := map ring_of PlotsAdjusted in
  if (List.length row_names =? List.length polygons)%nat
  then emit (WriteShp (file_name field outfile
                                 (if buffered then "_buff.shp" else ".shp"))
                      row_names polygons crs)
  else raise NumpyValueError.

(** ** Validation at entry (source lines 116-131)

    [nrowplot > stagger[1] / 2] is a true division of integers: it holds
    exactly when [stagger[1] < 2 * nrowplot]. *)

Definition validate_stagger (stagger : option (Z * Z * R)) (nrowplot : Z)
           (multirowind : bool) : M unit :=
  match stagger with
  | None => ret tt
  | Some (s, p, _) =>
      if (s =? 1)%Z then raise (ValidationError StaggerFirstPlot)
      else if (p + 1 <? s)%Z then raise (ValidationError StaggerPlanter)
      else if (1 <? nrowplot)%Z && negb multirowind
              && (p <? 2 * nrowplot)%Z
           then raise (ValidationError StaggerCombined)
           else ret tt
  end.

Definition validate_columns (infile : DataFrame) : M unit :=
  match missing_cols infile with
  | [] => ret tt
  | c :: cs => raise (ValidationError (MissingColumns (c :: cs)))
  end.

(** ** Geometry and export (source lines 267-386) *)

Definition build_and_export
           (A : R * R) (ab : abline)
           (stagger : option (Z * Z * R)) (staggerM : R)
           (RangeSpacingM RowSpacingM RangeBufferM RowBufferM : R)
           (UTMzone : option string) (Hemisphere : string)
           (field : option string) (outfile : string)
           (SquarePlot RotatePlot : bool)
           (PlotsSquareM2 : list mrow) (row_names : list string) : M unit :=
  let PlotsSquareM := map (corners RangeSpacingM RowSpacingM) PlotsSquareM2 in
  let PlotSquare4plot :=
    plot_square_4plot stagger staggerM PlotsSquareM2 PlotsSquareM in
  let PlotsSquareMBuf := map (buffer RangeBufferM RowBufferM) PlotsSquareM in
  when SquarePlot (_create_square_plot PlotSquare4plot field outfile) ;;;
  let PlotsAdjustedM := adjust A ab stagger staggerM PlotsSquareM in
  let PlotsAdjustedMBuf := adjust A ab stagger staggerM PlotsSquareMBuf in
  when RotatePlot (_create_rotated_plot PlotsAdjustedM field outfile) ;;;
  when (match UTMzone with None => true | Some _ => false end)
       (emit (Warn NoCRS)) ;;;
  let crs := crs_of UTMzone Hemisphere in
  _write_shapefile PlotsAdjustedM row_names field outfile crs false ;;;
  _write_shapefile PlotsAdjustedMBuf row_names field outfile crs true.

(** ** The operation *)

Definition plotshpcreate
           (A B : R * R) (infile : DataFrame) (outfile : string)
           (UTMzone : option string) (Hemisphere : string)
           (nrowplot : Z) (multirowind : bool)
           (rowspc rowbuf rangespc rangebuf : R)
           (stagger : option (Z * Z * R)) (plotsubset : Z)
           (field : option string) (unit_ : string)
           (SquarePlot RotatePlot : bool) : M unit :=
  validate_columns infile ;;;
  validate_stagger stagger nrowplot multirowind ;;;
  let rows := sort_values (df_rows infile) in
  let nRange := n_unique (map Range rows) in
  let nRow := n_unique (map Row rows) in
  let nPlot := List.length rows in
  when (negb (nPlot =? nRange * nRow)%nat) (emit (Warn LengthMismatch)) ;;;
  ab <- ab_line A B ;;
  let RangeSpacingM := to_m unit_ rangespc in
  let RangeBufferM := to_m unit_ rangebuf in
  let RowBufferM := to_m unit_ rowbuf in
  let staggerM := stagger_m unit_ stagger in
  let PlotsSquareM0 := create_matrix rows in
  let row_names0 := map Barcode rows in
  let RowSpacingM :=
    row_spacing_m unit_ nrowplot multirowind plotsubset rowspc in
  '(PlotsSquareM1, row_names1) <-
     row_grouping nrowplot multirowind plotsubset (map Barcode rows)
                  PlotsSquareM0 row_names0 ;;
  '(PlotsSquareM2, row_names) <-
     serpentine nRange PlotsSquareM1 row_names1 ;;
  build_and_export A ab stagger staggerM
                   RangeSpacingM RowSpacingM RangeBufferM RowBufferM
                   UTMzone Hemisphere field outfile SquarePlot RotatePlot
                   PlotsSquareM2 row_names.

(** ** The test fixture and the documented AB line *)

Definition sample_data : DataFrame :=
  {| columns := ["Plot"; "Range"; "Row"; "Barcode"]%string;
     df_rows :=
       [ mk_infile_row 1 1 1 "BC001"; mk_infile_row 1 1 2 "BC002";
         mk_infile_row 2 1 3 "BC003"; mk_infile_row 2 1 4 "BC004";
         mk_infile_row 3 2 1 "BC005"; mk_infile_row 3 2 2 "BC006";
         mk_infile_row 4 2 3 "BC007"; mk_infile_row 4 2 4 "BC008" ] |}.

Definition A_doc : R * R := (746239.817, 3382052.264).
Definition B_doc : R * R := (746334.224, 3382152.870).

(** ** Observations on a run *)

(** A computation that emits no event. *)
Definition silent {T} (m : M T) : Prop := fst m = [].

(** A computation that leaves no file behind. *)
Definition artifact_free {T} (m : M T) : Prop :=
  forallb (fun e => negb (is_artifact e)) (fst m) = true.

(** A computation that raises no [ValidationError]. *)
Definition no_validation_error {T} (m : M T) : Prop :=
  forall v, snd m <> inl (ValidationError v).

(** The shapefiles written by a run, in order: ids and geometry. *)
Fixpoint shapefiles (log : list event)
  : list (string * list string * list ring * option string) :=
  match log with
  | [] => []
  | WriteShp f ids g crs :: t => (f, ids, g, crs) :: shapefiles t
  | _ :: t => shapefiles t
  end.

(** ** Measures of a ring *)

Definition dist (p q : R * R) : R :=
  sqrt ((fst p - fst q) * (fst p - fst q) + (snd p - snd q) * (snd p - snd q)).

(** Twice the signed area (shoelace sum) of a closed ring. *)
Fixpoint shoelace (g : ring) : R :=
  match g with
  | p :: (q :: _) as t => (fst p * snd q - fst q * snd p) + shoelace t
  | _ => 0
  end.

Definition area (g : ring) : R := Rabs (shoelace g) / 2.

(** A closed four-corner ring whose sides alternate between the row spacing
    and the range spacing and whose area is their product. *)
Definition rectangle_of (RS WS : R) (g : ring) : Prop :=
  exists p0 p1 p2 p3,
    g = [p0; p1; p2; p3; p0] /\
    dist p0 p1 = WS /\ dist p1 p2 = RS /\
    dist p2 p3 = WS /\ dist p3 p0 = RS /\
    area g = RS * WS.

(** ** A staggered table on a Quadrant IV AB line *)

Definition stagger_table : DataFrame :=
  {| columns := ["Plot"; "Range"; "Row"; "Barcode"]%string;
     df_rows := [ mk_infile_row 1 1 1 "P1"; mk_infile_row 2 1 2 "P2" ] |}.

Definition A_q4 : R * R := (0, 0).
Definition B_q4 : R * R := (1, -1).

(** The second row of [stagger_table] once normalised. *)
Definition staggered_row : mrow := mk_mrow 2 1 2 zero2 zero2 zero2 zero2 2.

(** ** A range of four rows, combined two by two *)

Definition four_rows : DataFrame :=
  {| columns := ["Plot"; "Range"; "Row"; "Barcode"]%string;
     df_rows :=
       [ mk_infile_row 1 1 1 "G1"; mk_infile_row 1 1 2 "G1";
         mk_infile_row 2 1 3 "G2"; mk_infile_row 2 1 4 "G2" ] |}.

(** The local rows kept when [n] rows are combined: 1, 1+n, 1+2n, ... *)
Definition kept_row (n : Z) (r : mrow) : bool :=
  ((m_row r - 1) mod n =? 0)%Z.

(** ** The serpentine order as the specification words it

    Records are (matrix row, label) pairs.  For each range index 1..nRange:
    select the records at that range, sort them ascending by local row,
    reverse when the index is even; concatenate in increasing range. *)

Definition row_leb (a b : mrow * string) : bool :=
  (m_row (fst a) <=? m_row (fst b))%Z.

Definition serpentine_chunk (recs : list (mrow * string)) (i : Z)
  : list (mrow * string) :=
  let sel := filter (fun x => (m_range (fst x) =? i)%Z) recs in
  let sorted := sort_by row_leb sel in
  if (i mod 2 =? 0)%Z then rev sorted else sorted.

Definition serpentine_order (nRange : nat) (recs : list (mrow * string))
  : list (mrow * string) :=
  flat_map (serpentine_chunk recs) (range1 nRange).

(** The normalised range index lies in 1..nRange. *)
Definition in_ranges (nRange : nat) (x : mrow * string) : bool :=
  ((1 <=? m_range (fst x)) && (m_range (fst x) <=? Z.of_nat nRange))%Z.

(** The exported ring of one record: a function of that record alone. *)
Definition plot_ring (A : R * R) (ab : abline)
           (stagger : option (Z * Z * R)) (staggerM RS WS : R) (r : mrow)
  : ring :=
  ring_of (rotate (Theta ab)
                  (origin_of A ab stagger staggerM (corners RS WS r))
                  (corners RS WS r)).

Definition three_by_two : list infile_row :=
  [ mk_infile_row 1 1 1 "a"; mk_infile_row 2 1 2 "b";
    mk_infile_row 3 2 1 "c"; mk_infile_row 4 2 2 "d";
    mk_infile_row 5 3 1 "e"; mk_infile_row 6 3 2 "f" ].

(** The exported buffered ring of one record. *)
Definition plot_ring_buf (A : R * R) (ab : abline)
           (stagger : option (Z * Z * R)) (staggerM RS WS RB WB : R)
           (r : mrow) : ring :=
  ring_of (rotate (Theta ab)
                  (origin_of A ab stagger staggerM
                             (buffer RB WB (corners RS WS r)))
                  (buffer RB WB (corners RS WS r))).

(** Ascending and descending local rows along a list of records. *)
Definition rows_ascending (l : list (mrow * string)) : Prop :=
  StronglySorted (fun a b => (m_row (fst a) <= m_row (fst b))%Z) l.

Definition rows_descending (l : list (mrow * string)) : Prop :=
  StronglySorted (fun a b => (m_row (fst b) <= m_row (fst a))%Z) l.

(** What the loop promises of the records at range [i], whatever order
    [np.argsort] gives to equal rows: the records of that range, sorted
    ascending by local row, and that sequence reversed when [i] is even. *)
Definition serpentine_chunk_ok (recs : list (mrow * string)) (i : Z)
           (c : list (mrow * string)) : Prop :=
  exists asc,
    Permutation asc (filter (fun x => (m_range (fst x) =? i)%Z) recs) /\
    rows_ascending asc /\
    c = if (i mod 2 =? 0)%Z then rev asc else asc.

(** ... and of the whole output: such a sequence for each range index
    1..nRange, concatenated in increasing range. *)
Definition serpentine_ok (nRange : nat) (recs out : list (mrow * string))
  : Prop :=
  exists chunks,
    Forall2 (serpentine_chunk_ok recs) (range1 nRange) chunks /\
    out = List.concat chunks.

(** No two records on one grid position. *)
Definition distinct_positions (P : list mrow) : Prop :=
  NoDup (map (fun r => (m_range r, m_row r)) P).

(** ** Contiguous values, and a table whose ranges have a gap *)

(** Every integer between the least value and any value is a value. *)
Definition contiguous (l : list Z) : Prop :=
  forall v x, In x l -> (col_min l <= v <= x)%Z -> In v l.

Definition gap_table : DataFrame :=
  {| columns := ["Plot"; "Range"; "Row"; "Barcode"]%string;
     df_rows :=
       [ mk_infile_row 1 1 1 "a"; mk_infile_row 2 1 2 "b";
         mk_infile_row 3 3 1 "c"; mk_infile_row 4 3 2 "d" ] |}.

(** ** The invalid configurations, as the specification lists them *)

Definition field_absent (infile : DataFrame) : Prop :=
  exists c, In c required_cols /\ ~ In c (columns infile).

Definition stagger_invalid (stagger : option (Z * Z * R)) (nrowplot : Z)
           (multirowind : bool) : Prop :=
  match stagger with
  | Some (s, p, _) =>
      s = 1%Z \/ (p + 1 < s)%Z \/
      ((1 < nrowplot)%Z /\ multirowind = false /\ IZR p / 2 < IZR nrowplot)
  | None => False
  end.

Definition subset_invalid (nrowplot plotsubset : Z) : Prop :=
  plotsubset <> 0%Z /\
  (nrowplot = 1%Z \/ (nrowplot < 3)%Z \/ nrowplot = (2 * plotsubset)%Z).

(** The label position of the plotting helpers: the midpoint of the first
    and third corner of a ring (source lines 413-414 and 450-451). *)
Definition centre (g : ring) : R * R :=
  match g with
  | p0 :: _ :: p2 :: _ => ((fst p0 + fst p2) / 2, (snd p0 + snd p2) / 2)
  | _ => (0, 0)
  end.

(** The same table with every Range and every Row moved by a constant. *)
Definition shift_row (dr dc : Z) (r : infile_row) : infile_row :=
  {| Plot := Plot r; Range := (Range r + dr)%Z; Row := (Row r + dc)%Z;
     Barcode := Barcode r |}.

Definition shift_table (dr dc : Z) (df : DataFrame) : DataFrame :=
  {| columns := columns df; df_rows := map (shift_row dr dc) (df_rows df) |}.

(** The order [sort_values] establishes. *)
Definition plot_row_sorted (l : list infile_row) : Prop :=
  StronglySorted
    (fun a b => (Plot a < Plot b)%Z \/ (Plot a = Plot b /\ (Row a <= Row b)%Z))
    l.

(** ** The rectangle loop in binary64 (source lines 166-178, 272-284)

    The unit conversion and the four corners of a row as the program
    computes them, on IEEE 754 binary64 numbers, and the exact real value
    of such a number. *)

Module Binary64.
Import Floats.
Local Open Scope float_scope.



#[warnings="-inexact-float"]
Definition to_m (unit_ : string) (v : float) : float :=
  if is_feet unit_ then v / 3.281 else v.

Record corners64 : Type := mk_corners64
  { bl : float * float; br : float * float;
    tr : float * float; tl : float * float }.

Definition corners (RangeSpacingM RowSpacingM y x : float) : corners64 :=
  {| bl := (0 + (y - 1) * RangeSpacingM, 0 + (x - 1) * RowSpacingM);
     br := (0 + (y - 1) * RangeSpacingM, 0 + x * RowSpacingM);
     tr := (0 + y * RangeSpacingM, 0 + x * RowSpacingM);
     tl := (0 + y * RangeSpacingM, 0 + (x - 1) * RowSpacingM) |}.



End Binary64.

(** * Properties *)

(** ** The monad *)

Lemma bind_ret_l {A B} (a : A) (f : A -> M B) : bind (ret a) f = f a.
Proof. unfold bind, ret; simpl. now destruct (f a). Qed.

Lemma bind_nil_l {A B} (a : A) (f : A -> M B) : bind ([], inr a) f = f a.
Proof. apply bind_ret_l. Qed.

Lemma bind_inr {A B} (m : M A) (f : A -> M B) l a :
  m = (l, inr a) -> bind m f = (l ++ fst (f a), snd (f a)).
Proof. intros ->. reflexivity. Qed.

Lemma bind_inl {A B} (m : M A) (f : A -> M B) l e :
  m = (l, inl e) -> bind m f = (l, inl e).
Proof. intros ->. reflexivity. Qed.

(** ** The AB line *)

Lemma Rgtb_true x y : y < x -> Rgtb x y = true.
Proof. intros H. unfold Rgtb. destruct (Rlt_dec y x); [reflexivity | lra]. Qed.

Lemma Rgtb_false x y : x <= y -> Rgtb x y = false.
Proof. intros H. unfold Rgtb. destruct (Rlt_dec y x); [lra | reflexivity]. Qed.

Lemma Rltb_true x y : x < y -> Rltb x y = true.
Proof. intros H. unfold Rltb. destruct (Rlt_dec x y); [reflexivity | lra]. Qed.

Lemma Rltb_false x y : y <= x -> Rltb x y = false.
Proof. intros H. unfold Rltb. destruct (Rlt_dec x y); [lra | reflexivity]. Qed.

Lemma atan_nonneg x : 0 <= x -> 0 <= atan x.
Proof.
  intros [Hx | <-].
  - left. rewrite <- atan_0. now apply atan_increasing.
  - rewrite atan_0. lra.
Qed.

Lemma direction_theta_range dN dE :
  dE <> 0 -> 0 <= direction_theta dN dE < PI / 2.
Proof.
  intros HE. unfold direction_theta. split.
  - apply atan_nonneg. apply Rmult_le_pos; [apply Rabs_pos |].
    left. apply Rinv_0_lt_compat. now apply Rabs_pos_lt.
  - apply atan_bound.
Qed.

Lemma ab_line_defined A B :
  fst B - fst A <> 0 ->
  ab_line A B =
  ([], inr {| DeltaEasting := fst B - fst A;
              DeltaNorthing := snd B - snd A;
              DirectionTheta :=
                direction_theta (snd B - snd A) (fst B - fst A);
              Theta := theta_of (snd B - snd A) (fst B - fst A);
              srt_theta := srt_theta_of (snd B - snd A) (fst B - fst A) |}).
Proof.
  intros HE. unfold ab_line.
  destruct (Req_dec_T (Rabs (fst B - fst A)) 0) as [H0 | _]; [| reflexivity].
  exfalso. revert H0. now apply Rabs_no_R0.
Qed.

Lemma ab_line_zero A B :
  fst B - fst A = 0 -> ab_line A B = ([], inl ZeroDivisionError).
Proof.
  intros HE. unfold ab_line. rewrite HE, Rabs_R0.
  destruct (Req_dec_T 0 0) as [_ | H]; [reflexivity | now elim H].
Qed.

Ltac quadrant_cases :=
  unfold theta_of, srt_theta_of;
  repeat first
    [ rewrite Rgtb_true by lra | rewrite Rgtb_false by lra
    | rewrite Rltb_true by lra | rewrite Rltb_false by lra ];
  simpl; try reflexivity; auto.

(** C1: with both deltas nonzero the AB line is defined, DirectionTheta is
    atan(|DeltaNorthing| / |DeltaEasting|) and lies in [0, pi/2), and Theta
    and srt_theta follow the quadrant table (signs of DeltaNorthing,
    DeltaEasting). *)
Theorem ab_line_quadrant_table (A B : R * R) :
  let dE := fst B - fst A in
  let dN := snd B - snd A in
  dE <> 0 -> dN <> 0 ->
  exists ab,
    ab_line A B = ([], inr ab) /\
    DeltaEasting ab = dE /\ DeltaNorthing ab = dN /\
    DirectionTheta ab = atan (Rabs dN / Rabs dE) /\
    0 <= DirectionTheta ab < PI / 2 /\
    let deg := DirectionTheta ab * (180 / PI) in
    (0 < dN -> 0 < dE ->
     Theta ab = 3 * PI / 2 + DirectionTheta ab /\ srt_theta ab = 90 - deg) /\
    (0 < dN -> dE < 0 ->
     Theta ab = PI / 2 - DirectionTheta ab /\ srt_theta ab = 270 + deg) /\
    (dN < 0 -> dE < 0 ->
     Theta ab = PI / 2 + DirectionTheta ab /\ srt_theta ab = deg) /\
    (dN < 0 -> 0 < dE ->
     Theta ab = 3 * PI / 2 - DirectionTheta ab /\ srt_theta ab = 270 + deg).
Proof.
  intros dE dN HE HN. eexists. split; [now apply ab_line_defined |].
  cbn [DeltaEasting DeltaNorthing DirectionTheta Theta srt_theta].
  fold dE dN.
  split; [reflexivity |]. split; [reflexivity |]. split; [reflexivity |].
  split; [now apply direction_theta_range |].
  cbv zeta. repeat split; intros; quadrant_cases.
Qed.

Lemma ab_line_quadrant_table_witness :
  exists ab,
    ab_line (0, 0) (-1, 2) = ([], inr ab) /\
    Theta ab = PI / 2 - DirectionTheta ab /\
    0 <= DirectionTheta ab < PI / 2.
Proof.
  destruct (ab_line_quadrant_table (0, 0) (-1, 2)) as (ab & E & _ & _ & _ & Hr & _ & H2 & _).
  - simpl. lra.
  - simpl. lra.
  - exists ab. split; [exact E |]. split; [| exact Hr].
    apply H2; simpl; lra.
Defined.

(** ** Numeric bounds on the arctangent

    [atan r] is bracketed through the alternating Taylor bounds of sine and
    cosine that the standard library provides. *)

Lemma INR_fact n z : Z.of_nat (fact n) = z -> INR (fact n) = IZR z.
Proof. intros <-. apply INR_IZR_INZ. Qed.

Ltac fact_consts :=
  repeat match goal with
  | |- context [INR (fact ?n)] =>
      let z := eval vm_compute in (Z.of_nat (fact n)) in
      rewrite (INR_fact n z) by (vm_compute; reflexivity)
  end.

Lemma sin_lb_poly a :
  sin_lb a = a - a ^ 3 / 6 + a ^ 5 / 120 - a ^ 7 / 5040.
Proof.
  unfold sin_lb, sin_approx, sin_term. cbn [sum_f_R0 Nat.mul Nat.add].
  fact_consts. field.
Qed.

Lemma sin_ub_poly a :
  sin_ub a = a - a ^ 3 / 6 + a ^ 5 / 120 - a ^ 7 / 5040 + a ^ 9 / 362880.
Proof.
  unfold sin_ub, sin_approx, sin_term. cbn [sum_f_R0 Nat.mul Nat.add].
  fact_consts. field.
Qed.

Lemma cos_lb_poly a :
  cos_lb a = 1 - a ^ 2 / 2 + a ^ 4 / 24 - a ^ 6 / 720.
Proof.
  unfold cos_lb, cos_approx, cos_term. cbn [sum_f_R0 Nat.mul Nat.add].
  fact_consts. field.
Qed.

Lemma cos_ub_poly a :
  cos_ub a = 1 - a ^ 2 / 2 + a ^ 4 / 24 - a ^ 6 / 720 + a ^ 8 / 40320.
Proof.
  unfold cos_ub, cos_approx, cos_term. cbn [sum_f_R0 Nat.mul Nat.add].
  fact_consts. field.
Qed.

Lemma atan_above (a r : R) :
  0 <= a -> a <= 3 / 2 -> 0 < cos_lb a ->
  sin_ub a < r * cos_lb a -> a < atan r.
Proof.
  intros H0 H1 Hc H.
  assert (HP := PI2_3_2).
  assert (Hs : sin a <= sin_ub a) by (apply SIN; lra).
  assert (Hco : cos_lb a <= cos a) by (apply COS; lra).
  assert (Hcp : 0 < cos a) by lra.
  assert (Hr : 0 < r).
  { destruct (Rle_or_lt r 0) as [Hr | Hr]; [| exact Hr].
    exfalso.
    assert (0 <= sin a) by (apply sin_ge_0; lra).
    assert (r * cos_lb a <= 0) by nra. lra. }
  assert (Ht : tan a < r).
  { unfold tan. apply Rmult_lt_reg_r with (cos a); [exact Hcp |].
    unfold Rdiv. rewrite Rmult_assoc, Rinv_l by lra. rewrite Rmult_1_r.
    apply Rle_lt_trans with (sin_ub a); [exact Hs |].
    apply Rlt_le_trans with (r * cos_lb a); [exact H |].
    apply Rmult_le_compat_l; lra. }
  rewrite <- (atan_tan a) by lra.
  now apply atan_increasing.
Qed.

Lemma atan_below (a r : R) :
  0 <= a -> a <= 3 / 2 -> 0 <= r ->
  r * cos_ub a < sin_lb a -> atan r < a.
Proof.
  intros H0 H1 Hr H.
  assert (HP := PI2_3_2).
  assert (Hs : sin_lb a <= sin a) by (apply SIN; lra).
  assert (Hco : cos a <= cos_ub a) by (apply COS; lra).
  assert (Hcp : 0 < cos a) by (apply cos_gt_0; lra).
  assert (Ht : r < tan a).
  { unfold tan. apply Rmult_lt_reg_r with (cos a); [exact Hcp |].
    unfold Rdiv. rewrite Rmult_assoc, Rinv_l by lra. rewrite Rmult_1_r.
    apply Rlt_le_trans with (sin_lb a); [| exact Hs].
    apply Rle_lt_trans with (r * cos_ub a); [| exact H].
    apply Rmult_le_compat_l; lra. }
  apply Rlt_le_trans with (atan (tan a)); [now apply atan_increasing |].
  rewrite atan_tan by lra. lra.
Qed.

Lemma doc_deltas :
  fst B_doc - fst A_doc = 94.407 /\ snd B_doc - snd A_doc = 100.606.
Proof. unfold A_doc, B_doc; simpl. split; lra. Qed.

Lemma direction_theta_doc :
  0.8171 < direction_theta 100.606 94.407 < 0.8173.
Proof.
  unfold direction_theta. rewrite !Rabs_pos_eq by lra. split.
  - apply atan_above; try lra.
    + rewrite cos_lb_poly. lra.
    + rewrite sin_ub_poly, cos_lb_poly. lra.
  - apply atan_below; try lra.
    rewrite cos_ub_poly, sin_lb_poly. lra.
Qed.

(** ** Reasoning about runs *)

Lemma bind_ok_inv {T U} (m : M T) (f : T -> M U) l b :
  bind m f = (l, inr b) ->
  exists l1 a l2, m = (l1, inr a) /\ f a = (l2, inr b) /\ l = l1 ++ l2.
Proof.
  unfold bind. destruct m as [l1 [e | a]]; simpl; [discriminate |].
  destruct (f a) as [l2 r] eqn:E; simpl. intros [= <- ->].
  now exists l1, a, l2.
Qed.

Lemma bind_err_inv {T U} (m : M T) (f : T -> M U) l e :
  bind m f = (l, inl e) ->
  m = (l, inl e) \/
  exists l1 a l2, m = (l1, inr a) /\ f a = (l2, inl e) /\ l = l1 ++ l2.
Proof.
  unfold bind. destruct m as [l1 [e' | a]]; simpl.
  - intros [= <- <-]. now left.
  - destruct (f a) as [l2 r] eqn:E; simpl. intros [= <- ->].
    right. now exists l1, a, l2.
Qed.

Lemma silent_ret {T} (a : T) : silent (ret a).
Proof. reflexivity. Qed.

Lemma silent_raise {T} e : silent (@raise T e).
Proof. reflexivity. Qed.

Lemma silent_lift {T} e (o : option T) : silent (lift e o).
Proof. now destruct o. Qed.

Lemma silent_bind {T U} (m : M T) (f : T -> M U) :
  silent m -> (forall a, silent (f a)) -> silent (bind m f).
Proof.
  unfold silent, bind. intros Hm Hf. destruct m as [l [e | a]]; simpl in *.
  - exact Hm.
  - subst l. apply Hf.
Qed.

Lemma silent_inv {T} (m : M T) l r : silent m -> m = (l, r) -> l = [].
Proof. unfold silent. now intros H ->. Qed.

Create HintDb silent.
#[local] Hint Resolve silent_ret silent_raise silent_lift silent_bind
  : silent.

Lemma silent_validate_columns df : silent (validate_columns df).
Proof. unfold validate_columns. destruct (missing_cols df); auto with silent. Qed.

Lemma silent_validate_stagger st n mr : silent (validate_stagger st n mr).
Proof.
  unfold validate_stagger. destruct st as [[[s p] d] |]; auto with silent.
  repeat match goal with |- context [if ?b then _ else _] => destruct b end;
    auto with silent.
Qed.

Lemma silent_ab_line A B : silent (ab_line A B).
Proof. unfold ab_line. destruct (Req_dec_T _ _); auto with silent. Qed.

Lemma silent_subset_checks n k : silent (subset_checks n k).
Proof.
  unfold subset_checks.
  repeat match goal with |- context [if ?b then _ else _] => destruct b end;
    auto with silent.
Qed.

Lemma silent_row_grouping n mr k bc P names :
  silent (row_grouping n mr k bc P names).
Proof.
  unfold row_grouping. apply silent_bind.
  - destruct (combined_mode n mr k); [| auto with silent].
    unfold combine_rows. auto with silent.
  - intros [P1 names1]. destruct (relabel_mode n mr k); [| auto with silent].
    unfold relabel_rows. destruct (negb (k =? 0)%Z); [| auto with silent].
    apply silent_bind; [apply silent_subset_checks |]. auto with silent.
Qed.

Lemma silent_serpentine_range P names i : silent (serpentine_range P names i).
Proof. unfold serpentine_range, serpentine_range_with. auto 10 with silent. Qed.

Lemma silent_serpentine_loop P names idxs acc1 acc2 :
  silent (serpentine_loop P names idxs acc1 acc2).
Proof.
  revert acc1 acc2. induction idxs as [| i idxs IH]; intros; simpl.
  - apply silent_ret.
  - apply silent_bind; [apply silent_serpentine_range |].
    intros [rows nm]. apply IH.
Qed.

Lemma silent_serpentine n P names : silent (serpentine n P names).
Proof.
  unfold serpentine, serpentine_with.
  apply silent_bind; [apply silent_serpentine_loop |].
  intros [op on]. apply silent_bind; [| auto with silent].
  unfold vstack. destruct op; auto with silent.
Qed.

Lemma shapefiles_app l1 l2 :
  shapefiles (l1 ++ l2) = shapefiles l1 ++ shapefiles l2.
Proof.
  induction l1 as [| e l1 IH]; [reflexivity |].
  destruct e; simpl; now rewrite ?IH.
Qed.

Lemma when_ok_inv b (m : M unit) l :
  when b m = (l, inr tt) -> (b = false /\ l = []) \/ (b = true /\ m = (l, inr tt)).
Proof. destruct b; simpl; [now right | intros [= <-]; now left]. Qed.

Lemma create_square_plot_log P f o l r :
  _create_square_plot P f o = (l, r) -> shapefiles l = [].
Proof.
  unfold _create_square_plot. destruct (col_max (map m_row P));
    cbv [lift bind ret raise emit fst snd app]; now intros [= <- _].
Qed.

Lemma create_rotated_plot_log P f o l r :
  _create_rotated_plot P f o = (l, r) -> shapefiles l = [].
Proof.
  unfold _create_rotated_plot. destruct (col_max (map m_row P));
    cbv [lift bind ret raise emit fst snd app]; now intros [= <- _].
Qed.

Lemma write_shapefile_ok_inv P names f o crs b l :
  _write_shapefile P names f o crs b = (l, inr tt) ->
  List.length names = List.length P /\
  l = [WriteShp (file_name f o (if b then "_buff.shp" else ".shp")%string)
                names (map ring_of P) crs].
Proof.
  unfold _write_shapefile. rewrite length_map.
  destruct (Nat.eqb_spec (List.length names) (List.length P)) as [E | _];
    [| discriminate].
  unfold emit. now intros [= <-].
Qed.

Lemma write_shapefile_run P names f o crs b :
  List.length names = List.length P ->
  _write_shapefile P names f o crs b =
  ([WriteShp (file_name f o (if b then "_buff.shp" else ".shp")%string)
             names (map ring_of P) crs], inr tt).
Proof.
  intros E. unfold _write_shapefile. rewrite length_map, E, Nat.eqb_refl.
  reflexivity.
Qed.

Lemma bind_when_emit {U} b e (f : unit -> M U) :
  bind (when b (emit e)) f
  = ((if b then [e] else []) ++ fst (f tt), snd (f tt)).
Proof. destruct b; reflexivity. Qed.

Lemma build_and_export_run A ab st sM RS WS RB WB utm hem f o P names :
  List.length names = List.length P ->
  build_and_export A ab st sM RS WS RB WB utm hem f o false false P names
  = ((match utm with None => [Warn NoCRS] | Some _ => [] end)
     ++ [ WriteShp (file_name f o ".shp") names
            (map ring_of (adjust A ab st sM (map (corners RS WS) P)))
            (crs_of utm hem);
          WriteShp (file_name f o "_buff.shp") names
            (map ring_of
               (adjust A ab st sM
                  (map (buffer RB WB) (map (corners RS WS) P))))
            (crs_of utm hem) ],
      inr tt).
Proof.
  intros HL. unfold build_and_export.
  rewrite !write_shapefile_run
    by (unfold adjust; now rewrite !length_map).
  destruct utm; reflexivity.
Qed.

(** What a successful export leaves: two shapefiles over the same ids. *)
Lemma build_and_export_ok_inv A ab st sM RS WS RB WB utm hem f o sq rt P names l :
  build_and_export A ab st sM RS WS RB WB utm hem f o sq rt P names
  = (l, inr tt) ->
  List.length names = List.length P /\
  shapefiles l =
  [ (file_name f o ".shp", names,
     map ring_of (adjust A ab st sM (map (corners RS WS) P)),
     crs_of utm hem);
    (file_name f o "_buff.shp", names,
     map ring_of (adjust A ab st sM
                         (map (buffer RB WB) (map (corners RS WS) P))),
     crs_of utm hem) ].
Proof.
  unfold build_and_export. intros H.
  apply bind_ok_inv in H as (l1 & [] & l2 & H1 & H & ->).
  apply bind_ok_inv in H as (l3 & [] & l4 & H3 & H & ->).
  apply bind_ok_inv in H as (l5 & [] & l6 & H5 & H & ->).
  apply bind_ok_inv in H as (l7 & [] & l8 & H7 & H8 & ->).
  apply write_shapefile_ok_inv in H7 as [E7 ->].
  apply write_shapefile_ok_inv in H8 as [E8 ->].
  split.
  - rewrite E7. unfold adjust. now rewrite !length_map.
  - rewrite !shapefiles_app.
    assert (S1 : shapefiles l1 = []).
    { apply when_ok_inv in H1 as [[_ ->] | [_ H1]]; [reflexivity |].
      eapply create_square_plot_log; eauto. }
    assert (S3 : shapefiles l3 = []).
    { apply when_ok_inv in H3 as [[_ ->] | [_ H3]]; [reflexivity |].
      eapply create_rotated_plot_log; eauto. }
    assert (S5 : shapefiles l5 = []).
    { apply when_ok_inv in H5 as [[_ ->] | [_ H5]]; [reflexivity |].
      unfold emit in H5. now injection H5 as <-. }
    rewrite S1, S3, S5. reflexivity.
Qed.

Section Run.
Variables (A B : R * R) (infile : DataFrame) (outfile : string)
          (UTMzone : option string) (Hemisphere : string)
          (nrowplot : Z) (multirowind : bool)
          (rowspc rowbuf rangespc rangebuf : R)
          (stagger : option (Z * Z * R)) (plotsubset : Z)
          (field : option string) (unit_ : string)
          (SquarePlot RotatePlot : bool).

Let rows := sort_values (df_rows infile).
Let run :=
  plotshpcreate A B infile outfile UTMzone Hemisphere nrowplot multirowind
                rowspc rowbuf rangespc rangebuf stagger plotsubset
                field unit_ SquarePlot RotatePlot.

(** A run that returns went through every stage, and its two shapefiles
    are the rotated rectangles of the serpentine-ordered matrix. *)
Lemma plotshpcreate_ok_inv log :
  run = (log, inr tt) ->
  exists ab P1 n1 P2 names,
    ab_line A B = ([], inr ab) /\
    row_grouping nrowplot multirowind plotsubset (map Barcode rows)
                 (create_matrix rows) (map Barcode rows)
    = ([], inr (P1, n1)) /\
    serpentine (n_unique (map Range rows)) P1 n1 = ([], inr (P2, names)) /\
    List.length names = List.length P2 /\
    let RS := to_m unit_ rangespc in
    let WS := row_spacing_m unit_ nrowplot multirowind plotsubset rowspc in
    let sM := stagger_m unit_ stagger in
    shapefiles log =
    [ (file_name field outfile ".shp", names,
       map ring_of (adjust A ab stagger sM (map (corners RS WS) P2)),
       crs_of UTMzone Hemisphere);
      (file_name field outfile "_buff.shp", names,
       map ring_of
           (adjust A ab stagger sM
                   (map (buffer (to_m unit_ rangebuf) (to_m unit_ rowbuf))
                        (map (corners RS WS) P2))),
       crs_of UTMzone Hemisphere) ].
Proof.
  unfold run, plotshpcreate. fold rows. intros H.
  apply bind_ok_inv in H as (l1 & [] & l2 & H1 & H & ->).
  apply bind_ok_inv in H as (l3 & [] & l4 & H3 & H & ->).
  apply bind_ok_inv in H as (l5 & [] & l6 & H5 & H & ->).
  apply bind_ok_inv in H as (l7 & ab & l8 & H7 & H & ->).
  apply bind_ok_inv in H as (l9 & [P1 n1] & l10 & H9 & H & ->).
  apply bind_ok_inv in H as (l11 & [P2 names] & l12 & H11 & H & ->).
  pose proof (silent_inv _ _ _ (silent_validate_columns _) H1) as ->.
  pose proof (silent_inv _ _ _ (silent_validate_stagger _ _ _) H3) as ->.
  pose proof (silent_inv _ _ _ (silent_ab_line _ _) H7) as ->.
  pose proof (silent_inv _ _ _ (silent_row_grouping _ _ _ _ _ _) H9) as ->.
  pose proof (silent_inv _ _ _ (silent_serpentine _ _ _) H11) as ->.
  apply build_and_export_ok_inv in H as [EL HS].
  exists ab, P1, n1, P2, names.
  repeat split; try assumption.
  cbv zeta. rewrite !shapefiles_app. simpl app.
  assert (S5 : shapefiles l5 = []).
  { apply when_ok_inv in H5 as [[_ ->] | [_ H5]]; [reflexivity |].
    unfold emit in H5. now injection H5 as <-. }
  rewrite S5. exact HS.
Qed.

(** The converse: stage results that fit together give the run. *)
Lemma plotshpcreate_run ab P1 n1 P2 names :
  validate_columns infile = ([], inr tt) ->
  validate_stagger stagger nrowplot multirowind = ([], inr tt) ->
  ab_line A B = ([], inr ab) ->
  row_grouping nrowplot multirowind plotsubset (map Barcode rows)
               (create_matrix rows) (map Barcode rows)
  = ([], inr (P1, n1)) ->
  serpentine (n_unique (map Range rows)) P1 n1 = ([], inr (P2, names)) ->
  List.length names = List.length P2 ->
  SquarePlot = false -> RotatePlot = false ->
  let RS := to_m unit_ rangespc in
  let WS := row_spacing_m unit_ nrowplot multirowind plotsubset rowspc in
  let sM := stagger_m unit_ stagger in
  let unbuf := adjust A ab stagger sM (map (corners RS WS) P2) in
  let buf :=
    adjust A ab stagger sM
           (map (buffer (to_m unit_ rangebuf) (to_m unit_ rowbuf))
                (map (corners RS WS) P2)) in
  run =
  ((if negb (List.length rows
             =? n_unique (map Range rows) * n_unique (map Row rows))%nat
    then [Warn LengthMismatch] else [])
   ++ (match UTMzone with None => [Warn NoCRS] | Some _ => [] end)
   ++ [ WriteShp (file_name field outfile ".shp") names
                 (map ring_of unbuf) (crs_of UTMzone Hemisphere);
        WriteShp (file_name field outfile "_buff.shp") names
                 (map ring_of buf) (crs_of UTMzone Hemisphere) ],
   inr tt).
Proof.
  intros Hc Hs Hab Hg Hp HL -> ->. cbv zeta.
  unfold run, plotshpcreate. fold rows.
  rewrite Hc, bind_nil_l. rewrite Hs, bind_nil_l.
  rewrite bind_when_emit.
  rewrite Hab, bind_nil_l, Hg, bind_nil_l, Hp, bind_nil_l.
  rewrite build_and_export_run by exact HL.
  reflexivity.
Qed.
End Run.

(** ** The documented end-to-end example *)

Lemma ab_line_doc :
  ab_line A_doc B_doc =
  ([], inr {| DeltaEasting := 94.407; DeltaNorthing := 100.606;
              DirectionTheta := direction_theta 100.606 94.407;
              Theta := 3 * PI / 2 + direction_theta 100.606 94.407;
              srt_theta := 90 - direction_theta 100.606 94.407 * (180 / PI) |}).
Proof.
  destruct doc_deltas as [HE HN].
  rewrite ab_line_defined by (rewrite HE; lra).
  rewrite HE, HN. do 2 f_equal. f_equal; quadrant_cases.
Qed.

(** A row at local range 1 and row 1 that is not staggered has its
    bottom-left corner on A, for every angle and spacing. *)
Lemma first_corner_on_A th A RS WS r :
  m_range r = 1%Z -> m_row r = 1%Z ->
  xy (m_bl (rotate th A (corners RS WS r))) = A.
Proof.
  intros Hy Hx. unfold rotate, corners, set_corners, rotate_corner, xy.
  cbn [m_bl m_range m_row fst snd]. rewrite Hy, Hx.
  destruct A as [e n]. cbn [fst snd]. f_equal; ring.
Qed.

(** C3, the claim as stated fails: on the documented AB line
    DirectionTheta is not 0.8186, not even to within 0.001. *)
Lemma doc_direction_theta_not_0_8186 :
  ~ exists ab,
      ab_line A_doc B_doc = ([], inr ab) /\
      Rabs (DirectionTheta ab - 0.8186) <= 0.001.
Proof.
  intros (ab & E & H). rewrite ab_line_doc in E. injection E as <-.
  cbn [DirectionTheta] in H.
  destruct direction_theta_doc as [_ Hu].
  rewrite Rabs_left in H by lra. lra.
Qed.

(** C3 (amended): on the documented AB line and the test table, without
    stagger, DeltaEasting = 94.407, DeltaNorthing = 100.606 (Quadrant I),
    Theta = 3pi/2 + DirectionTheta with DirectionTheta within 0.0001 of
    0.8172 rad, the run returns and writes the two shapefiles, and the first
    point of the first unbuffered ring is A exactly. *)
Theorem end_to_end_doc_example :
  exists ab log ids polys rest bufs crs,
    ab_line A_doc B_doc = ([], inr ab) /\
    DeltaEasting ab = 94.407 /\ DeltaNorthing ab = 100.606 /\
    Theta ab = 3 * PI / 2 + DirectionTheta ab /\
    Rabs (DirectionTheta ab - 0.8172) < 0.0001 /\
    plotshpcreate A_doc B_doc sample_data "test_basic" (Some "14"%string) "N"
                  1 false 2.5 0.1 25 2 None 0 (Some "TEST"%string) "feet"
                  false false
    = (log, inr tt) /\
    shapefiles log = [ ("TEST_test_basic.shp"%string, ids, polys, crs);
                       ("TEST_test_basic_buff.shp"%string, ids, bufs, crs) ] /\
    hd_error ids = Some "BC001"%string /\
    hd_error polys = Some (A_doc :: rest).
Proof.
  eexists. do 6 eexists.
  split; [apply ab_line_doc |].
  cbn [DeltaEasting DeltaNorthing Theta DirectionTheta].
  split; [reflexivity |]. split; [reflexivity |]. split; [reflexivity |].
  split.
  { destruct direction_theta_doc as [Hl Hu].
    apply Rabs_def1; lra. }
  split.
  { eapply plotshpcreate_run.
    - reflexivity.
    - reflexivity.
    - apply ab_line_doc.
    - vm_compute. reflexivity.
    - vm_compute. reflexivity.
    - reflexivity.
    - reflexivity.
    - reflexivity. }
  split; [reflexivity |].
  split; [reflexivity |].
  cbn [map adjust hd_error]. unfold ring_of, origin_of, use_stagger.
  rewrite first_corner_on_A by reflexivity. reflexivity.
Qed.

(** ** Rectangles and the rotation *)

Lemma sqrt_sq_0_l x : 0 <= x -> sqrt (0 * 0 + x * x) = x.
Proof.
  intros H. replace (0 * 0 + x * x) with (x * x) by ring.
  now apply sqrt_square.
Qed.

Lemma dist_sym p q : dist p q = dist q p.
Proof. unfold dist. f_equal. ring. Qed.

Lemma dist_axis_x a b c : 0 <= c - b -> dist (b, a) (c, a) = c - b.
Proof.
  intros H. unfold dist; cbn [fst snd].
  replace ((b - c) * (b - c) + (a - a) * (a - a)) with ((c - b) * (c - b))
    by ring.
  now apply sqrt_square.
Qed.

Lemma dist_axis_y a b c : 0 <= c - b -> dist (a, b) (a, c) = c - b.
Proof.
  intros H. unfold dist; cbn [fst snd].
  replace ((a - a) * (a - a) + (b - c) * (b - c)) with ((c - b) * (c - b))
    by ring.
  now apply sqrt_square.
Qed.

Lemma dist_axis_x_abs a b c : dist (b, a) (c, a) = Rabs (c - b).
Proof.
  unfold dist; cbn [fst snd]. rewrite <- sqrt_Rsqr_abs. f_equal.
  unfold Rsqr. ring.
Qed.

Lemma dist_axis_y_abs a b c : dist (a, b) (a, c) = Rabs (c - b).
Proof.
  unfold dist; cbn [fst snd]. rewrite <- sqrt_Rsqr_abs. f_equal.
  unfold Rsqr. ring.
Qed.

(** The rotation about any origin keeps distances. *)
Lemma dist_rotate_corner th o p q :
  dist (xy (rotate_corner th o p)) (xy (rotate_corner th o q))
  = dist (xy p) (xy q).
Proof.
  unfold dist, xy, rotate_corner; cbn [fst snd]. f_equal.
  destruct p as [py px], q as [qy qx]; cbn [fst snd].
  pose proof (sin2_cos2 th) as H. unfold Rsqr in H.
  transitivity (((px - qx) * (px - qx) + (py - qy) * (py - qy))
                * (sin th * sin th + cos th * cos th)); [ring |].
  rewrite H. ring.
Qed.

(** ... and the shoelace sum of a four-corner ring. *)
Lemma shoelace_rotate th o r :
  shoelace (ring_of (rotate th o r)) = shoelace (ring_of r).
Proof.
  unfold ring_of, rotate, set_corners, rotate_corner, xy.
  cbn [m_bl m_br m_tr m_tl shoelace fst snd].
  destruct (m_bl r) as [y0 x0], (m_br r) as [y1 x1],
           (m_tr r) as [y2 x2], (m_tl r) as [y3 x3], o as [oe on].
  cbn [fst snd].
  pose proof (sin2_cos2 th) as H. unfold Rsqr in H.
  transitivity
    ((x0 * y1 - x1 * y0 + (x1 * y2 - x2 * y1 + (x2 * y3 - x3 * y2
      + (x3 * y0 - x0 * y3 + 0))))
     * (sin th * sin th + cos th * cos th)); [ring |].
  rewrite H. ring.
Qed.

Lemma area_rotate th o r :
  area (ring_of (rotate th o r)) = area (ring_of r).
Proof. unfold area. now rewrite shoelace_rotate. Qed.

(** The local rectangle of a row. *)
Lemma corners_rectangle RS WS r :
  0 <= RS -> 0 <= WS -> rectangle_of RS WS (ring_of (corners RS WS r)).
Proof.
  intros HR HW. unfold rectangle_of, ring_of, corners, set_corners, xy.
  cbn [m_bl m_br m_tr m_tl fst snd].
  set (y := IZR (m_range r)). set (x := IZR (m_row r)).
  do 4 eexists. split; [reflexivity |].
  split; [| split; [| split; [| split]]].
  - rewrite dist_axis_x; [ring | ring_simplify; exact HW].
  - rewrite dist_axis_y; [ring | ring_simplify; exact HR].
  - rewrite dist_sym, dist_axis_x; [ring | ring_simplify; exact HW].
  - rewrite dist_sym, dist_axis_y; [ring | ring_simplify; exact HR].
  - unfold area. cbn [shoelace fst snd].
    match goal with
    | |- Rabs ?e / 2 = _ => replace e with (2 * (RS * WS)) by ring
    end.
    rewrite Rabs_pos_eq by nra. field.
Qed.

(** The rotated rectangle of a row, for every angle and origin. *)
Lemma rotated_rectangle RS WS th o r :
  0 <= RS -> 0 <= WS ->
  rectangle_of RS WS (ring_of (rotate th o (corners RS WS r))).
Proof.
  intros HR HW.
  destruct (corners_rectangle RS WS r HR HW)
    as (p0 & p1 & p2 & p3 & E & H01 & H12 & H23 & H30 & Ha).
  unfold ring_of in E. injection E as <- <- <- <-.
  unfold rectangle_of, ring_of at 1.
  replace (m_bl (rotate th o (corners RS WS r)))
    with (rotate_corner th o (m_bl (corners RS WS r))) by reflexivity.
  replace (m_br (rotate th o (corners RS WS r)))
    with (rotate_corner th o (m_br (corners RS WS r))) by reflexivity.
  replace (m_tr (rotate th o (corners RS WS r)))
    with (rotate_corner th o (m_tr (corners RS WS r))) by reflexivity.
  replace (m_tl (rotate th o (corners RS WS r)))
    with (rotate_corner th o (m_tl (corners RS WS r))) by reflexivity.
  do 4 eexists. split; [reflexivity |].
  rewrite !dist_rotate_corner.
  repeat split; try assumption.
  change (area (ring_of (rotate th o (corners RS WS r))) = RS * WS).
  now rewrite area_rotate.
Qed.

Lemma to_m_nonneg u v : 0 <= v -> 0 <= to_m u v.
Proof.
  intros H. unfold to_m. destruct (is_feet u); [| exact H].
  apply Rmult_le_pos; [exact H |]. left. apply Rinv_0_lt_compat. lra.
Qed.

Lemma row_spacing_m_nonneg u n mr k v :
  0 <= v -> 0 <= row_spacing_m u n mr k v.
Proof.
  intros H. unfold row_spacing_m.
  destruct (combined_mode n mr k) eqn:E; [| now apply to_m_nonneg].
  unfold combined_mode in E.
  apply andb_true_iff in E as [E _]. apply andb_true_iff in E as [E _].
  apply Z.ltb_lt in E. apply IZR_lt in E.
  assert (0 <= IZR n * v) by (apply Rmult_le_pos; lra).
  unfold combined_row_spacing. destruct (is_feet u); [| assumption].
  apply Rmult_le_pos; [assumption |]. left. apply Rinv_0_lt_compat. lra.
Qed.

Section Shape.
Variables (A B : R * R) (infile : DataFrame) (outfile : string)
          (UTMzone : option string) (Hemisphere : string)
          (nrowplot : Z) (multirowind : bool)
          (rowspc rowbuf rangespc rangebuf : R)
          (stagger : option (Z * Z * R)) (plotsubset : Z)
          (field : option string) (unit_ : string)
          (SquarePlot RotatePlot : bool).

End Shape.





(** ** Stagger *)

Lemma rotate_shift_corner th A d c :
  rotate_corner th (fst A - d * sin th, snd A + d * cos th) c
  = rotate_corner th A (shiftY d c).
Proof.
  unfold rotate_corner, shiftY. destruct c as [y x], A as [e n].
  cbn [fst snd]. f_equal; ring.
Qed.

(** In Quadrant I the staggered origin is the image of the local shift:
    rotating about it equals shifting the range-axis coordinates by the
    offset and rotating about A. *)
Lemma stagger_quadrant_I A ab d r :
  0 < DeltaNorthing ab -> 0 < DeltaEasting ab ->
  rotate (Theta ab) (stag_origin A ab d) r
  = rotate (Theta ab) A (shift_range d r).
Proof.
  intros HN HE. unfold stag_origin.
  rewrite !Rgtb_true by lra. cbn [andb].
  unfold rotate, shift_range, set_corners.
  cbn [m_plot m_range m_row m_bl m_br m_tr m_tl m_orig].
  now rewrite !rotate_shift_corner.
Qed.

(** In every quadrant the staggered origin lies at distance |d| from A. *)
Lemma stag_origin_magnitude A ab d : dist (stag_origin A ab d) A = Rabs d.
Proof.
  unfold stag_origin, dist. rewrite <- sqrt_Rsqr_abs. f_equal.
  pose proof (sin2_cos2 (Theta ab)) as H. unfold Rsqr in *.
  repeat match goal with |- context [if ?b then _ else _] => destruct b end;
    cbn [fst snd];
    match goal with
    | |- ?l = _ =>
        transitivity (d * d * (sin (Theta ab) * sin (Theta ab)
                               + cos (Theta ab) * cos (Theta ab)));
        [ring | rewrite H; ring]
    end.
Qed.

Lemma origin_not_staggered A ab st d r :
  use_stagger st r = false -> origin_of A ab st d r = A.
Proof. intros H. unfold origin_of. now rewrite H. Qed.

Lemma ab_line_q4 :
  ab_line A_q4 B_q4 =
  ([], inr {| DeltaEasting := 1; DeltaNorthing := -1;
              DirectionTheta := PI / 4;
              Theta := PI / 4 + PI;
              srt_theta := 270 + PI / 4 * (180 / PI) |}).
Proof.
  unfold A_q4, B_q4. rewrite ab_line_defined by (simpl; lra).
  cbn [fst snd].
  replace (1 - 0) with 1 by ring. replace (-1 - 0) with (-1) by ring.
  assert (E : direction_theta (-1) 1 = PI / 4).
  { unfold direction_theta. rewrite Rabs_left, Rabs_pos_eq by lra.
    replace (- -1 / 1) with 1 by field. apply atan_1. }
  do 2 f_equal. unfold theta_of, srt_theta_of. rewrite E.
  rewrite (Rgtb_false (-1) 0), (Rltb_true (-1) 0), (Rltb_false 1 0) by lra.
  cbn [andb]. f_equal. field.
Qed.

Lemma cos_PI4_pos : 0 < cos (PI / 4).
Proof.
  apply cos_gt_0; pose proof PI_RGT_0; lra.
Qed.

(** C2, evaluated on a Quadrant IV AB line (A = (0,0), B = (1,-1), stagger
    (2, 1, 1) in meters): the run returns; the second plot is staggered and
    its exported ring is the rotation of the unshifted rectangle about the
    staggered origin; that ring differs from the ring obtained by shifting
    the range-axis coordinates by the offset and rotating about A. *)
Theorem stagger_quadrant_IV_diverges :
  exists ab log f ids polys crs g,
    ab_line A_q4 B_q4 = ([], inr ab) /\
    plotshpcreate A_q4 B_q4 stagger_table "out" None "N" 1 false
                  1 0 1 0 (Some (2%Z, 1%Z, 1)) 0 None "meter" false false
    = (log, inr tt) /\
    hd_error (shapefiles log) = Some (f, ids, polys, crs) /\
    nth_error polys 1 = Some g /\
    use_stagger (Some (2%Z, 1%Z, 1)) staggered_row = true /\
    g = ring_of (rotate (Theta ab) (stag_origin A_q4 ab 1)
                        (corners 1 1 staggered_row)) /\
    g <> ring_of (rotate (Theta ab) A_q4
                         (shift_range 1 (corners 1 1 staggered_row))).
Proof.
  eexists. do 6 eexists.
  split; [apply ab_line_q4 |].
  split.
  { eapply plotshpcreate_run.
    - reflexivity.
    - reflexivity.
    - apply ab_line_q4.
    - vm_compute. reflexivity.
    - vm_compute. reflexivity.
    - reflexivity.
    - reflexivity.
    - reflexivity. }
  split; [reflexivity |].
  split; [reflexivity |].
  split; [reflexivity |].
  split; [reflexivity |].
  match goal with
  | |- ?g <> ring_of (rotate (Theta ?ab) _ _) =>
      change g with (ring_of (rotate (Theta ab) (stag_origin A_q4 ab 1)
                                     (corners 1 1 staggered_row)))
  end.
  cbn [Theta]. unfold stag_origin. cbn [DeltaNorthing DeltaEasting Theta].
  rewrite (Rgtb_false (-1) 0), (Rltb_true (-1) 0), (Rltb_false 1 0) by lra.
  cbn [andb].
  unfold ring_of, rotate, shift_range, corners, set_corners, rotate_corner,
    shiftY, xy, staggered_row, A_q4.
  cbn [m_bl m_br m_tr m_tl m_range m_row fst snd].
  rewrite neg_cos, neg_sin.
  assert (Es : sin (PI / 4) = cos (PI / 4)) by (now rewrite sin_PI4, cos_PI4).
  pose proof cos_PI4_pos as Hc.
  intros Heq. injection Heq as Hx _. rewrite Es in Hx.
  lra.
Qed.

(** ** Integer helpers: ceiling division, [arange], column extrema *)

Open Scope Z_scope.

Lemma ceil_div_spec a b q :
  0 < b -> (ceil_div a b = q <-> (q - 1) * b < a <= q * b).
Proof.
  intros Hb. unfold ceil_div.
  pose proof (Z.div_mod (- a) b ltac:(lia)) as E.
  pose proof (Z.mod_pos_bound (- a) b Hb) as Hm.
  split; intros H; nia.
Qed.

Lemma ceil_div_gt a b k : 0 < b -> (k < ceil_div a b <-> k * b < a).
Proof.
  intros Hb. unfold ceil_div.
  pose proof (Z.div_mod (- a) b ltac:(lia)) as E.
  pose proof (Z.mod_pos_bound (- a) b Hb) as Hm.
  split; intros H; nia.
Qed.

Lemma ceil_div_multiple_plus_1 k n : 1 < n -> 0 <= k ->
  ceil_div (1 + k * n) n = k + 1.
Proof. intros Hn Hk. apply ceil_div_spec; nia. Qed.

Lemma in_arange x start stop step :
  0 < step ->
  (In x (arange start stop step)
   <-> start <= x < stop /\ (x - start) mod step = 0).
Proof.
  intros Hs. unfold arange. rewrite in_map_iff. split.
  - intros (k & <- & Hk). apply in_seq in Hk.
    assert (Hlt : Z.of_nat k < ceil_div (stop - start) step) by lia.
    apply ceil_div_gt in Hlt; [| exact Hs].
    split; [nia |].
    replace (start + Z.of_nat k * step - start) with (Z.of_nat k * step)
      by ring.
    apply Z.mod_mul. lia.
  - intros [[Hlo Hhi] Hm].
    apply Z.mod_divide in Hm; [| lia]. destruct Hm as [q Hq].
    assert (0 <= q) by nia.
    exists (Z.to_nat q). split; [rewrite Z2Nat.id by lia; lia |].
    apply in_seq. split; [lia |]. simpl.
    assert (Hlt : q < ceil_div (stop - start) step)
      by (apply ceil_div_gt; [exact Hs | nia]).
    lia.
Qed.

Lemma fold_left_max_ge l a : a <= fold_left Z.max l a.
Proof.
  revert a. induction l as [| x l IH]; intros a; simpl; [lia |].
  specialize (IH (Z.max a x)). lia.
Qed.

Lemma fold_left_max_in l a x : In x l -> x <= fold_left Z.max l a.
Proof.
  revert a. induction l as [| y l IH]; intros a; simpl; [tauto |].
  intros [-> | H]; [| now apply IH].
  pose proof (fold_left_max_ge l (Z.max a x)). lia.
Qed.

Lemma col_max_ge l m x : col_max l = Some m -> In x l -> x <= m.
Proof.
  destruct l as [| a l]; simpl; [discriminate |]. intros [= <-] [-> | H].
  - apply fold_left_max_ge.
  - now apply fold_left_max_in.
Qed.

Lemma col_max_some l : l <> [] -> exists m, col_max l = Some m.
Proof. destruct l; [congruence | intros _; eexists; reflexivity]. Qed.

Lemma fold_left_min_le l a : fold_left Z.min l a <= a.
Proof.
  revert a. induction l as [| x l IH]; intros a; simpl; [lia |].
  specialize (IH (Z.min a x)). lia.
Qed.

Lemma fold_left_min_in l a x : In x l -> fold_left Z.min l a <= x.
Proof.
  revert a. induction l as [| y l IH]; intros a; simpl; [tauto |].
  intros [-> | H]; [| now apply IH].
  pose proof (fold_left_min_le l (Z.min a x)). lia.
Qed.

Lemma col_min_le l x : In x l -> col_min l <= x.
Proof.
  destruct l as [| a l]; simpl; [tauto |]. intros [-> | H].
  - apply fold_left_min_le.
  - now apply fold_left_min_in.
Qed.

Lemma create_matrix_row_pos rows r : In r (create_matrix rows) -> 1 <= m_row r.
Proof.
  unfold create_matrix. intros H. apply in_map_iff in H as (x & <- & Hx).
  cbn [m_row].
  assert (col_min (map Row rows) <= Row x)
    by (apply col_min_le; now apply in_map).
  lia.
Qed.

Lemma create_matrix_range_pos rows r :
  In r (create_matrix rows) -> 1 <= m_range r.
Proof.
  unfold create_matrix. intros H. apply in_map_iff in H as (x & <- & Hx).
  cbn [m_range].
  assert (col_min (map Range rows) <= Range x)
    by (apply col_min_le; now apply in_map).
  lia.
Qed.

Lemma create_matrix_length rows : List.length (create_matrix rows) = List.length rows.
Proof. unfold create_matrix. apply length_map. Qed.

(** ** Masks on parallel lists *)

Lemma compress_map_filter {T} (f : T -> bool) l :
  compress (map f l) l = filter f l.
Proof.
  induction l as [| x l IH]; [reflexivity |]. simpl.
  destruct (f x); now rewrite IH.
Qed.

Lemma pick_compress {T} mask (l : list T) :
  List.length mask = List.length l -> pick mask l = Some (compress mask l).
Proof.
  revert l. induction mask as [| m mask IH]; intros [| x l] H;
    try discriminate; [reflexivity |].
  simpl in *. injection H as H. rewrite (IH l H). now destruct m.
Qed.

Lemma compress_length {T U} mask (l1 : list T) (l2 : list U) :
  List.length l1 = List.length l2 ->
  List.length (compress mask l1) = List.length (compress mask l2).
Proof.
  revert l1 l2. induction mask as [| m mask IH]; intros [| x l1] [| y l2] H;
    try discriminate; try reflexivity.
  simpl in *. injection H as H. destruct m; simpl; auto.
Qed.

Lemma compress_combine {T U} mask (l1 : list T) (l2 : list U) :
  combine (compress mask l1) (compress mask l2)
  = compress mask (combine l1 l2).
Proof.
  revert l1 l2. induction mask as [| m mask IH]; intros [| x l1] [| y l2];
    try reflexivity; simpl.
  - now destruct m, (compress mask l1).
  - destruct m; simpl; now rewrite IH.
Qed.

(** ** Combined rows *)

Lemma kept_row_iff n r :
  1 < n -> 1 <= m_row r ->
  (kept_row n r = true <-> exists k, 0 <= k /\ m_row r = 1 + k * n).
Proof.
  intros Hn Hr. unfold kept_row. rewrite Z.eqb_eq. split.
  - intros H. apply Z.mod_divide in H; [| lia]. destruct H as [q Hq].
    exists q. split; nia.
  - intros (k & _ & ->). replace (1 + k * n - 1) with (k * n) by ring.
    apply Z.mod_mul. lia.
Qed.

Lemma combined_mask_kept n mx P :
  1 < n ->
  (forall r, In r P -> 1 <= m_row r <= mx) ->
  combined_mask n 0 mx P = map (kept_row n) P.
Proof.
  intros Hn HP. unfold combined_mask. apply map_ext_in. intros r Hr.
  specialize (HP r Hr). apply eq_true_iff_eq.
  rewrite orb_true_iff, existsb_exists, Z.eqb_eq.
  unfold kept_row. rewrite Z.eqb_eq. split.
  - intros [E | (x & Hx & Ex)].
    + rewrite E. reflexivity.
    + apply Z.eqb_eq in Ex. subst x.
      apply in_arange in Hx as [_ Hm]; [| lia].
      replace (m_row r - 1) with (m_row r - (1 + n + 0) + 1 * n) by ring.
      now rewrite Z.mod_add by lia.
  - intros H. apply Z.mod_divide in H; [| lia]. destruct H as [q Hq].
    destruct (Z.eq_dec q 0) as [-> | Hq0]; [left; lia |].
    right. exists (m_row r). split; [| apply Z.eqb_refl].
    apply in_arange; [lia |]. split; [nia |].
    replace (m_row r - (1 + n + 0)) with ((q - 1) * n) by lia.
    apply Z.mod_mul. lia.
Qed.

Lemma renumber_kept n r :
  1 <= m_row r -> 1 < n ->
  renumber n r = set_row r (ceil_div (m_row r) n).
Proof.
  intros Hr Hn. unfold renumber.
  destruct (Z.ltb_spec 1 (m_row r)) as [_ | H]; [reflexivity |].
  assert (E : m_row r = 1) by lia.
  assert (C : ceil_div (m_row r) n = 1) by (apply ceil_div_spec; lia).
  rewrite C, <- E. now destruct r.
Qed.

Lemma compress_incl {T} mask (l : list T) x :
  In x (compress mask l) -> In x l.
Proof.
  revert l. induction mask as [| m mask IH]; intros [| y l]; simpl;
    try tauto.
  destruct m; simpl; intros H; [destruct H as [-> | H] |]; auto.
Qed.

(** ** Insertion sort: permutation, order, naturality *)

Section SortFacts.
Context {T : Type} (leb : T -> T -> bool).

Lemma insert_by_perm x l : Permutation (insert_by leb x l) (x :: l).
Proof.
  induction l as [| y l IH]; simpl; [reflexivity |].
  destruct (leb x y); [reflexivity |].
  rewrite IH. apply perm_swap.
Qed.

Lemma sort_by_perm l : Permutation (sort_by leb l) l.
Proof.
  induction l as [| x l IH]; simpl; [reflexivity |].
  rewrite insert_by_perm. now constructor.
Qed.

Lemma sort_by_length l : List.length (sort_by leb l) = List.length l.
Proof. apply Permutation_length, sort_by_perm. Qed.

Lemma sort_by_in x l : In x (sort_by leb l) <-> In x l.
Proof.
  split; apply Permutation_in; [| symmetry]; apply sort_by_perm.
Qed.

Hypothesis leb_total : forall a b, leb a b = true \/ leb b a = true.
Hypothesis leb_trans :
  forall a b c, leb a b = true -> leb b c = true -> leb a c = true.

Lemma insert_by_sorted x l :
  StronglySorted (fun a b => leb a b = true) l ->
  StronglySorted (fun a b => leb a b = true) (insert_by leb x l).
Proof.
  induction 1 as [| y l Hs IH Hy]; simpl; [repeat constructor |].
  destruct (leb x y) eqn:E.
  - constructor; [now constructor |].
    constructor; [exact E |].
    eapply Forall_impl; [| exact Hy]. intros z Hz. eapply leb_trans; eauto.
  - constructor; [exact IH |].
    eapply Permutation_Forall; [symmetry; apply insert_by_perm |].
    constructor; [| exact Hy].
    destruct (leb_total x y) as [H | H]; [congruence | exact H].
Qed.

Lemma sort_by_sorted l :
  StronglySorted (fun a b => leb a b = true) (sort_by leb l).
Proof.
  induction l as [| x l IH]; simpl; [constructor |].
  now apply insert_by_sorted.
Qed.
End SortFacts.

Lemma insert_by_map {T U} (g : T -> U) leb leb' x l :
  (forall a b, leb' (g a) (g b) = leb a b) ->
  insert_by leb' (g x) (map g l) = map g (insert_by leb x l).
Proof.
  intros H. induction l as [| y l IH]; simpl; [reflexivity |].
  rewrite H. destruct (leb x y); simpl; [reflexivity | now rewrite IH].
Qed.

Lemma sort_by_map {T U} (g : T -> U) leb leb' l :
  (forall a b, leb' (g a) (g b) = leb a b) ->
  sort_by leb' (map g l) = map g (sort_by leb l).
Proof.
  intros H. induction l as [| x l IH]; simpl; [reflexivity |].
  rewrite IH. now apply insert_by_map.
Qed.

(** ** [argsort] followed by indexing is sorting *)

Lemma gather_app {T} (l : list T) a b ra rb :
  gather l a = Some ra -> gather l b = Some rb ->
  gather l (a ++ b) = Some (ra ++ rb).
Proof.
  revert ra. induction a as [| i a IH]; intros ra; simpl.
  - now intros [= <-].
  - destruct (nth_error l i); [| discriminate].
    destruct (gather l a) as [c |]; [| discriminate].
    intros [= <-] Hb. now rewrite (IH c eq_refl Hb).
Qed.

Lemma gather_rev {T} (l : list T) idx r :
  gather l idx = Some r -> gather l (rev idx) = Some (rev r).
Proof.
  revert r. induction idx as [| j idx IH]; intros r; simpl.
  - now intros [= <-].
  - destruct (nth_error l j) as [x |] eqn:E; [| discriminate].
    destruct (gather l idx) as [r' |]; [| discriminate].
    intros [= <-]. simpl. apply gather_app; [now apply IH |].
    simpl. now rewrite E.
Qed.

Lemma gather_indexed {T U} (l : list T) (tr : list (nat * (U * T))) :
  Forall (fun t => nth_error l (fst t) = Some (snd (snd t))) tr ->
  gather l (map fst tr) = Some (map (fun t => snd (snd t)) tr).
Proof.
  induction 1 as [| t tr Ht _ IH]; simpl; [reflexivity |].
  now rewrite Ht, IH.
Qed.

Lemma combine_seq_nth {T} (l : list T) k j x :
  In (j, x) (combine (seq k (List.length l)) l) ->
  nth_error l (j - k) = Some x.
Proof.
  revert k. induction l as [| y l IH]; intros k; simpl; [tauto |].
  intros [[= <- <-] | H].
  - now rewrite Nat.sub_diag.
  - assert (Hj : (S k <= j)%nat).
    { apply in_combine_l in H. apply in_seq in H. lia. }
    specialize (IH (S k) H).
    replace (j - k)%nat with (S (j - S k)) by lia. exact IH.
Qed.

Lemma map_snd_combine_seq {T} (c : list T) n m :
  (List.length c <= m)%nat -> map snd (combine (seq n m) c) = c.
Proof.
  revert n c. induction m as [| m IH]; intros n [| y c] H; simpl in *;
    try reflexivity; try lia.
  f_equal. apply IH. lia.
Qed.

Lemma map_combine_seq_keys {T} (keys : list Z) (l : list T) n :
  List.length keys = List.length l ->
  map (fun t : nat * (Z * T) => (fst t, fst (snd t)))
      (combine (seq n (List.length keys)) (combine keys l))
  = combine (seq n (List.length keys)) keys.
Proof.
  revert l n. induction keys as [| k keys IH]; intros [| x l] n HL;
    try discriminate; [reflexivity |].
  simpl. f_equal. apply IH. now injection HL.
Qed.

Lemma nth_error_combine_snd {T} (keys : list Z) (l : list T) j k x :
  nth_error (combine keys l) j = Some (k, x) -> nth_error l j = Some x.
Proof.
  revert l j. induction keys as [| k' keys IH]; intros [| y l] [| j]; simpl;
    try discriminate.
  - now intros [= _ ->].
  - apply IH.
Qed.

Lemma gather_argsort {T} (keys : list Z) (l : list T) :
  List.length keys = List.length l ->
  gather l (argsort keys)
  = Some (map snd (sort_by (fun a b : Z * T => fst a <=? fst b)
                           (combine keys l))).
Proof.
  intros HL.
  set (tr := combine (seq 0 (List.length keys)) (combine keys l)).
  set (srt := sort_by (fun a b : nat * (Z * T) =>
                         fst (snd a) <=? fst (snd b)) tr).
  assert (E1 : argsort keys = map fst srt).
  { unfold argsort. rewrite <- (map_combine_seq_keys keys l 0 HL).
    fold tr.
    rewrite (sort_by_map _ (fun a b => fst (snd a) <=? fst (snd b)))
      by reflexivity.
    rewrite map_map. reflexivity. }
  assert (E2 : sort_by (fun a b : Z * T => fst a <=? fst b) (combine keys l)
               = map snd srt).
  { rewrite <- (map_snd_combine_seq (combine keys l) 0 (List.length keys))
      at 1 by (rewrite length_combine; lia).
    fold tr. now apply sort_by_map. }
  rewrite E1, E2, map_map. apply gather_indexed.
  apply Forall_forall. intros [j [k x]] Hin. cbn [fst snd].
  apply sort_by_in in Hin. unfold tr in Hin.
  assert (Hx : nth_error (combine keys l) (j - 0) = Some (k, x)).
  { apply combine_seq_nth.
    rewrite length_combine, <- HL, Nat.min_id. exact Hin. }
  rewrite Nat.sub_0_r in Hx.
  eapply nth_error_combine_snd; eauto.
Qed.

(** ** The serpentine loop refines the specified order *)

Lemma compress_map_fst {T U} (f : T -> bool) (l1 : list T) (l2 : list U) :
  compress (map f l1) (combine l1 l2)
  = filter (fun x => f (fst x)) (combine l1 l2).
Proof.
  revert l2. induction l1 as [| x l1 IH]; intros [| y l2]; try reflexivity.
  simpl. destruct (f x); now rewrite IH.
Qed.

Lemma combine_key_fst (sub : list mrow) (sn : list string) :
  List.length sub = List.length sn ->
  map (fun x : mrow * string => (m_row (fst x), fst x)) (combine sub sn)
  = combine (map m_row sub) sub.
Proof.
  revert sn. induction sub as [| r sub IH]; intros [| y sn] H;
    try discriminate; [reflexivity |].
  simpl. f_equal. apply IH. now injection H.
Qed.

Lemma combine_key_snd (sub : list mrow) (sn : list string) :
  List.length sub = List.length sn ->
  map (fun x : mrow * string => (m_row (fst x), snd x)) (combine sub sn)
  = combine (map m_row sub) sn.
Proof.
  revert sn. induction sub as [| r sub IH]; intros [| y sn] H;
    try discriminate; [reflexivity |].
  simpl. f_equal. apply IH. now injection H.
Qed.

Lemma serpentine_range_run P names i :
  List.length names = List.length P ->
  serpentine_range P names i
  = ([], inr (map fst (serpentine_chunk (combine P names) i),
              map snd (serpentine_chunk (combine P names) i))).
Proof.
  intros HL. unfold serpentine_range, serpentine_range_with, serpentine_chunk.
  set (mask := map (fun r => m_range r =? i) P).
  set (sub := compress mask P). set (sn := compress mask names).
  assert (HLs : List.length sub = List.length sn)
    by (apply compress_length; now symmetry).
  rewrite pick_compress by (unfold mask; now rewrite length_map).
  fold sn. cbn [lift]. rewrite bind_ret_l.
  assert (Esel : filter (fun x : mrow * string => m_range (fst x) =? i)
                        (combine P names) = combine sub sn).
  { unfold sub, sn. rewrite compress_combine. unfold mask.
    now rewrite (compress_map_fst (fun r => m_range r =? i)). }
  rewrite Esel.
  set (S := sort_by row_leb (combine sub sn)).
  assert (G1 : gather sub (argsort (map m_row sub)) = Some (map fst S)).
  { rewrite gather_argsort by apply length_map.
    rewrite <- (combine_key_fst sub sn HLs).
    rewrite (sort_by_map _ row_leb) by reflexivity.
    fold S. now rewrite map_map. }
  assert (G2 : gather sn (argsort (map m_row sub)) = Some (map snd S)).
  { rewrite gather_argsort by (now rewrite length_map).
    rewrite <- (combine_key_snd sub sn HLs).
    rewrite (sort_by_map _ row_leb) by reflexivity.
    fold S. now rewrite map_map. }
  destruct (i mod 2 =? 0).
  - rewrite (gather_rev _ _ _ G1), (gather_rev _ _ _ G2).
    cbn [lift]. rewrite !bind_ret_l. now rewrite !map_rev.
  - rewrite G1, G2. cbn [lift]. now rewrite !bind_ret_l.
Qed.

Lemma serpentine_loop_run P names idxs op on :
  List.length names = List.length P ->
  serpentine_loop P names idxs op on
  = ([], inr (op ++ map (fun i => map fst (serpentine_chunk (combine P names) i))
                        idxs,
              on ++ flat_map (fun i => map snd
                                         (serpentine_chunk (combine P names) i))
                             idxs)).
Proof.
  intros HL. revert op on. unfold serpentine_loop.
  induction idxs as [| i idxs IH]; intros op on;
    cbn [serpentine_loop_with map flat_map].
  - now rewrite !app_nil_r.
  - change (serpentine_range_with argsort P names i)
      with (serpentine_range P names i).
    rewrite serpentine_range_run by exact HL. rewrite bind_nil_l.
    rewrite IH. now rewrite <- !app_assoc.
Qed.

Lemma concat_map_fst {T U V} (f : V -> list (T * U)) l :
  List.concat (map (fun i => map fst (f i)) l) = map fst (flat_map f l).
Proof.
  induction l as [| x l IH]; simpl; [reflexivity |].
  now rewrite map_app, IH.
Qed.

Lemma flat_map_map_snd {T U V} (f : V -> list (T * U)) l :
  flat_map (fun i => map snd (f i)) l = map snd (flat_map f l).
Proof.
  induction l as [| x l IH]; simpl; [reflexivity |].
  now rewrite map_app, IH.
Qed.

(** The loop of the source computes the specified order, on both parallel
    lists at once; with no range at all [np.vstack] raises. *)
Lemma serpentine_run n P names :
  List.length names = List.length P -> n <> 0%nat ->
  serpentine n P names
  = ([], inr (map fst (serpentine_order n (combine P names)),
              map snd (serpentine_order n (combine P names)))).
Proof.
  intros HL Hn. unfold serpentine, serpentine_with.
  fold (serpentine_loop P names).
  rewrite serpentine_loop_run by exact HL. rewrite bind_nil_l.
  cbn [app]. unfold vstack.
  destruct n as [| n]; [congruence |].
  unfold range1 at 1. cbn [seq map]. rewrite bind_ret_l.
  unfold serpentine_order.
  change (Z.of_nat 1 :: map Z.of_nat (seq 2 n)) with (range1 (S n)).
  change ((fun i => map fst (serpentine_chunk (combine P names) i))
            (Z.of_nat 1)
          :: map (fun i => map fst (serpentine_chunk (combine P names) i))
                 (map Z.of_nat (seq 2 n)))
    with (map (fun i => map fst (serpentine_chunk (combine P names) i))
              (range1 (S n))).
  now rewrite concat_map_fst, flat_map_map_snd.
Qed.

Lemma serpentine_empty P names :
  serpentine 0 P names = ([], inl NumpyValueError).
Proof. reflexivity. Qed.

(** ** Grouping by key is a permutation *)

Lemma filter_orb_disjoint {T} (p q : T -> bool) l :
  (forall x, p x = true -> q x = true -> False) ->
  Permutation (filter (fun x => p x || q x) l) (filter p l ++ filter q l).
Proof.
  intros D. induction l as [| x l IH]; simpl; [reflexivity |].
  destruct (p x) eqn:Ep, (q x) eqn:Eq; simpl.
  - exfalso. eauto.
  - now constructor.
  - rewrite IH. apply Permutation_middle.
  - exact IH.
Qed.

Section Grouping.
Context {T K : Type} (eqb : K -> K -> bool) (key : T -> K).
Hypothesis eqb_eq : forall a b, eqb a b = true <-> a = b.

Lemma group_by_perm (l : list T) (idxs : list K) :
  NoDup idxs ->
  Permutation (flat_map (fun i => filter (fun x => eqb i (key x)) l) idxs)
              (filter (fun x => existsb (fun i => eqb i (key x)) idxs) l).
Proof.
  induction 1 as [| i idxs Hi _ IH]; simpl.
  - induction l as [| x l IHl]; [reflexivity | exact IHl].
  - rewrite IH. symmetry. apply filter_orb_disjoint.
    intros x H1 H2. apply eqb_eq in H1. apply existsb_exists in H2.
    destruct H2 as (j & Hj & E). apply eqb_eq in E. congruence.
Qed.

Lemma group_by_all (l : list T) (idxs : list K) :
  NoDup idxs -> (forall x, In x l -> In (key x) idxs) ->
  Permutation (flat_map (fun i => filter (fun x => eqb i (key x)) l) idxs) l.
Proof.
  intros ND Hall. rewrite group_by_perm by exact ND.
  replace (filter _ l) with l; [reflexivity |].
  symmetry. apply forallb_filter_id. apply forallb_forall. intros x Hx.
  apply existsb_exists. exists (key x). split; [now apply Hall |].
  now apply eqb_eq.
Qed.
End Grouping.

Lemma NoDup_range1 n : NoDup (range1 n).
Proof.
  unfold range1. apply Finite.Injective_map_NoDup; [| apply seq_NoDup].
  intros a b. apply Nat2Z.inj.
Qed.

Lemma in_range1 n k : In k (range1 n) <-> 1 <= k <= Z.of_nat n.
Proof.
  unfold range1. rewrite in_map_iff. split.
  - intros (j & <- & Hj). apply in_seq in Hj. lia.
  - intros H. exists (Z.to_nat k). split; [lia |]. apply in_seq. lia.
Qed.

Lemma in_ranges_existsb n x :
  existsb (fun i => i =? m_range (fst x)) (range1 n) = in_ranges n x.
Proof.
  apply eq_true_iff_eq. rewrite existsb_exists. unfold in_ranges.
  rewrite andb_true_iff, !Z.leb_le. split.
  - intros (i & Hi & E). apply Z.eqb_eq in E. subst i.
    now apply in_range1.
  - intros H. exists (m_range (fst x)). split; [now apply in_range1 |].
    apply Z.eqb_refl.
Qed.

Lemma serpentine_chunk_perm recs i :
  Permutation (serpentine_chunk recs i)
              (filter (fun x => i =? m_range (fst x)) recs).
Proof.
  unfold serpentine_chunk.
  rewrite (filter_ext (fun x => i =? m_range (fst x))
                      (fun x => m_range (fst x) =? i))
    by (intros; apply Z.eqb_sym).
  destruct (i mod 2 =? 0).
  - rewrite <- Permutation_rev. apply sort_by_perm.
  - apply sort_by_perm.
Qed.

Lemma flat_map_perm {T U} (f g : T -> list U) l :
  (forall x, Permutation (f x) (g x)) ->
  Permutation (flat_map f l) (flat_map g l).
Proof.
  intros H. induction l as [| x l IH]; simpl; [reflexivity |].
  now rewrite H, IH.
Qed.

(** The serpentine order holds exactly the records whose range index is in
    1..nRange, each once. *)
Lemma serpentine_order_perm n recs :
  Permutation (serpentine_order n recs) (filter (in_ranges n) recs).
Proof.
  unfold serpentine_order.
  rewrite (flat_map_perm _ _ _ (serpentine_chunk_perm recs)).
  rewrite (group_by_perm Z.eqb (fun x => m_range (fst x)) Z.eqb_eq)
    by apply NoDup_range1.
  rewrite (filter_ext _ _ (in_ranges_existsb n)). reflexivity.
Qed.

(** ** Distinct values and the new row names *)

Lemma in_unique_s x l : In x (unique_s l) <-> In x l.
Proof.
  induction l as [| y l IH]; simpl; [tauto |].
  rewrite filter_In, IH, negb_true_iff, String.eqb_neq.
  destruct (String.eqb_spec x y) as [-> | Hne]; [tauto |].
  split; [tauto |]. intros [E | H]; [congruence | tauto].
Qed.

Lemma NoDup_unique_s l : NoDup (unique_s l).
Proof.
  induction l as [| y l IH]; simpl; constructor.
  - rewrite filter_In, negb_true_iff, String.eqb_neq. tauto.
  - now apply NoDup_filter.
Qed.

Lemma in_unique_z x l : In x (unique_z l) <-> In x l.
Proof.
  induction l as [| y l IH]; simpl; [tauto |].
  rewrite filter_In, IH, negb_true_iff, Z.eqb_neq.
  destruct (Z.eq_dec x y) as [-> | Hne]; [tauto |].
  split; [tauto |]. intros [E | H]; [congruence | tauto].
Qed.

Lemma NoDup_unique_z l : NoDup (unique_z l).
Proof.
  induction l as [| y l IH]; simpl; constructor.
  - rewrite filter_In, negb_true_iff, Z.eqb_neq. tauto.
  - now apply NoDup_filter.
Qed.

Lemma length_flat_map_ext {T U V} (f : T -> list U) (g : T -> list V) l :
  (forall x, List.length (f x) = List.length (g x)) ->
  List.length (flat_map f l) = List.length (flat_map g l).
Proof.
  intros H. induction l as [| x l IH]; simpl; [reflexivity |].
  now rewrite !length_app, H, IH.
Qed.

(** One new name per input row. *)
Lemma new_row_names_length bc :
  List.length (new_row_names bc) = List.length bc.
Proof.
  unfold new_row_names.
  rewrite (length_flat_map_ext _ (fun b => filter (String.eqb b) bc))
    by (intros b; unfold count_s; now rewrite length_map, length_seq).
  apply Permutation_length.
  apply (group_by_all String.eqb (fun x : string => x) String.eqb_eq).
  - apply NoDup_unique_s.
  - intros x Hx. now apply in_unique_s.
Qed.

(** ** Row grouping keeps matrix and labels in step *)

Lemma lift_ok_inv {T} e (o : option T) l a :
  lift e o = (l, inr a) -> o = Some a /\ l = [].
Proof. destruct o; simpl; [now intros [= <- <-] | discriminate]. Qed.

Lemma combine_rows_ok_inv n k P names l P' names' :
  List.length names = List.length P ->
  combine_rows n k P names = (l, inr (P', names')) ->
  exists mask,
    List.length mask = List.length P /\
    P' = map (renumber n) (compress mask P) /\
    names' = compress mask names /\
    List.length names' = List.length P'.
Proof.
  intros HL H. unfold combine_rows in H.
  apply bind_ok_inv in H as (l1 & mx & l2 & H1 & H & ->).
  apply lift_ok_inv in H1 as [Hmx ->].
  set (mask := combined_mask n k mx P) in *.
  assert (Hm : List.length mask = List.length P)
    by (unfold mask, combined_mask; apply length_map).
  rewrite pick_compress in H by congruence.
  cbn [lift] in H. rewrite !bind_ret_l in H. injection H as <- <- <-.
  exists mask. repeat split; try assumption.
  rewrite length_map. now apply compress_length.
Qed.

Lemma relabel_rows_ok_inv n k bc P l P' names' :
  List.length bc = List.length P ->
  relabel_rows n k bc P = (l, inr (P', names')) ->
  let relabelled := firstn (List.length P) (new_row_names bc) in
  List.length relabelled = List.length P /\
  List.length names' = List.length P' /\
  ((k = 0 /\ P' = P /\ names' = relabelled) \/
   (k <> 0 /\ exists mask,
       List.length mask = List.length P /\
       P' = compress mask P /\ names' = compress mask relabelled)).
Proof.
  intros HL H relabelled.
  assert (HR : List.length relabelled = List.length P).
  { unfold relabelled. rewrite length_firstn, new_row_names_length. lia. }
  split; [exact HR |].
  unfold relabel_rows in H. fold relabelled in H.
  destruct (Z.eqb_spec k 0) as [-> | Hk]; cbn [negb] in H.
  - injection H as <- <- <-. split; [exact HR |]. left. auto.
  - apply bind_ok_inv in H as (l1 & [] & l2 & _ & H & ->).
    set (mask := subset_mask k P) in *.
    assert (Hm : List.length mask = List.length P)
      by (unfold mask, subset_mask; apply length_map).
    rewrite pick_compress in H by congruence.
    cbn [lift] in H. rewrite !bind_ret_l in H. injection H as <- <- <-.
    split; [now apply compress_length |].
    right. split; [exact Hk |]. exists mask. auto.
Qed.

Lemma row_grouping_ok_inv n mr k bc P names l P' names' :
  List.length names = List.length P -> List.length bc = List.length P ->
  row_grouping n mr k bc P names = (l, inr (P', names')) ->
  List.length names' = List.length P'.
Proof.
  intros HL HB H. unfold row_grouping in H.
  apply bind_ok_inv in H as (l1 & [P1 n1] & l2 & H1 & H & ->).
  destruct (combined_mode n mr k) eqn:Ec.
  - assert (Er : relabel_mode n mr k = false).
    { unfold combined_mode in Ec. unfold relabel_mode.
      apply andb_true_iff in Ec as [Ec Ek].
      apply andb_true_iff in Ec as [_ Em].
      apply negb_true_iff in Em. rewrite Em, Ek, andb_false_r. reflexivity. }
    rewrite Er in H. injection H as _ <- <-.
    apply combine_rows_ok_inv in H1 as (mask & _ & _ & _ & E); assumption.
  - injection H1 as _ <- <-.
    destruct (relabel_mode n mr k).
    + apply relabel_rows_ok_inv in H as (_ & E & _); assumption.
    + now injection H as _ <- <-.
Qed.

(** ** The serpentine order *)

Lemma StronglySorted_snoc {T} (Rel : T -> T -> Prop) l x :
  StronglySorted Rel l -> Forall (fun y => Rel y x) l ->
  StronglySorted Rel (l ++ [x]).
Proof.
  induction 1 as [| a l Hs IH Ha]; intros Hx; simpl.
  - repeat constructor.
  - apply Forall_cons_iff in Hx as [Hax Hx].
    constructor; [now apply IH |].
    apply Forall_app. split; [exact Ha | now constructor].
Qed.

Lemma StronglySorted_rev {T} (Rel : T -> T -> Prop) l :
  StronglySorted Rel l -> StronglySorted (fun a b => Rel b a) (rev l).
Proof.
  induction 1 as [| a l Hs IH Ha]; simpl; [constructor |].
  apply StronglySorted_snoc; [exact IH |].
  now apply Forall_rev.
Qed.

Lemma StronglySorted_impl {T} (R1 R2 : T -> T -> Prop) l :
  (forall a b, R1 a b -> R2 a b) ->
  StronglySorted R1 l -> StronglySorted R2 l.
Proof.
  intros H. induction 1 as [| a l Hs IH Ha]; constructor; [exact IH |].
  eapply Forall_impl; [| exact Ha]. auto.
Qed.

Lemma sort_by_rows_ascending l : rows_ascending (sort_by row_leb l).
Proof.
  unfold rows_ascending.
  apply StronglySorted_impl with (R1 := fun a b => row_leb a b = true).
  - intros a b H. now apply Z.leb_le.
  - apply sort_by_sorted.
    + intros a b. unfold row_leb. rewrite !Z.leb_le. lia.
    + intros a b c. unfold row_leb. rewrite !Z.leb_le. lia.
Qed.

Lemma serpentine_chunk_sorted recs i :
  if i mod 2 =? 0 then rows_descending (serpentine_chunk recs i)
  else rows_ascending (serpentine_chunk recs i).
Proof.
  unfold serpentine_chunk. destruct (i mod 2 =? 0).
  - apply (StronglySorted_rev _ _ (sort_by_rows_ascending _)).
  - apply sort_by_rows_ascending.
Qed.

Lemma serpentine_chunk_range recs i x :
  In x (serpentine_chunk recs i) <-> In x recs /\ m_range (fst x) = i.
Proof.
  rewrite <- Z.eqb_eq, (Z.eqb_sym _ i).
  rewrite <- (filter_In (fun x => i =? m_range (fst x))).
  split; apply Permutation_in; [| symmetry]; apply serpentine_chunk_perm.
Qed.

Section Order.
Variables (A B : R * R) (infile : DataFrame) (outfile : string)
          (UTMzone : option string) (Hemisphere : string)
          (nrowplot : Z) (multirowind : bool)
          (rowspc rowbuf rangespc rangebuf : R)
          (stagger : option (Z * Z * R)) (plotsubset : Z)
          (field : option string) (unit_ : string)
          (SquarePlot RotatePlot : bool).

Let rows := sort_values (df_rows infile).
Let nRange := n_unique (map Range rows).
Let RS := to_m unit_ rangespc.
Let WS := row_spacing_m unit_ nrowplot multirowind plotsubset rowspc.
Let RB := to_m unit_ rangebuf.
Let WB := to_m unit_ rowbuf.
Let sM := stagger_m unit_ stagger.

(** A run that returns wrote, in both shapefiles, the records of the
    serpentine order: the id of each record and the ring of that record. *)
Lemma plotshpcreate_ok_order log :
  plotshpcreate A B infile outfile UTMzone Hemisphere nrowplot multirowind
                rowspc rowbuf rangespc rangebuf stagger plotsubset
                field unit_ SquarePlot RotatePlot = (log, inr tt) ->
  exists ab P1 n1,
    ab_line A B = ([], inr ab) /\
    row_grouping nrowplot multirowind plotsubset (map Barcode rows)
                 (create_matrix rows) (map Barcode rows)
    = ([], inr (P1, n1)) /\
    List.length n1 = List.length P1 /\
    nRange <> 0%nat /\
    shapefiles log =
    [ (file_name field outfile ".shp",
       map snd (serpentine_order nRange (combine P1 n1)),
       map (fun x => plot_ring A ab stagger sM RS WS (fst x))
           (serpentine_order nRange (combine P1 n1)),
       crs_of UTMzone Hemisphere);
      (file_name field outfile "_buff.shp",
       map snd (serpentine_order nRange (combine P1 n1)),
       map (fun x => plot_ring_buf A ab stagger sM RS WS RB WB (fst x))
           (serpentine_order nRange (combine P1 n1)),
       crs_of UTMzone Hemisphere) ].
Proof.
  intros H.
  apply plotshpcreate_ok_inv in H
    as (ab & P1 & n1 & P2 & names & Hab & Hg & Hp & HL & HS).
  fold rows in Hg, Hp. fold nRange in Hp.
  cbv zeta in HS. fold RS WS RB WB sM in HS.
  assert (HL1 : List.length n1 = List.length P1).
  { eapply row_grouping_ok_inv; [| | exact Hg].
    - now rewrite create_matrix_length, length_map.
    - now rewrite create_matrix_length, length_map. }
  assert (Hn : nRange <> 0%nat).
  { intros E. rewrite E, serpentine_empty in Hp. discriminate. }
  rewrite serpentine_run in Hp by assumption.
  injection Hp as <- <-.
  exists ab, P1, n1. repeat split; try assumption.
  rewrite HS. unfold adjust, plot_ring, plot_ring_buf.
  now rewrite !map_map.
Qed.
End Order.

(** ** The serpentine loop over any index sort *)

Lemma gather_nth {T} (l : list T) idx d :
  Forall (fun j => (j < List.length l)%nat) idx ->
  gather l idx = Some (map (fun j => nth j l d) idx).
Proof.
  induction 1 as [| j idx Hj _ IH]; simpl; [reflexivity |].
  now rewrite (nth_error_nth' l d Hj), IH.
Qed.

Lemma map_nth_seq {T} (l : list T) d :
  map (fun j => nth j l d) (seq 0 (List.length l)) = l.
Proof.
  induction l as [| x l IH]; simpl; [reflexivity |].
  f_equal. rewrite <- seq_shift, map_map. exact IH.
Qed.

Lemma StronglySorted_map {T U} (f : T -> U) (Rel : U -> U -> Prop) l :
  StronglySorted Rel (map f l)
  <-> StronglySorted (fun a b => Rel (f a) (f b)) l.
Proof.
  induction l as [| a l IH]; simpl.
  - split; constructor.
  - split; intros H; inversion H as [| ? ? Hs Ha]; subst; constructor;
      try (now apply IH); rewrite Forall_forall in *.
    + intros x Hx. apply Ha. now apply in_map.
    + intros y Hy. apply in_map_iff in Hy as (x & <- & Hx). now apply Ha.
Qed.

Lemma map_fst_combine_eq {T U} (l1 : list T) (l2 : list U) :
  List.length l2 = List.length l1 -> map fst (combine l1 l2) = l1.
Proof.
  revert l2. induction l1 as [| a l1 IH]; intros [| b l2] H;
    try discriminate; [reflexivity |].
  simpl. f_equal. apply IH. now injection H.
Qed.

(** The index sort that keeps equal keys in place meets the contract. *)
Lemma argsort_contract : argsort_ok argsort.
Proof.
  intros keys. unfold argsort.
  set (leb := fun a b : nat * Z => snd a <=? snd b).
  set (tr := combine (seq 0 (List.length keys)) keys).
  assert (Hin : forall t, In t (sort_by leb tr) ->
                          nth (fst t) keys 0 = snd t).
  { intros [j k] Ht. apply sort_by_in in Ht. cbn [fst snd].
    apply combine_seq_nth in Ht. rewrite Nat.sub_0_r in Ht.
    now apply nth_error_nth. }
  split.
  - rewrite (Permutation_map fst (sort_by_perm leb tr)).
    unfold tr. rewrite map_fst_combine_eq by now rewrite length_seq.
    reflexivity.
  - rewrite map_map.
    rewrite (map_ext_in _ snd) by exact Hin.
    apply StronglySorted_map.
    apply StronglySorted_impl with (R1 := fun a b => leb a b = true).
    + intros a b H. now apply Z.leb_le.
    + apply sort_by_sorted.
      * intros a b. unfold leb. rewrite !Z.leb_le. lia.
      * intros a b c. unfold leb. rewrite !Z.leb_le. lia.
Qed.

(** Indexing two parallel lists by the result of an index sort: one
    ascending arrangement of the pairs, read on either side. *)
Lemma sorter_gather sorter (sub : list mrow) (sn : list string) :
  argsort_ok sorter -> List.length sub = List.length sn ->
  exists asc,
    gather sub (sorter (map m_row sub)) = Some (map fst asc) /\
    gather sn (sorter (map m_row sub)) = Some (map snd asc) /\
    Permutation asc (combine sub sn) /\
    rows_ascending asc.
Proof.
  intros Hok HL.
  destruct (Hok (map m_row sub)) as [Hp Hs]. rewrite length_map in Hp.
  set (idx := sorter (map m_row sub)) in *.
  set (d0 := mk_mrow 0 0 0 zero2 zero2 zero2 zero2 0).
  assert (Hb : Forall (fun j => (j < List.length sub)%nat) idx).
  { apply Forall_forall. intros j Hj.
    apply (Permutation_in _ Hp), in_seq in Hj. lia. }
  exists (map (fun j => nth j (combine sub sn) (d0, ""%string)) idx).
  split; [| split; [| split]].
  - rewrite (gather_nth sub idx d0 Hb), map_map. f_equal.
    apply map_ext. intros j. now rewrite combine_nth.
  - rewrite HL in Hb.
    rewrite (gather_nth sn idx ""%string Hb), map_map. f_equal.
    apply map_ext. intros j. now rewrite combine_nth.
  - rewrite (Permutation_map _ Hp).
    replace (List.length sub) with (List.length (combine sub sn))
      by (rewrite length_combine; lia).
    now rewrite map_nth_seq.
  - unfold rows_ascending.
    apply (StronglySorted_map (fun a : mrow * string => m_row (fst a)) Z.le).
    rewrite map_map.
    rewrite (map_ext _ (fun j => nth j (map m_row sub) 0)); [exact Hs |].
    intros j. rewrite combine_nth by exact HL. cbn [fst].
    change 0 with (m_row d0). now rewrite map_nth.
Qed.

Lemma serpentine_range_with_run sorter P names i :
  argsort_ok sorter -> List.length names = List.length P ->
  exists c,
    serpentine_range_with sorter P names i
    = ([], inr (map fst c, map snd c)) /\
    serpentine_chunk_ok (combine P names) i c.
Proof.
  intros Hok HL. unfold serpentine_range_with.
  set (mask := map (fun r => m_range r =? i) P).
  set (sub := compress mask P). set (sn := compress mask names).
  assert (HLs : List.length sub = List.length sn)
    by (apply compress_length; now symmetry).
  rewrite pick_compress by (unfold mask; now rewrite length_map).
  fold sn. cbn [lift]. rewrite bind_ret_l.
  assert (Esel : filter (fun x : mrow * string => m_range (fst x) =? i)
                        (combine P names) = combine sub sn).
  { unfold sub, sn. rewrite compress_combine. unfold mask.
    now rewrite (compress_map_fst (fun r => m_range r =? i)). }
  destruct (sorter_gather sorter sub sn Hok HLs)
    as (asc & G1 & G2 & Hp & Hs).
  exists (if i mod 2 =? 0 then rev asc else asc). split.
  - destruct (i mod 2 =? 0).
    + rewrite (gather_rev _ _ _ G1), (gather_rev _ _ _ G2).
      cbn [lift]. rewrite !bind_ret_l. now rewrite !map_rev.
    + rewrite G1, G2. cbn [lift]. now rewrite !bind_ret_l.
  - exists asc. rewrite Esel. now repeat split.
Qed.

Lemma serpentine_loop_with_run sorter P names idxs :
  argsort_ok sorter -> List.length names = List.length P ->
  exists chunks,
    Forall2 (serpentine_chunk_ok (combine P names)) idxs chunks /\
    forall op on,
      serpentine_loop_with sorter P names idxs op on
      = ([], inr (op ++ map (map fst) chunks,
                  on ++ flat_map (map snd) chunks)).
Proof.
  intros Hok HL. induction idxs as [| i idxs (chunks & HF & Hrun)].
  - exists []. split; [constructor |]. intros op on. cbn.
    now rewrite !app_nil_r.
  - destruct (serpentine_range_with_run sorter P names i Hok HL)
      as (c & E & Hc).
    exists (c :: chunks). split; [now constructor |].
    intros op on. cbn [serpentine_loop_with map flat_map].
    rewrite E, bind_nil_l. cbn beta iota. rewrite Hrun.
    now rewrite <- !app_assoc.
Qed.

(** The loop returns, with an output that meets [serpentine_ok]. *)
Lemma serpentine_with_run sorter n P names :
  argsort_ok sorter -> List.length names = List.length P -> n <> 0%nat ->
  exists out,
    serpentine_with sorter n P names
    = ([], inr (map fst out, map snd out)) /\
    serpentine_ok n (combine P names) out.
Proof.
  intros Hok HL Hn. unfold serpentine_with.
  destruct (serpentine_loop_with_run sorter P names (range1 n) Hok HL)
    as (chunks & HF & Hrun).
  rewrite Hrun, bind_nil_l. cbn [app].
  exists (List.concat chunks). split; [| now exists chunks].
  destruct chunks as [| c chunks].
  - inversion HF as [E |]. destruct n; [congruence | discriminate].
  - cbn [map vstack]. rewrite bind_ret_l. unfold ret.
    now rewrite !concat_map, flat_map_concat_map.
Qed.

Lemma serpentine_order_ok n recs : serpentine_ok n recs (serpentine_order n recs).
Proof.
  exists (map (serpentine_chunk recs) (range1 n)).
  split; [| apply flat_map_concat_map].
  induction (range1 n) as [| i l IH]; constructor; [| exact IH].
  exists (sort_by row_leb (filter (fun x => m_range (fst x) =? i) recs)).
  split; [apply sort_by_perm |].
  split; [apply sort_by_rows_ascending | reflexivity].
Qed.

Lemma serpentine_chunk_ok_facts recs i c :
  serpentine_chunk_ok recs i c ->
  (forall x, In x c <-> In x recs /\ m_range (fst x) = i) /\
  (i mod 2 <> 0 -> rows_ascending c) /\
  (i mod 2 = 0 -> rows_descending c).
Proof.
  intros (asc & Hp & Hs & ->). split; [| split].
  - intros x. rewrite <- Z.eqb_eq.
    rewrite <- (filter_In (fun x => m_range (fst x) =? i)).
    assert (Hc : Permutation (if i mod 2 =? 0 then rev asc else asc) asc)
      by (destruct (i mod 2 =? 0);
          [symmetry; apply Permutation_rev | reflexivity]).
    split; intros H.
    + apply (Permutation_in _ Hp). now apply (Permutation_in _ Hc).
    + apply (Permutation_in _ (Permutation_sym Hc)).
      now apply (Permutation_in _ (Permutation_sym Hp)).
  - intros Hi. apply Z.eqb_neq in Hi. now rewrite Hi.
  - intros Hi. apply Z.eqb_eq in Hi. rewrite Hi.
    apply (StronglySorted_rev _ _ Hs).
Qed.

Lemma serpentine_ok_perm n recs out :
  serpentine_ok n recs out ->
  Permutation out (filter (in_ranges n) recs).
Proof.
  intros (chunks & HF & ->).
  transitivity
    (flat_map (fun i => filter (fun x => i =? m_range (fst x)) recs)
              (range1 n)).
  - induction HF as [| i c idxs cs (asc & Hp & _ & ->) _ IH]; simpl;
      [reflexivity |].
    apply Permutation_app; [| exact IH].
    rewrite (filter_ext (fun x => i =? m_range (fst x))
                        (fun x => m_range (fst x) =? i))
      by (intros; apply Z.eqb_sym).
    destruct (i mod 2 =? 0); [rewrite <- Permutation_rev |]; exact Hp.
  - rewrite (group_by_perm Z.eqb (fun x => m_range (fst x)) Z.eqb_eq)
      by apply NoDup_range1.
    rewrite (filter_ext _ _ (in_ranges_existsb n)). reflexivity.
Qed.

(** Distinct keys leave one ascending arrangement only. *)
Lemma sorted_perm_unique {T} (key : T -> Z) l1 l2 :
  Permutation l1 l2 ->
  StronglySorted (fun a b => key a <= key b) l1 ->
  StronglySorted (fun a b => key a <= key b) l2 ->
  NoDup (map key l1) -> l1 = l2.
Proof.
  revert l2. induction l1 as [| a t1 IH]; intros l2 Hp H1 H2 Hn.
  - apply Permutation_nil in Hp. now subst.
  - destruct l2 as [| b t2];
      [apply Permutation_sym, Permutation_nil in Hp; discriminate |].
    inversion H1 as [| ? ? Hs1 Ha]; subst.
    inversion H2 as [| ? ? Hs2 Hb]; subst.
    inversion Hn as [| ? ? Hna Hnt]; subst.
    assert (E : a = b).
    { assert (Hin_a : In a (b :: t2))
        by (apply (Permutation_in _ Hp); now left).
      assert (Hin_b : In b (a :: t1))
        by (apply (Permutation_in _ (Permutation_sym Hp)); now left).
      destruct Hin_b as [-> | Hbt]; [reflexivity |].
      destruct Hin_a as [<- | Hat]; [reflexivity |].
      rewrite Forall_forall in Ha, Hb.
      specialize (Ha b Hbt). specialize (Hb a Hat).
      exfalso. apply Hna. replace (key a) with (key b) by lia.
      now apply in_map. }
    subst b. f_equal.
    apply IH; try assumption. now apply Permutation_cons_inv in Hp.
Qed.

Lemma NoDup_map_filter {T U} (f : T -> U) p l :
  NoDup (map f l) -> NoDup (map f (filter p l)).
Proof.
  induction l as [| a l IH]; simpl; intros H; [constructor |].
  inversion H as [| ? ? Hna Hnl]; subst.
  destruct (p a); simpl; [constructor |]; auto.
  intros Hin. apply Hna. apply in_map_iff in Hin as (x & E & Hx).
  apply filter_In in Hx as [Hx _]. rewrite <- E. now apply in_map.
Qed.

Lemma NoDup_map_coarser {T U V} (f : T -> U) (g : T -> V) l :
  (forall x y, In x l -> In y l -> g x = g y -> f x = f y) ->
  NoDup (map f l) -> NoDup (map g l).
Proof.
  induction l as [| a l IH]; simpl; intros Hc H; [constructor |].
  inversion H as [| ? ? Hna Hnl]; subst. constructor.
  - intros Hin. apply in_map_iff in Hin as (x & E & Hx). apply Hna.
    rewrite <- (Hc x a); [now apply in_map | now right | now left | exact E].
  - apply IH; auto.
Qed.

Lemma serpentine_chunk_unique recs i c :
  NoDup (map (fun x : mrow * string => (m_range (fst x), m_row (fst x))) recs) ->
  serpentine_chunk_ok recs i c -> c = serpentine_chunk recs i.
Proof.
  intros Hn (asc & Hp & Hs & ->). unfold serpentine_chunk.
  set (sel := filter (fun x : mrow * string => m_range (fst x) =? i) recs) in *.
  assert (E : asc = sort_by row_leb sel).
  { apply sorted_perm_unique with (key := fun x : mrow * string => m_row (fst x)).
    - rewrite Hp. symmetry. apply sort_by_perm.
    - exact Hs.
    - apply sort_by_rows_ascending.
    - apply (Permutation_NoDup
               (l := map (fun x : mrow * string => m_row (fst x)) sel)).
      { apply Permutation_map. now symmetry. }
      apply NoDup_map_coarser
        with (f := fun x : mrow * string => (m_range (fst x), m_row (fst x))).
      + intros x y Hx Hy E.
        apply filter_In in Hx as [_ Hx]. apply filter_In in Hy as [_ Hy].
        apply Z.eqb_eq in Hx, Hy. congruence.
      + now apply NoDup_map_filter. }
  now rewrite E.
Qed.

(** With distinct grid positions the specified order is the one output
    that meets [serpentine_ok]. *)
Lemma serpentine_ok_unique n recs out :
  NoDup (map (fun x : mrow * string => (m_range (fst x), m_row (fst x))) recs) ->
  serpentine_ok n recs out -> out = serpentine_order n recs.
Proof.
  intros Hn (chunks & HF & ->). unfold serpentine_order.
  rewrite flat_map_concat_map. f_equal.
  induction HF as [| i c idxs cs Hc _ IH]; simpl; [reflexivity |].
  f_equal; [now apply serpentine_chunk_unique | exact IH].
Qed.

Lemma distinct_positions_combine P (names : list string) :
  List.length names = List.length P -> distinct_positions P ->
  NoDup (map (fun x : mrow * string => (m_range (fst x), m_row (fst x)))
             (combine P names)).
Proof.
  intros HL H. unfold distinct_positions in H.
  rewrite <- (map_fst_combine_eq P names HL) in H.
  now rewrite map_map in H.
Qed.

(** C5: whatever order np.argsort gives to equal rows, the serpentine
    loop returns and emits, for each range index 1..nRange in ascending
    order, the records of that range sorted ascending by local row, that
    sequence reversed when the index is even, on the matrix and the labels
    alike; the output holds each record with range index in 1..nRange once;
    when no two records share a grid position the output is the specified
    order itself; for nRange = 3 and nRow = 2 the order is range 1 rows
    [1,2], range 2 rows [2,1], range 3 rows [1,2]; and in a run the ring
    written for a record is a function of that record alone ([plot_ring],
    [plot_ring_buf]), so the order moves records and labels and no
    corner. *)
Theorem serpentine_emission_order (sorter : list Z -> list nat) :
  argsort_ok sorter ->
  (forall n P names,
      List.length names = List.length P -> n <> 0%nat ->
      exists out,
        serpentine_with sorter n P names
        = ([], inr (map fst out, map snd out)) /\
        serpentine_ok n (combine P names) out /\
        Permutation out (filter (in_ranges n) (combine P names))) /\
  (forall recs i c,
      serpentine_chunk_ok recs i c ->
      (forall x, In x c <-> In x recs /\ m_range (fst x) = i) /\
      (i mod 2 <> 0 -> rows_ascending c) /\
      (i mod 2 = 0 -> rows_descending c)) /\
  (forall n P names,
      List.length names = List.length P -> n <> 0%nat ->
      distinct_positions P ->
      serpentine_with sorter n P names
      = ([], inr (map fst (serpentine_order n (combine P names)),
                  map snd (serpentine_order n (combine P names))))) /\
  (exists P' names',
      serpentine_with sorter 3 (create_matrix three_by_two)
                      (map Barcode three_by_two)
      = ([], inr (P', names')) /\
      map (fun r => (m_range r, m_row r)) P'
      = [ (1, 1); (1, 2); (2, 2); (2, 1); (3, 1); (3, 2) ] /\
      names' = [ "a"; "b"; "d"; "c"; "e"; "f" ]%string) /\
  (forall A B infile outfile UTMzone Hemisphere nrowplot multirowind
          rowspc rowbuf rangespc rangebuf stagger plotsubset field unit_
          SquarePlot RotatePlot log,
      plotshpcreate A B infile outfile UTMzone Hemisphere nrowplot
                    multirowind rowspc rowbuf rangespc rangebuf stagger
                    plotsubset field unit_ SquarePlot RotatePlot
      = (log, inr tt) ->
      let rows := sort_values (df_rows infile) in
      let RS := to_m unit_ rangespc in
      let WS := row_spacing_m unit_ nrowplot multirowind plotsubset rowspc in
      let sM := stagger_m unit_ stagger in
      exists ab P1 n1 order,
        ab_line A B = ([], inr ab) /\
        row_grouping nrowplot multirowind plotsubset (map Barcode rows)
                     (create_matrix rows) (map Barcode rows)
        = ([], inr (P1, n1)) /\
        serpentine_ok (n_unique (map Range rows)) (combine P1 n1) order /\
        shapefiles log =
        [ (file_name field outfile ".shp", map snd order,
           map (fun x => plot_ring A ab stagger sM RS WS (fst x)) order,
           crs_of UTMzone Hemisphere);
          (file_name field outfile "_buff.shp", map snd order,
           map (fun x => plot_ring_buf A ab stagger sM RS WS
                                       (to_m unit_ rangebuf)
                                       (to_m unit_ rowbuf) (fst x)) order,
           crs_of UTMzone Hemisphere) ]).
Proof.
  intros Hok.
  assert (Hdet : forall n P names,
             List.length names = List.length P -> n <> 0%nat ->
             distinct_positions P ->
             serpentine_with sorter n P names
             = ([], inr (map fst (serpentine_order n (combine P names)),
                         map snd (serpentine_order n (combine P names))))).
  { intros n P names HL Hn Hd.
    destruct (serpentine_with_run sorter n P names Hok HL Hn)
      as (out & E & Ho).
    rewrite E.
    now rewrite (serpentine_ok_unique n _ out
                   (distinct_positions_combine P names HL Hd) Ho). }
  split.
  { intros n P names HL Hn.
    destruct (serpentine_with_run sorter n P names Hok HL Hn)
      as (out & E & Ho).
    exists out. split; [exact E |]. split; [exact Ho |].
    now apply serpentine_ok_perm. }
  split; [exact serpentine_chunk_ok_facts |].
  split; [exact Hdet |].
  split.
  { rewrite Hdet.
    - do 2 eexists. split; [reflexivity |]. split; vm_compute; reflexivity.
    - reflexivity.
    - discriminate.
    - unfold distinct_positions. cbn.
      repeat (constructor; [cbn; intuition discriminate |]). constructor. }
  intros until log. intros H. cbv zeta.
  apply plotshpcreate_ok_order in H
    as (ab & P1 & n1 & Hab & Hg & _ & _ & HS).
  exists ab, P1, n1.
  exists (serpentine_order
            (n_unique (map Range (sort_values (df_rows infile))))
            (combine P1 n1)).
  split; [exact Hab |]. split; [exact Hg |].
  split; [apply serpentine_order_ok | exact HS].
Qed.

Lemma serpentine_emission_order_witness :
  exists P' names',
    serpentine_with argsort 3 (create_matrix three_by_two)
                    (map Barcode three_by_two)
    = ([], inr (P', names')) /\
    map (fun r => (m_range r, m_row r)) P'
    = [ (1, 1); (1, 2); (2, 2); (2, 1); (3, 1); (3, 2) ] /\
    names' = [ "a"; "b"; "d"; "c"; "e"; "f" ]%string.
Proof.
  exact (proj1 (proj2 (proj2 (proj2
           (serpentine_emission_order argsort argsort_contract))))).
Defined.

(** ** Combined rows in a run *)

(** C4: in combined-rows mode (nrowplot > 1, multirowind false, plotsubset
    0) the row spacing the rectangles are built with is nrowplot * rowspc,
    converted to meters; exactly the records at local rows 1, 1+nrowplot,
    1+2*nrowplot, ... are kept, with their labels untouched, and renumbered
    to ceil(row / nrowplot); every ring of a run that returns is the ring
    of a kept, renumbered record built with that spacing: its local
    rectangle spans rows (row-1)*W .. row*W for W the multiplied spacing,
    and (in exact arithmetic, for nonnegative spacings) its row side is W
    long; and four source rows with nrowplot = 2 give exactly two
    rectangles, on rows 1 and 2, each two row spacings wide. *)
Theorem combined_rows_grouping (u : string) (n : Z) (v : R)
        (rows : list infile_row) :
  1 < n -> rows <> [] ->
  let W := (if is_feet u then (IZR n * v) / 3.281 else IZR n * v)%R in
  let P := create_matrix rows in
  let names := map Barcode rows in
  let mask := map (kept_row n) P in
  row_spacing_m u n false 0 v = W /\
  (forall r, In r P ->
             (kept_row n r = true <-> exists k, 0 <= k /\ m_row r = 1 + k * n)) /\
  row_grouping n false 0 names P names
  = ([], inr (map (fun r => set_row r (ceil_div (m_row r) n))
                  (compress mask P),
              compress mask names)) /\
  (forall RS r,
      m_bl (corners RS W r)
      = ((IZR (m_range r) - 1) * RS, (IZR (m_row r) - 1) * W)%R /\
      m_br (corners RS W r)
      = ((IZR (m_range r) - 1) * RS, IZR (m_row r) * W)%R /\
      m_tr (corners RS W r)
      = (IZR (m_range r) * RS, IZR (m_row r) * W)%R /\
      m_tl (corners RS W r)
      = (IZR (m_range r) * RS, (IZR (m_row r) - 1) * W)%R) /\
  (forall A B cols outfile UTMzone Hemisphere rowbuf rangespc rangebuf
          stagger field SquarePlot RotatePlot log,
      plotshpcreate A B {| columns := cols; df_rows := rows |} outfile
                    UTMzone Hemisphere n false v rowbuf rangespc rangebuf
                    stagger 0 field u SquarePlot RotatePlot
      = (log, inr tt) ->
      let srt := sort_values rows in
      let Ps := create_matrix srt in
      let kept := map (kept_row n) Ps in
      let P1 := map (fun r => set_row r (ceil_div (m_row r) n))
                    (compress kept Ps) in
      let n1 := compress kept (map Barcode srt) in
      let RS := to_m u rangespc in
      let sM := stagger_m u stagger in
      exists ab order,
        ab_line A B = ([], inr ab) /\
        serpentine_ok (n_unique (map Range srt)) (combine P1 n1) order /\
        shapefiles log =
        [ (file_name field outfile ".shp", map snd order,
           map (fun x => plot_ring A ab stagger sM RS W (fst x)) order,
           crs_of UTMzone Hemisphere);
          (file_name field outfile "_buff.shp", map snd order,
           map (fun x => plot_ring_buf A ab stagger sM RS W
                                       (to_m u rangebuf) (to_m u rowbuf)
                                       (fst x)) order,
           crs_of UTMzone Hemisphere) ] /\
        ((0 <= rangespc)%R -> (0 <= v)%R ->
         forall x, In x order ->
                   rectangle_of RS W
                                (plot_ring A ab stagger sM RS W (fst x)))) /\
  (exists ab log,
      ab_line A_doc B_doc = ([], inr ab) /\
      plotshpcreate A_doc B_doc four_rows "out" None "N" 2 false
                    2.5 0.1 25 2 None 0 None "feet" false false
      = (log, inr tt) /\
      let r1 := mk_mrow 1 1 1 zero2 zero2 zero2 zero2 1 in
      let r2 := mk_mrow 2 1 2 zero2 zero2 zero2 zero2 3 in
      let RS := (25 / 3.281)%R in
      let W2 := ((2 * 2.5) / 3.281)%R in
      shapefiles log =
      [ ("out.shp"%string, ["G1"; "G2"]%string,
         [ plot_ring A_doc ab None 0 RS W2 r1;
           plot_ring A_doc ab None 0 RS W2 r2 ], None);
        ("out_buff.shp"%string, ["G1"; "G2"]%string,
         [ plot_ring_buf A_doc ab None 0 RS W2 (2 / 3.281) (0.1 / 3.281) r1;
           plot_ring_buf A_doc ab None 0 RS W2 (2 / 3.281) (0.1 / 3.281) r2 ],
         None) ] /\
      rectangle_of RS W2 (plot_ring A_doc ab None 0 RS W2 r1) /\
      rectangle_of RS W2 (plot_ring A_doc ab None 0 RS W2 r2)).
Proof.
  intros Hn Hrows W P names mask.
  assert (Hsp : row_spacing_m u n false 0 v = W).
  { unfold row_spacing_m, combined_mode.
    destruct (Z.ltb_spec 1 n) as [_ | ?]; [| lia]. reflexivity. }
  assert (Hgrp : forall rows' : list infile_row,
             rows' <> [] ->
             row_grouping n false 0 (map Barcode rows') (create_matrix rows')
                          (map Barcode rows')
             = ([], inr (map (fun r => set_row r (ceil_div (m_row r) n))
                             (compress (map (kept_row n) (create_matrix rows'))
                                       (create_matrix rows')),
                         compress (map (kept_row n) (create_matrix rows'))
                                  (map Barcode rows')))).
  { intros rows' Hne.
    unfold row_grouping, combined_mode, relabel_mode.
    destruct (Z.ltb_spec 1 n) as [_ | ?]; [| lia]. cbn [negb andb orb Z.eqb].
    unfold combine_rows.
    destruct (col_max_some (map m_row (create_matrix rows'))) as [mx Hmx].
    { unfold create_matrix. destruct rows'; [congruence | discriminate]. }
    rewrite Hmx. cbn [lift]. rewrite bind_ret_l.
    rewrite combined_mask_kept; [| exact Hn |].
    2:{ intros r Hr. split; [now apply create_matrix_row_pos with rows' |].
        eapply col_max_ge; [exact Hmx | now apply in_map]. }
    rewrite pick_compress
      by (now rewrite !length_map, create_matrix_length).
    cbn [lift]. rewrite !bind_ret_l.
    unfold ret. do 3 f_equal. apply map_ext_in. intros r Hr.
    apply renumber_kept; [| exact Hn].
    apply create_matrix_row_pos with rows'. now apply compress_incl in Hr. }
  split; [exact Hsp |].
  split.
  { intros r Hr. apply kept_row_iff; [exact Hn |].
    now apply create_matrix_row_pos with rows. }
  split; [now apply Hgrp |].
  split.
  { intros RS r. unfold corners, set_corners. cbn [m_bl m_br m_tr m_tl].
    repeat split; f_equal; ring. }
  split.
  { intros A B cols outfile UTMzone Hemisphere rowbuf rangespc rangebuf
           stagger field SquarePlot RotatePlot log Hrun.
    cbv zeta.
    apply plotshpcreate_ok_order in Hrun
      as (ab & P1 & n1 & Hab & Hg & _ & _ & HS).
    cbn [df_rows] in Hg, HS.
    assert (Hne : sort_values rows <> []).
    { intros E. apply (f_equal (@List.length _)) in E.
      unfold sort_values in E. rewrite sort_by_length in E.
      destruct rows; [congruence | discriminate]. }
    rewrite (Hgrp _ Hne) in Hg. injection Hg as <- <-.
    rewrite Hsp in HS.
    exists ab. eexists. split; [exact Hab |].
    split; [apply serpentine_order_ok |].
    split; [exact HS |].
    intros HR Hv x _. unfold plot_ring.
    apply rotated_rectangle; [now apply to_m_nonneg |].
    rewrite <- Hsp. now apply row_spacing_m_nonneg. }
  eexists. eexists.
  split; [apply ab_line_doc |].
  split.
  { eapply plotshpcreate_run.
    - reflexivity.
    - reflexivity.
    - apply ab_line_doc.
    - vm_compute. reflexivity.
    - vm_compute. reflexivity.
    - reflexivity.
    - reflexivity.
    - reflexivity. }
  cbv zeta.
  split; [reflexivity |].
  split; unfold plot_ring; apply rotated_rectangle; lra.
Qed.

Lemma combined_rows_grouping_witness :
  row_spacing_m "meter" 2 false 0 1
  = (if is_feet "meter" then (IZR 2 * 1) / 3.281 else IZR 2 * 1)%R.
Proof.
  refine (proj1 (combined_rows_grouping "meter" 2 1%R (df_rows four_rows)
                                        _ _)).
  - lia.
  - discriminate.
Defined.

(** ** Records the serpentine stage keeps and drops *)

Lemma combine_fst_snd_id {T U} (l : list (T * U)) :
  combine (map fst l) (map snd l) = l.
Proof.
  induction l as [| [a b] l IH]; simpl; [reflexivity | now rewrite IH].
Qed.

Lemma contiguous_index_bound l x :
  contiguous l -> In x l -> x - col_min l + 1 <= Z.of_nat (n_unique l).
Proof.
  intros Hc Hx. set (m := col_min l).
  assert (Hm : m <= x) by now apply col_min_le.
  set (vals := map (fun k => m + Z.of_nat k) (seq 0 (Z.to_nat (x - m + 1)))).
  assert (ND : NoDup vals).
  { unfold vals. apply Finite.Injective_map_NoDup; [| apply seq_NoDup].
    intros a b. lia. }
  assert (Hincl : incl vals (unique_z l)).
  { intros v Hv. apply in_unique_z. unfold vals in Hv.
    apply in_map_iff in Hv as (k & <- & Hk). apply in_seq in Hk.
    apply (Hc _ x Hx). fold m. lia. }
  pose proof (NoDup_incl_length ND Hincl) as HLen.
  unfold vals in HLen. rewrite length_map, length_seq in HLen.
  unfold n_unique. lia.
Qed.

Lemma create_matrix_contiguous rows r :
  contiguous (map Range rows) -> In r (create_matrix rows) ->
  1 <= m_range r <= Z.of_nat (n_unique (map Range rows)).
Proof.
  intros Hc Hr. split; [now apply create_matrix_range_pos with rows |].
  unfold create_matrix in Hr. apply in_map_iff in Hr as (x & <- & Hx).
  cbn [m_range]. apply contiguous_index_bound; [exact Hc |].
  now apply in_map.
Qed.

Lemma renumber_range n r : m_range (renumber n r) = m_range r.
Proof. unfold renumber. now destruct (1 <? m_row r). Qed.

Lemma row_grouping_ranges n mr k bc P names l P' names' r' :
  List.length names = List.length P -> List.length bc = List.length P ->
  row_grouping n mr k bc P names = (l, inr (P', names')) ->
  In r' P' -> exists r, In r P /\ m_range r' = m_range r.
Proof.
  intros HL HB H Hr. unfold row_grouping in H.
  apply bind_ok_inv in H as (l1 & [P1 n1] & l2 & H1 & H & ->).
  assert (H1' : forall q, In q P1 -> exists r, In r P /\ m_range q = m_range r).
  { destruct (combined_mode n mr k).
    - apply combine_rows_ok_inv in H1 as (mask & _ & -> & _ & _);
        [| exact HL].
      intros q Hq. apply in_map_iff in Hq as (r & <- & Hq).
      exists r. split; [now apply compress_incl in Hq |].
      apply renumber_range.
    - injection H1 as _ <- <-. intros q Hq. now exists q. }
  assert (HL1 : List.length bc = List.length P1 \/ relabel_mode n mr k = false).
  { destruct (combined_mode n mr k) eqn:Ec.
    - right. unfold combined_mode in Ec. unfold relabel_mode.
      apply andb_true_iff in Ec as [Ec Ek].
      apply andb_true_iff in Ec as [_ Em].
      apply negb_true_iff in Em. now rewrite Em, Ek, andb_false_r.
    - left. now injection H1 as _ <- <-. }
  destruct (relabel_mode n mr k).
  - destruct HL1 as [HL1 | ?]; [| discriminate].
    apply relabel_rows_ok_inv in H as (_ & _ & [(_ & -> & _) | (_ & mask & _ & -> & _)]);
      [| | exact HL1].
    + now apply H1'.
    + apply H1'. now apply compress_incl in Hr.
  - injection H as _ <- <-. now apply H1'.
Qed.

Lemma in_ranges_all n (recs : list (mrow * string)) :
  (forall x, In x recs -> 1 <= m_range (fst x) <= Z.of_nat n) ->
  filter (in_ranges n) recs = recs.
Proof.
  intros H. apply forallb_filter_id. apply forallb_forall. intros x Hx.
  unfold in_ranges. specialize (H x Hx).
  apply andb_true_iff. rewrite !Z.leb_le. lia.
Qed.

(** C9: the serpentine stage returns, without event or error, exactly the
    records whose normalised range index is in 1..nRange, each once; when
    the Range values are contiguous that is every record (a permutation of
    the input); a record whose index exceeds nRange is in neither shapefile,
    and the run still returns with no warning, as on [gap_table]. *)
Theorem serpentine_keeps_ranges_1_to_nRange :
  (forall n P names,
      List.length names = List.length P -> n <> 0%nat ->
      exists P' names',
        serpentine n P names = ([], inr (P', names')) /\
        Permutation (combine P' names')
                    (filter (in_ranges n) (combine P names)) /\
        ((forall r, In r P -> 1 <= m_range r <= Z.of_nat n) ->
         Permutation (combine P' names') (combine P names)) /\
        (forall x, In x (combine P names) ->
                   Z.of_nat n < m_range (fst x) ->
                   ~ In x (combine P' names'))) /\
  (forall rows r,
      contiguous (map Range rows) -> In r (create_matrix rows) ->
      1 <= m_range r <= Z.of_nat (n_unique (map Range rows))) /\
  (forall A B infile outfile UTMzone Hemisphere nrowplot multirowind
          rowspc rowbuf rangespc rangebuf stagger plotsubset field unit_
          SquarePlot RotatePlot log,
      plotshpcreate A B infile outfile UTMzone Hemisphere nrowplot
                    multirowind rowspc rowbuf rangespc rangebuf stagger
                    plotsubset field unit_ SquarePlot RotatePlot
      = (log, inr tt) ->
      let rows := sort_values (df_rows infile) in
      exists P1 n1 order f ids polys crs fb bufs,
        row_grouping nrowplot multirowind plotsubset (map Barcode rows)
                     (create_matrix rows) (map Barcode rows)
        = ([], inr (P1, n1)) /\
        shapefiles log = [ (f, ids, polys, crs); (fb, ids, bufs, crs) ] /\
        ids = map snd order /\
        List.length polys = List.length order /\
        List.length bufs = List.length order /\
        Permutation order
                    (filter (in_ranges (n_unique (map Range rows)))
                            (combine P1 n1)) /\
        (contiguous (map Range rows) ->
         Permutation order (combine P1 n1))) /\
  (exists log polys bufs crs,
      plotshpcreate A_doc B_doc gap_table "out" (Some "14"%string) "N" 1 false
                    2.5 0.1 25 2 None 0 None "feet" false false
      = (log, inr tt) /\
      shapefiles log = [ ("out.shp", ["a"; "b"], polys, crs);
                         ("out_buff.shp", ["a"; "b"], bufs, crs) ]%string /\
      List.length log = 2%nat /\
      List.length polys = 2%nat /\ List.length bufs = 2%nat /\
      map (fun r => (Barcode r, Range r - 1 + 1)) (df_rows gap_table)
      = [ ("a", 1); ("b", 1); ("c", 3); ("d", 3) ]%string /\
      n_unique (map Range (df_rows gap_table)) = 2%nat).
Proof.
  split; [| split; [| split]].
  - intros n P names HL Hn. do 2 eexists.
    split; [now apply serpentine_run |].
    rewrite combine_fst_snd_id.
    split; [apply serpentine_order_perm |]. split.
    + intros Hall. rewrite serpentine_order_perm, in_ranges_all;
        [reflexivity |].
      intros [r nm] Hx. apply in_combine_l in Hx. now apply Hall.
    + intros x Hx Hgt Hin.
      apply (Permutation_in _ (serpentine_order_perm n _)) in Hin.
      apply filter_In in Hin as [_ Hin]. unfold in_ranges in Hin.
      apply andb_true_iff in Hin as [_ Hin]. apply Z.leb_le in Hin. lia.
  - intros rows r. apply create_matrix_contiguous.
  - intros until log. intros H. cbv zeta.
    pose proof H as H'.
    apply plotshpcreate_ok_order in H'
      as (ab & P1 & n1 & Hab & Hg & HL1 & Hn & HS).
    set (rows := sort_values (df_rows infile)) in *.
    exists P1, n1,
      (serpentine_order (n_unique (map Range rows)) (combine P1 n1)).
    do 6 eexists. split; [exact Hg |]. split; [exact HS |].
    split; [reflexivity |]. rewrite !length_map.
    split; [reflexivity |]. split; [reflexivity |].
    split; [apply serpentine_order_perm |].
    intros Hc. rewrite serpentine_order_perm, in_ranges_all; [reflexivity |].
    intros [r nm] Hx. apply in_combine_l in Hx. cbn [fst].
    assert (HLr : List.length (map Barcode rows)
                  = List.length (create_matrix rows))
      by now rewrite create_matrix_length, length_map.
    destruct (row_grouping_ranges _ _ _ _ _ _ _ _ _ r HLr HLr Hg Hx)
      as (r0 & Hr0 & ->).
    now apply create_matrix_contiguous.
  - do 4 eexists. split.
    + eapply plotshpcreate_run.
      * reflexivity.
      * reflexivity.
      * apply ab_line_doc.
      * vm_compute. reflexivity.
      * vm_compute. reflexivity.
      * reflexivity.
      * reflexivity.
      * reflexivity.
    + repeat split.
Qed.

Lemma serpentine_keeps_ranges_1_to_nRange_witness :
  exists P' names',
    serpentine 2 (create_matrix (df_rows gap_table))
               (map Barcode (df_rows gap_table))
    = ([], inr (P', names')) /\
    ~ In (mk_mrow 3 3 1 zero2 zero2 zero2 zero2 1, "c"%string)
         (combine P' names').
Proof.
  destruct (proj1 serpentine_keeps_ranges_1_to_nRange 2%nat
                  (create_matrix (df_rows gap_table))
                  (map Barcode (df_rows gap_table)))
    as (P' & names' & E & _ & _ & Hdrop).
  - reflexivity.
  - discriminate.
  - exists P', names'. split; [exact E |].
    apply Hdrop.
    + simpl. right. right. left. reflexivity.
    + simpl. lia.
Defined.

(** ** Labels and matrix stay in step *)

Lemma serpentine_ok_inv n P names l P' names' :
  List.length names = List.length P ->
  serpentine n P names = (l, inr (P', names')) ->
  P' = map fst (serpentine_order n (combine P names)) /\
  names' = map snd (serpentine_order n (combine P names)) /\
  List.length names' = List.length P'.
Proof.
  intros HL H. destruct n as [| n].
  - rewrite serpentine_empty in H. discriminate.
  - rewrite serpentine_run in H by (auto; discriminate).
    injection H as _ <- <-. now rewrite !length_map.
Qed.

Lemma serpentine_range_ok_inv P names i l rows nms :
  List.length names = List.length P ->
  serpentine_range P names i = (l, inr (rows, nms)) ->
  exists mask idx,
    List.length mask = List.length P /\
    gather (compress mask P) idx = Some rows /\
    gather (compress mask names) idx = Some nms /\
    List.length nms = List.length rows.
Proof.
  intros HL H. unfold serpentine_range, serpentine_range_with in H.
  set (mask := map (fun r => m_range r =? i) P) in *.
  assert (Hm : List.length mask = List.length P) by apply length_map.
  rewrite pick_compress in H by congruence.
  cbn [lift] in H. rewrite bind_ret_l in H.
  set (idx := if i mod 2 =? 0 then _ else _) in H.
  apply bind_ok_inv in H as (l1 & r1 & l2 & H1 & H & ->).
  apply lift_ok_inv in H1 as [G1 ->].
  apply bind_ok_inv in H as (l3 & r2 & l4 & H2 & H & ->).
  apply lift_ok_inv in H2 as [G2 ->].
  injection H as _ <- <-.
  exists mask, idx. repeat split; try assumption.
  clear - G1 G2. revert r1 r2 G1 G2.
  induction idx as [| j idx IH]; simpl; intros r1 r2.
  - now intros [= <-] [= <-].
  - destruct (nth_error (compress mask P) j); [| discriminate].
    destruct (gather (compress mask P) idx) as [a |]; [| discriminate].
    destruct (nth_error (compress mask names) j); [| discriminate].
    destruct (gather (compress mask names) idx) as [b |]; [| discriminate].
    intros [= <-] [= <-]. simpl. f_equal. now apply IH.
Qed.

Lemma bind_snd_err {T U} (m : M T) (f : T -> M U) e :
  snd (bind m f) = inl e ->
  snd m = inl e \/ exists a, snd m = inr a /\ snd (f a) = inl e.
Proof.
  unfold bind. destruct m as [l [e' | a]]; simpl.
  - intros [= ->]. now left.
  - intros H. right. now exists a.
Qed.

Lemma lift_raises {T} e0 (o : option T) e :
  snd (lift e0 o) = inl e -> e = e0.
Proof. destruct o; simpl; [discriminate | now intros [= <-]]. Qed.

Lemma subset_checks_raises n k e :
  snd (subset_checks n k) = inl e -> exists v, e = ValidationError v.
Proof.
  unfold subset_checks.
  repeat match goal with |- context [if ?b then _ else _] => destruct b end;
    simpl; intros [= <-] || discriminate; eexists; reflexivity.
Qed.

(** With labels and matrix of one length no index is out of range. *)
Lemma combine_rows_no_index_error n k P names :
  List.length names = List.length P ->
  snd (combine_rows n k P names) <> inl IndexError.
Proof.
  intros HL H. unfold combine_rows in H.
  apply bind_snd_err in H as [H | (mx & _ & H)].
  - apply lift_raises in H. discriminate.
  - rewrite pick_compress in H
      by (unfold combined_mask; rewrite length_map; congruence).
    cbn [lift] in H. rewrite bind_ret_l in H. discriminate.
Qed.

Lemma relabel_rows_no_index_error n k bc P :
  List.length bc = List.length P ->
  snd (relabel_rows n k bc P) <> inl IndexError.
Proof.
  intros HL H. unfold relabel_rows in H.
  destruct (negb (k =? 0)); [| discriminate].
  apply bind_snd_err in H as [H | ([] & _ & H)].
  - apply subset_checks_raises in H as [v H]. discriminate.
  - rewrite pick_compress in H.
    + cbn [lift] in H. rewrite bind_ret_l in H. discriminate.
    + unfold subset_mask.
      rewrite length_map, length_firstn, new_row_names_length. lia.
Qed.

Lemma row_grouping_no_index_error n mr k bc P names :
  List.length names = List.length P -> List.length bc = List.length P ->
  snd (row_grouping n mr k bc P names) <> inl IndexError.
Proof.
  intros HL HB H. unfold row_grouping in H.
  destruct (combined_mode n mr k) eqn:Ec.
  - assert (Er : relabel_mode n mr k = false).
    { unfold combined_mode in Ec. unfold relabel_mode.
      apply andb_true_iff in Ec as [Ec Ek].
      apply andb_true_iff in Ec as [_ Em].
      apply negb_true_iff in Em. now rewrite Em, Ek, andb_false_r. }
    rewrite Er in H.
    apply bind_snd_err in H as [H | ([P1 n1] & _ & H)]; [| discriminate].
    now apply combine_rows_no_index_error in H.
  - rewrite bind_ret_l in H.
    destruct (relabel_mode n mr k); [| discriminate].
    now apply relabel_rows_no_index_error in H.
Qed.

(** ** Where exceptions come from *)

Lemma bind_raises {T U} (ok : exn -> Prop) (m : M T) (f : T -> M U) :
  (forall e, snd m = inl e -> ok e) ->
  (forall l a, m = (l, inr a) -> forall e, snd (f a) = inl e -> ok e) ->
  forall e, snd (bind m f) = inl e -> ok e.
Proof.
  intros Hm Hf e. unfold bind. destruct m as [l [e' | a]]; simpl.
  - intros [= <-]. now apply Hm.
  - now apply (Hf l a).
Qed.

Lemma when_raises (ok : exn -> Prop) b (m : M unit) :
  (forall e, snd m = inl e -> ok e) ->
  forall e, snd (when b m) = inl e -> ok e.
Proof. destruct b; simpl; [auto | discriminate]. Qed.

Lemma write_shapefile_raises P names f o crs b e :
  snd (_write_shapefile P names f o crs b) = inl e -> e = NumpyValueError.
Proof.
  unfold _write_shapefile. destruct (_ =? _)%nat; simpl;
    [discriminate | now intros [= <-]].
Qed.

(** Geometry and export raise nothing but a library [ValueError]. *)
Lemma build_and_export_raises A ab st sM RS WS RB WB utm hem f o sq rt P names e :
  snd (build_and_export A ab st sM RS WS RB WB utm hem f o sq rt P names)
  = inl e -> e = NumpyValueError.
Proof.
  unfold build_and_export. revert e.
  apply bind_raises.
  { apply when_raises. unfold _create_square_plot. apply bind_raises.
    - intros e. apply lift_raises.
    - intros _ _ _ e. discriminate. }
  intros _ _ _. apply bind_raises.
  { apply when_raises. unfold _create_rotated_plot. apply bind_raises.
    - intros e. apply lift_raises.
    - intros _ _ _ e. discriminate. }
  intros _ _ _. apply bind_raises.
  { apply when_raises. intros e. discriminate. }
  intros _ _ _. apply bind_raises.
  { intros e. apply write_shapefile_raises. }
  intros _ _ _ e. apply write_shapefile_raises.
Qed.

Lemma no_validation_error_build_and_export
      A ab st sM RS WS RB WB utm hem f o sq rt P names :
  no_validation_error
    (build_and_export A ab st sM RS WS RB WB utm hem f o sq rt P names).
Proof.
  intros v H. apply build_and_export_raises in H. discriminate.
Qed.

Lemma artifact_free_silent {T} (m : M T) : silent m -> artifact_free m.
Proof. unfold silent, artifact_free. now intros ->. Qed.

(** A [ValidationError] out of [bind m f], when [m] leaves no file and
    [f] leaves none once it raises such an error, left no file. *)
Lemma bind_validation_artifact_free {T U} (m : M T) (f : T -> M U) v :
  artifact_free m ->
  (forall a, snd (f a) = inl (ValidationError v) -> artifact_free (f a)) ->
  snd (bind m f) = inl (ValidationError v) -> artifact_free (bind m f).
Proof.
  unfold artifact_free, bind. intros Hm Hf.
  destruct m as [l [e | a]]; simpl in *; [auto |].
  intros H. rewrite forallb_app, Hm. simpl. now apply Hf.
Qed.

Lemma artifact_free_shapefiles log :
  forallb (fun e => negb (is_artifact e)) log = true -> shapefiles log = [].
Proof.
  induction log as [| e log IH]; [reflexivity |]. simpl.
  destruct e; simpl; try discriminate. exact IH.
Qed.

(** C7: a run that ends in a [ValidationError] has written no PDF and no
    shapefile, neither unbuffered nor buffered; and the stage that builds
    the rectangles and exports them raises no [ValidationError], for any
    arguments: every validation is over before it starts. *)
Theorem validation_error_leaves_no_artifact :
  (forall A B infile outfile UTMzone Hemisphere nrowplot multirowind
          rowspc rowbuf rangespc rangebuf stagger plotsubset field unit_
          SquarePlot RotatePlot v,
      let run :=
        plotshpcreate A B infile outfile UTMzone Hemisphere nrowplot
                      multirowind rowspc rowbuf rangespc rangebuf stagger
                      plotsubset field unit_ SquarePlot RotatePlot in
      snd run = inl (ValidationError v) ->
      forallb (fun e => negb (is_artifact e)) (fst run) = true /\
      shapefiles (fst run) = []) /\
  (forall A ab stagger staggerM RS WS RB WB UTMzone Hemisphere field outfile
          SquarePlot RotatePlot P names v,
      snd (build_and_export A ab stagger staggerM RS WS RB WB UTMzone
                            Hemisphere field outfile SquarePlot RotatePlot
                            P names)
      <> inl (ValidationError v)).
Proof.
  split.
  - intros until v. intros run H.
    assert (AF : artifact_free run).
    { revert H. unfold run, plotshpcreate.
      apply bind_validation_artifact_free;
        [apply artifact_free_silent, silent_validate_columns |].
      intros _. apply bind_validation_artifact_free;
        [apply artifact_free_silent, silent_validate_stagger |].
      intros _. apply bind_validation_artifact_free;
        [now destruct (negb _) |].
      intros _. apply bind_validation_artifact_free;
        [apply artifact_free_silent, silent_ab_line |].
      intros ab. apply bind_validation_artifact_free;
        [apply artifact_free_silent, silent_row_grouping |].
      intros [P1 n1]. apply bind_validation_artifact_free;
        [apply artifact_free_silent, silent_serpentine |].
      intros [P2 names] H.
      now apply no_validation_error_build_and_export in H. }
    split; [exact AF |]. now apply artifact_free_shapefiles.
  - intros. apply no_validation_error_build_and_export.
Qed.

Lemma validation_error_leaves_no_artifact_witness :
  shapefiles
    (fst (plotshpcreate A_doc B_doc sample_data "test" None "N" 1 false
                        2.5 0.1 25 2 (Some (1%Z, 2%Z, 0.5%R)) 0 None "feet"
                        false false)) = [].
Proof.
  refine (proj2 (proj1 validation_error_leaves_no_artifact
                       A_doc B_doc sample_data "test"%string None "N"%string
                       1 false 2.5%R 0.1%R 25%R 2%R
                       (Some (1%Z, 2%Z, 0.5%R)) 0 None "feet"%string
                       false false StaggerFirstPlot _)).
  reflexivity.
Defined.

(** ** Validation errors *)

Lemma field_absent_iff df : field_absent df <-> missing_cols df <> [].
Proof.
  unfold field_absent, missing_cols. split.
  - intros (c & Hc & Hn) E.
    assert (Hin : In c (filter (fun c => negb (existsb (String.eqb c) (columns df)))
                               required_cols)).
    { apply filter_In. split; [exact Hc |]. apply negb_true_iff.
      destruct (existsb _ _) eqn:Ex; [| reflexivity].
      apply existsb_exists in Ex as (x & Hx & Exc).
      apply String.eqb_eq in Exc. subst x. contradiction. }
    rewrite E in Hin. exact Hin.
  - intros H. destruct (filter _ required_cols) as [| c cs] eqn:E;
      [congruence |].
    assert (Hin : In c (c :: cs)) by now left. rewrite <- E in Hin.
    apply filter_In in Hin as [Hc Hn]. exists c. split; [exact Hc |].
    intros Hcol. apply negb_true_iff in Hn.
    assert (Ex : existsb (String.eqb c) (columns df) = true).
    { apply existsb_exists. exists c. split; [exact Hcol |].
      apply String.eqb_refl. }
    congruence.
Qed.

Lemma validate_columns_cases df :
  (~ field_absent df /\ validate_columns df = ([], inr tt)) \/
  (field_absent df /\
   exists v, validate_columns df = ([], inl (ValidationError v))).
Proof.
  rewrite field_absent_iff. unfold validate_columns.
  destruct (missing_cols df) as [| c cs].
  - left. split; [congruence | reflexivity].
  - right. split; [discriminate |]. eexists. reflexivity.
Qed.

Lemma half_lt_iff p n : (IZR p / 2 < IZR n)%R <-> p < 2 * n.
Proof.
  split; intros H.
  - apply lt_IZR. rewrite mult_IZR. lra.
  - apply IZR_lt in H. rewrite mult_IZR in H. lra.
Qed.

Lemma validate_stagger_cases st n mr :
  (~ stagger_invalid st n mr /\ validate_stagger st n mr = ([], inr tt)) \/
  (stagger_invalid st n mr /\
   exists v, validate_stagger st n mr = ([], inl (ValidationError v))).
Proof.
  unfold stagger_invalid, validate_stagger.
  destruct st as [[[s p] d] |]; [| left; split; [tauto | reflexivity]].
  rewrite half_lt_iff.
  destruct (Z.eqb_spec s 1) as [-> | Hs].
  { right. split; [now left |]. eexists. reflexivity. }
  destruct (Z.ltb_spec (p + 1) s) as [Hp | Hp].
  { right. split; [tauto |]. eexists. reflexivity. }
  destruct (Z.ltb_spec 1 n) as [Hn | Hn]; cbn [andb].
  2:{ left. split; [lia | reflexivity]. }
  destruct mr; cbn [negb andb].
  { left. split; [| reflexivity]. intros [? | [? | (_ & ? & _)]];
      [lia | lia | discriminate]. }
  destruct (Z.ltb_spec p (2 * n)) as [H2 | H2].
  - right. split; [tauto |]. eexists. reflexivity.
  - left. split; [lia | reflexivity].
Qed.

Lemma subset_checks_cases n k :
  ((n = 1 \/ n < 3 \/ n = 2 * k) /\
   exists v, subset_checks n k = ([], inl (ValidationError v))) \/
  (~ (n = 1 \/ n < 3 \/ n = 2 * k) /\ subset_checks n k = ([], inr tt)).
Proof.
  unfold subset_checks.
  destruct (Z.eqb_spec n 1) as [H1 | H1].
  { left. split; [tauto |]. eexists. reflexivity. }
  destruct (Z.ltb_spec n 3) as [H3 | H3].
  { left. split; [tauto |]. eexists. reflexivity. }
  destruct (Z.eqb_spec n (2 * k)) as [H2 | H2].
  { left. split; [tauto |]. eexists. reflexivity. }
  right. split; [lia | reflexivity].
Qed.

Lemma combine_rows_raises n k P names e :
  snd (combine_rows n k P names) = inl e ->
  e = NumpyValueError \/ e = IndexError.
Proof.
  unfold combine_rows. revert e. apply bind_raises.
  - intros e H. apply lift_raises in H. now left.
  - intros l mx Hmx. apply bind_raises.
    + intros e H. apply lift_raises in H. now right.
    + intros l' a Ha e. discriminate.
Qed.

(** Row grouping raises a [ValidationError] exactly on an invalid subset
    configuration, whatever the table. *)
Lemma row_grouping_validation n mr k bc P names :
  (exists v, snd (row_grouping n mr k bc P names) = inl (ValidationError v))
  <-> subset_invalid n k.
Proof.
  unfold subset_invalid, row_grouping. split.
  - intros [v H].
    apply bind_snd_err in H as [H | ([P1 n1] & _ & H)].
    { destruct (combined_mode n mr k); [| discriminate].
      apply combine_rows_raises in H as [H | H]; discriminate. }
    destruct (relabel_mode n mr k); [| discriminate].
    unfold relabel_rows in H.
    destruct (Z.eqb_spec k 0) as [-> | Hk]; cbn [negb] in H;
      [discriminate |].
    split; [exact Hk |].
    destruct (subset_checks_cases n k) as [[Hc _] | [_ E]]; [exact Hc |].
    rewrite E, bind_nil_l in H. exfalso.
    apply bind_snd_err in H as [H | (a & _ & H)]; [| discriminate].
    apply lift_raises in H. discriminate.
  - intros [Hk Hc].
    assert (Ec : combined_mode n mr k = false).
    { unfold combined_mode. apply Z.eqb_neq in Hk. rewrite Hk.
      apply andb_false_r. }
    assert (Er : relabel_mode n mr k = true).
    { unfold relabel_mode. apply Z.eqb_neq in Hk. rewrite Hk.
      apply orb_true_r. }
    rewrite Ec, Er, bind_ret_l. unfold relabel_rows.
    apply Z.eqb_neq in Hk. rewrite Hk. cbn [negb].
    destruct (subset_checks_cases n k) as [[_ [v E]] | [Hn _]];
      [| contradiction].
    exists v. now rewrite E.
Qed.

Lemma serpentine_range_raises P names i e :
  snd (serpentine_range P names i) = inl e -> e = IndexError.
Proof.
  unfold serpentine_range, serpentine_range_with. intros H.
  apply bind_snd_err in H as [H | (a & _ & H)];
    [now apply lift_raises in H |].
  apply bind_snd_err in H as [H | (b & _ & H)];
    [now apply lift_raises in H |].
  apply bind_snd_err in H as [H | (c & _ & H)];
    [now apply lift_raises in H | discriminate].
Qed.

Lemma serpentine_loop_raises P names idxs op on e :
  snd (serpentine_loop P names idxs op on) = inl e -> e = IndexError.
Proof.
  revert op on. induction idxs as [| i idxs IH]; intros op on; simpl.
  - discriminate.
  - intros H. apply bind_snd_err in H as [H | ([rows nm] & _ & H)].
    + now apply serpentine_range_raises in H.
    + now apply IH in H.
Qed.

Lemma serpentine_raises n P names e :
  snd (serpentine n P names) = inl e ->
  e = IndexError \/ e = NumpyValueError.
Proof.
  unfold serpentine, serpentine_with. intros H.
  apply bind_snd_err in H as [H | ([op on] & _ & H)].
  - left. now apply serpentine_loop_raises in H.
  - apply bind_snd_err in H as [H | (a & _ & H)]; [| discriminate].
    unfold vstack in H. destruct op; simpl in H; [| discriminate].
    injection H as <-. now right.
Qed.

Lemma bind_snd_inl {T U} (m : M T) (f : T -> M U) e :
  snd m = inl e -> snd (bind m f) = inl e.
Proof. unfold bind. destruct m as [l [e' | a]]; simpl; congruence. Qed.

Section Validation.
Variables (A B : R * R) (infile : DataFrame) (outfile : string)
          (UTMzone : option string) (Hemisphere : string)
          (nrowplot : Z) (multirowind : bool)
          (rowspc rowbuf rangespc rangebuf : R)
          (stagger : option (Z * Z * R)) (plotsubset : Z)
          (field : option string) (unit_ : string)
          (SquarePlot RotatePlot : bool).

Let run :=
  plotshpcreate A B infile outfile UTMzone Hemisphere nrowplot multirowind
                rowspc rowbuf rangespc rangebuf stagger plotsubset
                field unit_ SquarePlot RotatePlot.

(** The [ValidationError]s of a run, with the place of the division. *)
Lemma plotshpcreate_validation_iff :
  (exists v, snd run = inl (ValidationError v)) <->
  field_absent infile \/
  stagger_invalid stagger nrowplot multirowind \/
  (subset_invalid nrowplot plotsubset /\ (fst B - fst A <> 0)%R).
Proof.
  unfold run, plotshpcreate.
  destruct (validate_columns_cases infile) as [[Hna Ec] | [Ha [v Ec]]].
  2:{ rewrite Ec. split; [intros _; now left |].
      intros _. exists v. reflexivity. }
  rewrite Ec, bind_nil_l.
  destruct (validate_stagger_cases stagger nrowplot multirowind)
    as [[Hns Es] | [Hs [v Es]]].
  2:{ rewrite Es. split; [intros _; right; now left |].
      intros _. exists v. reflexivity. }
  rewrite Es, bind_nil_l, bind_when_emit. cbn [snd].
  destruct (Req_dec_T (fst B - fst A) 0) as [E0 | Hne].
  { rewrite ab_line_zero by exact E0. split.
    - intros [v H]. discriminate.
    - intros [? | [? | [_ ?]]]; contradiction. }
  rewrite ab_line_defined by exact Hne. rewrite bind_nil_l.
  split.
  - intros [v H]. right. right. split; [| exact Hne].
    apply bind_snd_err in H as [H | ([P1 n1] & _ & H)].
    { eapply (proj1 (row_grouping_validation _ _ _ _ _ _)).
      exists v. exact H. }
    exfalso.
    apply bind_snd_err in H as [H | ([P2 names] & _ & H)].
    + apply serpentine_raises in H as [H | H]; discriminate.
    + now apply no_validation_error_build_and_export in H.
  - intros [? | [? | [Hsub _]]]; try contradiction.
    apply row_grouping_validation
      with (mr := multirowind)
           (bc := map Barcode (sort_values (df_rows infile)))
           (P := create_matrix (sort_values (df_rows infile)))
           (names := map Barcode (sort_values (df_rows infile)))
      in Hsub as [v H].
    exists v. now apply bind_snd_inl.
Qed.
End Validation.

(** C6, the claim as stated fails: with DeltaEasting = 0 an invalid subset
    configuration (nrowplot = 2, plotsubset = 1) raises no
    [ValidationError]; the division on line 150 raises first. *)
Lemma subset_error_preempted_by_division :
  subset_invalid 2 1 /\
  plotshpcreate (0, 0)%R (0, 1)%R sample_data "test" None "N" 2 false
                2.5 0.1 25 2 None 1 None "feet" false false
  = ([], inl ZeroDivisionError).
Proof.
  split; [split; [discriminate | right; left; reflexivity] |].
  unfold plotshpcreate.
  change (validate_columns sample_data) with (@ret unit tt).
  rewrite bind_ret_l.
  change (validate_stagger None 2 false) with (@ret unit tt).
  rewrite bind_ret_l, bind_when_emit.
  rewrite ab_line_zero by (simpl; lra).
  reflexivity.
Qed.

(** C6 (amended): a run raises a [ValidationError] exactly when a required
    field is absent, or the stagger spec is invalid (startRow = 1, or
    startRow > rowsPerPass + 1, or rows are combined and nrowplot >
    rowsPerPass / 2), or the subset configuration is invalid (plotsubset
    nonzero and nrowplot = 1, or < 3, or = 2 * plotsubset) and
    DeltaEasting is nonzero.  In particular stagger = (1, 2, 0.5) raises,
    and nrowplot = 2 with plotsubset = 1 raises on the documented AB line. *)
Theorem validation_error_exactly :
  (forall A B infile outfile UTMzone Hemisphere nrowplot multirowind
          rowspc rowbuf rangespc rangebuf stagger plotsubset field unit_
          SquarePlot RotatePlot,
      (exists v,
          snd (plotshpcreate A B infile outfile UTMzone Hemisphere nrowplot
                             multirowind rowspc rowbuf rangespc rangebuf
                             stagger plotsubset field unit_ SquarePlot
                             RotatePlot)
          = inl (ValidationError v)) <->
      field_absent infile \/
      stagger_invalid stagger nrowplot multirowind \/
      (subset_invalid nrowplot plotsubset /\ (fst B - fst A <> 0)%R)) /\
  plotshpcreate A_doc B_doc sample_data "test" None "N" 1 false
                2.5 0.1 25 2 (Some (1, 2, 0.5%R)) 0 None "feet" false false
  = ([], inl (ValidationError StaggerFirstPlot)) /\
  plotshpcreate A_doc B_doc sample_data "test" None "N" 2 false
                2.5 0.1 25 2 None 1 None "feet" false false
  = ([], inl (ValidationError SubsetCentral)) /\
  plotshpcreate A_doc B_doc
                {| columns := ["Plot"; "Range"]%string; df_rows := [] |}
                "test" None "N" 1 false 2.5 0.1 25 2 None 0 None "feet"
                true true
  = ([], inl (ValidationError (MissingColumns ["Row"; "Barcode"]%string))).
Proof.
  split; [intros; apply plotshpcreate_validation_iff |].
  split; [reflexivity |].
  split; [| reflexivity].
  unfold plotshpcreate.
  change (validate_columns sample_data) with (@ret unit tt).
  rewrite bind_ret_l.
  change (validate_stagger None 2 false) with (@ret unit tt).
  rewrite bind_ret_l, bind_when_emit.
  rewrite ab_line_doc, bind_nil_l.
  reflexivity.
Qed.

Lemma validation_error_exactly_witness :
  exists v,
    snd (plotshpcreate A_doc B_doc sample_data "test" None "N" 2 false
                       2.5 0.1 25 2 None 1 None "feet" false false)
    = inl (ValidationError v).
Proof.
  apply (proj1 validation_error_exactly).
  right. right. split.
  - split; [discriminate | right; left; reflexivity].
  - unfold A_doc, B_doc. simpl. lra.
Defined.

(** ** No index out of range *)

Lemma plotshpcreate_no_index_error
      A B infile outfile UTMzone Hemisphere nrowplot multirowind
      rowspc rowbuf rangespc rangebuf stagger plotsubset field unit_
      SquarePlot RotatePlot :
  snd (plotshpcreate A B infile outfile UTMzone Hemisphere nrowplot
                     multirowind rowspc rowbuf rangespc rangebuf stagger
                     plotsubset field unit_ SquarePlot RotatePlot)
  <> inl IndexError.
Proof.
  unfold plotshpcreate. intros H.
  set (rows := sort_values (df_rows infile)) in *.
  assert (HLr : List.length (map Barcode rows)
                = List.length (create_matrix rows))
    by now rewrite create_matrix_length, length_map.
  destruct (validate_columns_cases infile) as [[_ Ec] | [_ [v Ec]]];
    rewrite Ec in H; [| discriminate].
  rewrite bind_nil_l in H.
  destruct (validate_stagger_cases stagger nrowplot multirowind)
    as [[_ Es] | [_ [v Es]]]; rewrite Es in H; [| discriminate].
  rewrite bind_nil_l, bind_when_emit in H. cbn [snd] in H.
  apply bind_snd_err in H as [H | (ab & _ & H)].
  { unfold ab_line in H. destruct (Req_dec_T _ _); discriminate. }
  apply bind_snd_err in H as [H | ([P1 n1] & Hg & H)].
  { now apply row_grouping_no_index_error in H. }
  assert (HL1 : List.length n1 = List.length P1).
  { destruct (row_grouping nrowplot multirowind plotsubset
                (map Barcode rows) (create_matrix rows) (map Barcode rows))
      as [l r] eqn:E. simpl in Hg. subst r.
    eapply row_grouping_ok_inv; [exact HLr | exact HLr | exact E]. }
  apply bind_snd_err in H as [H | ([P2 names] & _ & H)].
  - destruct (n_unique (map Range rows)) as [| n].
    + rewrite serpentine_empty in H. discriminate.
    + rewrite serpentine_run in H by (auto; discriminate). discriminate.
  - apply build_and_export_raises in H. discriminate.
Qed.

(** C10: the label list keeps the length of the matrix through the
    combined-row filter, the relabelling, the subset filter and the
    serpentine reordering; each filter is one boolean mask applied to both
    lists (and each reordering one index list applied to both); no run
    ever indexes the label list out of range; and the two shapefiles of a
    run carry the same ids, in the same order, with one polygon per id. *)
Theorem labels_follow_matrix :
  (forall n k P names l P' names',
      List.length names = List.length P ->
      combine_rows n k P names = (l, inr (P', names')) ->
      exists mask,
        List.length mask = List.length P /\
        P' = map (renumber n) (compress mask P) /\
        names' = compress mask names /\
        List.length names' = List.length P') /\
  (forall n k bc P l P' names',
      List.length bc = List.length P ->
      relabel_rows n k bc P = (l, inr (P', names')) ->
      let relabelled := firstn (List.length P) (new_row_names bc) in
      List.length relabelled = List.length P /\
      List.length names' = List.length P' /\
      ((k = 0 /\ P' = P /\ names' = relabelled) \/
       (k <> 0 /\ exists mask,
           List.length mask = List.length P /\
           P' = compress mask P /\ names' = compress mask relabelled))) /\
  (forall n mr k bc P names l P' names',
      List.length names = List.length P -> List.length bc = List.length P ->
      row_grouping n mr k bc P names = (l, inr (P', names')) ->
      List.length names' = List.length P') /\
  (forall P names i l rows nms,
      List.length names = List.length P ->
      serpentine_range P names i = (l, inr (rows, nms)) ->
      exists mask idx,
        List.length mask = List.length P /\
        gather (compress mask P) idx = Some rows /\
        gather (compress mask names) idx = Some nms /\
        List.length nms = List.length rows) /\
  (forall n P names l P' names',
      List.length names = List.length P ->
      serpentine n P names = (l, inr (P', names')) ->
      List.length names' = List.length P') /\
  (forall A B infile outfile UTMzone Hemisphere nrowplot multirowind
          rowspc rowbuf rangespc rangebuf stagger plotsubset field unit_
          SquarePlot RotatePlot,
      snd (plotshpcreate A B infile outfile UTMzone Hemisphere nrowplot
                         multirowind rowspc rowbuf rangespc rangebuf stagger
                         plotsubset field unit_ SquarePlot RotatePlot)
      <> inl IndexError) /\
  (forall A B infile outfile UTMzone Hemisphere nrowplot multirowind
          rowspc rowbuf rangespc rangebuf stagger plotsubset field unit_
          SquarePlot RotatePlot log,
      plotshpcreate A B infile outfile UTMzone Hemisphere nrowplot
                    multirowind rowspc rowbuf rangespc rangebuf stagger
                    plotsubset field unit_ SquarePlot RotatePlot
      = (log, inr tt) ->
      exists f ids polys crs fb bufs,
        shapefiles log = [ (f, ids, polys, crs); (fb, ids, bufs, crs) ] /\
        List.length polys = List.length ids /\
        List.length bufs = List.length ids).
Proof.
  split; [exact combine_rows_ok_inv |].
  split; [exact relabel_rows_ok_inv |].
  split; [exact row_grouping_ok_inv |].
  split; [exact serpentine_range_ok_inv |].
  split.
  { intros n P names l P' names' HL H.
    now apply serpentine_ok_inv in H as (_ & _ & E). }
  split; [intros; apply plotshpcreate_no_index_error |].
  intros until log. intros H.
  apply plotshpcreate_ok_inv in H
    as (ab & P1 & n1 & P2 & names & _ & _ & _ & HL & HS).
  cbv zeta in HS. do 6 eexists. split; [exact HS |].
  unfold adjust. now rewrite !length_map.
Qed.

Lemma labels_follow_matrix_witness :
  List.length ["G1"; "G2"]%string
  = List.length (map (renumber 2)
                     (compress [true; false; true; false]
                               (create_matrix (df_rows four_rows)))).
Proof.
  refine (proj1 (proj2 (proj2 labels_follow_matrix)) 2 false 0
                (map Barcode (df_rows four_rows))
                (create_matrix (df_rows four_rows))
                (map Barcode (df_rows four_rows)) [] _ _ _ _ _).
  - reflexivity.
  - reflexivity.
  - vm_compute. reflexivity.
Defined.

(** * Further properties of the operation *)

(** ** The rotation lays the range axis along the AB line *)

Open Scope R_scope.

Lemma ab_length_pos dN dE : dE <> 0 -> 0 < sqrt (dE * dE + dN * dN).
Proof.
  intros H. apply sqrt_lt_R0.
  assert (0 < dE * dE) by nra. nra.
Qed.

Lemma direction_theta_cos_sin dN dE :
  dE <> 0 ->
  sqrt (dE * dE + dN * dN) * cos (direction_theta dN dE) = Rabs dE /\
  sqrt (dE * dE + dN * dN) * sin (direction_theta dN dE) = Rabs dN.
Proof.
  intros HE. unfold direction_theta.
  set (a := Rabs dE). set (b := Rabs dN).
  set (L := sqrt (dE * dE + dN * dN)).
  assert (Ha : 0 < a) by now apply Rabs_pos_lt.
  assert (Hb : 0 <= b) by apply Rabs_pos.
  assert (HL : 0 < L) by now apply ab_length_pos.
  assert (HLL : L * L = a * a + b * b).
  { unfold L. rewrite sqrt_sqrt by nra. unfold a, b.
    pose proof (Rsqr_abs dE) as H1. pose proof (Rsqr_abs dN) as H2.
    unfold Rsqr in H1, H2. lra. }
  assert (Hs : sqrt (1 + (b / a)²) = L / a).
  { apply sqrt_lem_1.
    - unfold Rsqr. assert (0 <= b / a * (b / a)) by nra. lra.
    - apply Rmult_le_pos; [lra |]. left. now apply Rinv_0_lt_compat.
    - transitivity (L * L / (a * a)); [field; lra |].
      rewrite HLL. unfold Rsqr. field. lra. }
  rewrite cos_atan, sin_atan, Hs. split; field; lra.
Qed.

Lemma trig_3PI2_plus x :
  cos (3 * PI / 2 + x) = sin x /\ sin (3 * PI / 2 + x) = - cos x.
Proof.
  replace (3 * PI / 2 + x) with (3 * (PI / 2) + x) by field.
  rewrite cos_plus, sin_plus, cos_3PI2, sin_3PI2. split; ring.
Qed.

Lemma trig_3PI2_minus x :
  cos (3 * PI / 2 - x) = - sin x /\ sin (3 * PI / 2 - x) = - cos x.
Proof.
  replace (3 * PI / 2 - x) with (3 * (PI / 2) - x) by field.
  rewrite cos_minus, sin_minus, cos_3PI2, sin_3PI2. split; ring.
Qed.

Lemma trig_PI2_plus x :
  cos (PI / 2 + x) = - sin x /\ sin (PI / 2 + x) = cos x.
Proof. rewrite cos_plus, sin_plus, cos_PI2, sin_PI2. split; ring. Qed.

(** Cosine and sine of the rotation angle, scaled by the length of AB. *)
Lemma theta_of_cos_sin dN dE :
  dE <> 0 ->
  let L := sqrt (dE * dE + dN * dN) in
  (dN <> 0 \/ 0 < dE ->
   L * cos (theta_of dN dE) = dN /\ - (L * sin (theta_of dN dE)) = dE) /\
  (dN = 0 -> dE < 0 ->
   L * cos (theta_of dN dE) = 0 /\ - (L * sin (theta_of dN dE)) = - dE).
Proof.
  intros HE L.
  destruct (direction_theta_cos_sin dN dE HE) as [Hc Hs]. fold L in Hc, Hs.
  unfold theta_of. set (dt := direction_theta dN dE) in *.
  destruct (trig_3PI2_plus dt) as [C1 S1].
  destruct (trig_3PI2_minus dt) as [C4 S4].
  destruct (trig_PI2_plus dt) as [C3 S3].
  pose proof (cos_shift dt) as C2. pose proof (sin_shift dt) as S2.
  split.
  - intros Hq.
    destruct (Rlt_dec 0 dN) as [HN | HN], (Rlt_dec 0 dE) as [HP | HP].
    + rewrite !Rgtb_true by lra. cbn [andb]. rewrite C1, S1.
      rewrite Rabs_pos_eq in Hc, Hs by lra. split; lra.
    + rewrite (Rgtb_true dN), (Rgtb_false dE), (Rltb_true dE) by lra.
      cbn [andb]. rewrite C2, S2.
      rewrite Rabs_left in Hc by lra. rewrite Rabs_pos_eq in Hs by lra.
      split; lra.
    + rewrite (Rgtb_false dN), (Rltb_false dE) by lra. cbn [andb].
      rewrite andb_false_r. rewrite C4, S4.
      rewrite Rabs_pos_eq in Hc by lra.
      assert (HNa : Rabs dN = - dN).
      { destruct (Req_dec dN 0) as [-> | ?];
          [rewrite Rabs_R0; lra | apply Rabs_left; lra]. }
      rewrite HNa in Hs. split; lra.
    + assert (dN < 0) by (destruct Hq; lra). assert (dE < 0) by lra.
      rewrite (Rgtb_false dN), (Rltb_true dN), (Rltb_true dE) by lra.
      cbn [andb]. rewrite C3, S3.
      rewrite Rabs_left in Hc, Hs by lra. split; lra.
  - intros HN0 HEn.
    rewrite (Rgtb_false dN), (Rltb_false dN) by lra. cbn [andb].
    rewrite C4, S4. rewrite Rabs_left in Hc by lra.
    rewrite HN0, Rabs_R0 in Hs. split; lra.
Qed.

(** In exact arithmetic, the point at distance |AB| along the local range
    axis is mapped onto B, in every quadrant and also for an AB line
    pointing due east. *)
Theorem range_axis_reaches_B (A B : R * R) :
  fst B - fst A <> 0 ->
  snd B - snd A <> 0 \/ 0 < fst B - fst A ->
  exists ab,
    ab_line A B = ([], inr ab) /\
    xy (rotate_corner (Theta ab) A (dist A B, 0)) = B.
Proof.
  intros HE Hq. eexists. split; [now apply ab_line_defined |].
  cbn [Theta].
  destruct (theta_of_cos_sin (snd B - snd A) (fst B - fst A) HE)
    as [H _]. cbv zeta in H. destruct (H Hq) as [Hc Hs].
  unfold xy, rotate_corner, dist. cbn [fst snd].
  replace ((fst A - fst B) * (fst A - fst B)
           + (snd A - snd B) * (snd A - snd B))
    with ((fst B - fst A) * (fst B - fst A)
          + (snd B - snd A) * (snd B - snd A)) by ring.
  destruct B as [bx by_]. cbn [fst snd] in *. f_equal; lra.
Qed.

Lemma range_axis_reaches_B_witness :
  exists ab,
    ab_line (0, 0) (-3, -4) = ([], inr ab) /\
    xy (rotate_corner (Theta ab) (0, 0) (dist (0, 0) (-3, -4), 0)) = (-3, -4).
Proof.
  apply (range_axis_reaches_B (0, 0) (-3, -4)).
  - simpl. lra.
  - left. simpl. lra.
Defined.

(** An AB line pointing due west falls into the last branch of the
    quadrant test: the range axis then runs from A away from B, and the
    point at distance |AB| along it is the mirror image of B in A. *)
Theorem due_west_ab_line_is_reversed (A B : R * R) :
  snd B - snd A = 0 -> fst B - fst A < 0 ->
  exists ab,
    ab_line A B = ([], inr ab) /\
    Theta ab = 3 * PI / 2 /\
    xy (rotate_corner (Theta ab) A (dist A B, 0))
    = (2 * fst A - fst B, snd A).
Proof.
  intros HN HE.
  assert (HE' : fst B - fst A <> 0) by lra.
  eexists. split; [now apply ab_line_defined |].
  cbn [Theta]. split.
  - unfold theta_of, direction_theta.
    rewrite HN, Rabs_R0.
    rewrite (Rgtb_false 0 0), (Rltb_false 0 0) by lra. cbn [andb].
    replace (0 / Rabs (fst B - fst A)) with 0 by (unfold Rdiv; ring).
    rewrite atan_0. ring.
  - destruct (theta_of_cos_sin (snd B - snd A) (fst B - fst A) HE')
      as [_ H]. cbv zeta in H. destruct (H HN HE) as [Hc Hs].
    unfold xy, rotate_corner, dist. cbn [fst snd].
    replace ((fst A - fst B) * (fst A - fst B)
             + (snd A - snd B) * (snd A - snd B))
      with ((fst B - fst A) * (fst B - fst A)
            + (snd B - snd A) * (snd B - snd A)) by ring.
    f_equal; lra.
Qed.

Lemma due_west_ab_line_is_reversed_witness :
  exists ab,
    ab_line (0, 0) (-5, 0) = ([], inr ab) /\
    Theta ab = 3 * PI / 2 /\
    xy (rotate_corner (Theta ab) (0, 0) (dist (0, 0) (-5, 0), 0))
    = (2 * fst (0, 0) - fst (-5, 0), snd (0, 0)).
Proof.
  apply (due_west_ab_line_is_reversed (0, 0) (-5, 0)); simpl; lra.
Defined.

(** ** The buffered rectangle *)

Lemma rotate_corners_of th o r :
  m_bl (rotate th o r) = rotate_corner th o (m_bl r) /\
  m_br (rotate th o r) = rotate_corner th o (m_br r) /\
  m_tr (rotate th o r) = rotate_corner th o (m_tr r) /\
  m_tl (rotate th o r) = rotate_corner th o (m_tl r).
Proof. repeat split. Qed.

Lemma origin_of_buffer A ab st sM RB WB r :
  origin_of A ab st sM (buffer RB WB r) = origin_of A ab st sM r.
Proof. reflexivity. Qed.

(** The buffered ring of a record is a rectangle with sides
    |RowSpacing - 2 RowBuffer| and |RangeSpacing - 2 RangeBuffer|, whatever
    the buffers are (nothing bounds them by half the spacing), and it has
    the centre of the unbuffered ring of the same record. *)
Theorem buffered_ring_shape A ab st sM RS WS RB WB r :
  exists p0 p1 p2 p3,
    plot_ring_buf A ab st sM RS WS RB WB r = [p0; p1; p2; p3; p0] /\
    dist p0 p1 = Rabs (WS - 2 * WB) /\ dist p1 p2 = Rabs (RS - 2 * RB) /\
    dist p2 p3 = Rabs (WS - 2 * WB) /\ dist p3 p0 = Rabs (RS - 2 * RB) /\
    area (plot_ring_buf A ab st sM RS WS RB WB r)
    = Rabs ((RS - 2 * RB) * (WS - 2 * WB)) /\
    centre (plot_ring_buf A ab st sM RS WS RB WB r)
    = centre (plot_ring A ab st sM RS WS r).
Proof.
  unfold plot_ring_buf, plot_ring. rewrite origin_of_buffer.
  set (o := origin_of A ab st sM (corners RS WS r)).
  set (th := Theta ab).
  unfold ring_of.
  destruct (rotate_corners_of th o (buffer RB WB (corners RS WS r)))
    as (-> & -> & -> & ->).
  destruct (rotate_corners_of th o (corners RS WS r)) as (-> & -> & -> & ->).
  do 4 eexists. split; [reflexivity |].
  rewrite !dist_rotate_corner.
  unfold buffer, corners, set_corners, xy.
  cbn [m_bl m_br m_tr m_tl fst snd].
  set (y := IZR (m_range r)). set (x := IZR (m_row r)).
  split; [| split; [| split; [| split; [| split]]]].
  - rewrite dist_axis_x_abs. f_equal. ring.
  - rewrite dist_axis_y_abs. f_equal. ring.
  - rewrite dist_sym, dist_axis_x_abs. f_equal. ring.
  - rewrite dist_sym, dist_axis_y_abs. f_equal. ring.
  - unfold area, rotate_corner. cbn [shoelace fst snd].
    destruct o as [oe on].  cbn [fst snd].
    pose proof (sin2_cos2 th) as H. unfold Rsqr in H.
    match goal with
    | |- Rabs ?e / 2 = _ =>
        replace e with (2 * ((RS - 2 * RB) * (WS - 2 * WB))
                        * (sin th * sin th + cos th * cos th)) by ring
    end.
    rewrite H, Rmult_1_r, Rabs_mult, (Rabs_pos_eq 2) by lra. field.
  - unfold centre, rotate_corner. cbn [fst snd]. f_equal; field.
Qed.

(** ** The stagger pattern *)

Open Scope Z_scope.

Lemma stagger_check_floor s p o :
  0 < p -> stagger_check s p o = (((o - s) / p) mod 2 =? 0).
Proof.
  intros Hp. unfold stagger_check.
  destruct (Z.eqb_spec p 0) as [? | _]; [lia |].
  assert (E : ceil_div (o - s + 1 + p) p = (o - s) / p + 2).
  { apply ceil_div_spec; [exact Hp |].
    pose proof (Z.div_mod (o - s) p ltac:(lia)) as D.
    pose proof (Z.mod_pos_bound (o - s) p Hp) as M. nia. }
  rewrite E.
  replace ((o - s) / p + 2) with ((o - s) / p + 1 * 2) by ring.
  now rewrite Z.mod_add by lia.
Qed.

(** With a positive [rowsPerPass] p, the rows are staggered in alternating
    blocks of p rows: rows startRow .. startRow+p-1 are, the p rows before
    them are not, and the pattern repeats with period 2p. *)
Theorem stagger_blocks (s p o : Z) :
  0 < p ->
  stagger_check s p (o + 2 * p) = stagger_check s p o /\
  stagger_check s p (o + p) = negb (stagger_check s p o) /\
  (s <= o < s + p -> stagger_check s p o = true) /\
  (s - p <= o < s -> stagger_check s p o = false).
Proof.
  intros Hp. rewrite !stagger_check_floor by exact Hp.
  assert (E2 : (o + 2 * p - s) / p = (o - s) / p + 2).
  { replace (o + 2 * p - s) with (o - s + 2 * p) by ring.
    apply Z.div_add. lia. }
  assert (E1 : (o + p - s) / p = (o - s) / p + 1).
  { replace (o + p - s) with (o - s + 1 * p) by ring.
    apply Z.div_add. lia. }
  rewrite E1, E2.
  pose proof (Z.mod_pos_bound ((o - s) / p) 2 ltac:(lia)) as Hm.
  split; [| split; [| split]].
  - replace ((o - s) / p + 2) with ((o - s) / p + 1 * 2) by ring.
    now rewrite Z.mod_add by lia.
  - rewrite Z.add_mod by lia. change (1 mod 2) with 1.
    destruct (Z.eqb_spec (((o - s) / p) mod 2) 0) as [E | E].
    + rewrite E. reflexivity.
    + replace (((o - s) / p) mod 2) with 1 by lia. reflexivity.
  - intros H. replace ((o - s) / p) with 0; [reflexivity |].
    symmetry. apply Z.div_small. lia.
  - intros H. replace ((o - s) / p) with (-1); [reflexivity |].
    apply Z.div_unique with (r := o - s + p); lia.
Qed.

Lemma stagger_blocks_witness :
  stagger_check 3 2 (1 + 2 * 2) = stagger_check 3 2 1.
Proof. refine (proj1 (stagger_blocks 3 2 1 _)). lia. Defined.

(** A stagger spec that passes the entry validation and starts at row 2 or
    later never staggers the first row: the plots of local row 1 are
    rotated about A itself. *)
Theorem first_row_rotates_about_A (A : R * R) (ab : abline)
        (s p : Z) (d sM : R) (n : Z) (mr : bool) (r : mrow) :
  validate_stagger (Some (s, p, d)) n mr = ([], inr tt) ->
  2 <= s -> m_orig r = 1 ->
  origin_of A ab (Some (s, p, d)) sM r = A.
Proof.
  intros Hv Hs Hr.
  destruct (validate_stagger_cases (Some (s, p, d)) n mr)
    as [[Hn _] | [_ [v E]]]; [| rewrite E in Hv; discriminate].
  unfold stagger_invalid in Hn.
  assert (Hp : s <= p + 1) by lia.
  unfold origin_of, use_stagger. rewrite Hr.
  rewrite stagger_check_floor by lia.
  replace ((1 - s) / p) with (-1); [reflexivity |].
  apply Z.div_unique with (r := 1 - s + p); lia.
Qed.

Lemma first_row_rotates_about_A_witness :
  origin_of A_doc (mk_abline 1 1 0 0 0) (Some (2, 4, 1%R)) 1%R
            (mk_mrow 1 1 1 zero2 zero2 zero2 zero2 1) = A_doc.
Proof.
  apply (first_row_rotates_about_A A_doc (mk_abline 1 1 0 0 0) 2 4 1%R 1%R
                                   1 false).
  - reflexivity.
  - lia.
  - reflexivity.
Defined.

(** In Quadrant I the exported ring of a staggered record is the ring of
    its rectangle shifted by the offset along the range axis and rotated
    about A. *)
Theorem staggered_ring_quadrant_I (A : R * R) (ab : abline)
        (st : option (Z * Z * R)) (sM RS WS : R) (r : mrow) :
  (0 < DeltaNorthing ab)%R -> (0 < DeltaEasting ab)%R ->
  use_stagger st r = true ->
  plot_ring A ab st sM RS WS r
  = ring_of (rotate (Theta ab) A (shift_range sM (corners RS WS r))).
Proof.
  intros HN HE Hu. unfold plot_ring, origin_of.
  change (use_stagger st (corners RS WS r)) with (use_stagger st r).
  rewrite Hu. now rewrite stagger_quadrant_I.
Qed.

Lemma staggered_ring_quadrant_I_witness :
  plot_ring A_doc (mk_abline 1 1 0 0 0) (Some (2, 1, 1%R)) 1 1 1
            staggered_row
  = ring_of (rotate 0 A_doc (shift_range 1 (corners 1 1 staggered_row))).
Proof.
  apply (staggered_ring_quadrant_I A_doc (mk_abline 1 1 0 0 0)
                                   (Some (2, 1, 1%R)) 1 1 1 staggered_row).
  - simpl. lra.
  - simpl. lra.
  - reflexivity.
Defined.

(** ** Neighbouring rectangles *)

(** Unbuffered rectangles tile the grid: a record and its neighbour in the
    next row, or in the next range, share their two common corners, and
    still do after a rotation about one origin. *)
Theorem neighbours_share_corners (RS WS th : R) (o : R * R) (r q : mrow) :
  (m_range q = m_range r -> m_row q = m_row r + 1 ->
   m_bl (rotate th o (corners RS WS q)) = m_br (rotate th o (corners RS WS r))
   /\ m_tl (rotate th o (corners RS WS q))
      = m_tr (rotate th o (corners RS WS r))) /\
  (m_row q = m_row r -> m_range q = m_range r + 1 ->
   m_bl (rotate th o (corners RS WS q)) = m_tl (rotate th o (corners RS WS r))
   /\ m_br (rotate th o (corners RS WS q))
      = m_tr (rotate th o (corners RS WS r))).
Proof.
  unfold rotate, corners, set_corners, rotate_corner.
  cbn [m_bl m_br m_tr m_tl m_range m_row fst snd].
  split; intros H1 H2; rewrite H1, H2, plus_IZR; split; f_equal; ring.
Qed.

Lemma neighbours_share_corners_witness :
  m_bl (rotate 0 A_doc (corners 1 1 staggered_row))
  = m_br (rotate 0 A_doc
                 (corners 1 1 (mk_mrow 1 1 1 zero2 zero2 zero2 zero2 1))).
Proof.
  apply (proj1 (neighbours_share_corners 1 1 0 A_doc
                  (mk_mrow 1 1 1 zero2 zero2 zero2 zero2 1) staggered_row));
    reflexivity.
Defined.

(** ** Runs that fail before any geometry *)

Lemma bind_snd_inr {T U} (m : M T) (f : T -> M U) a :
  snd m = inr a -> snd (bind m f) = snd (f a).
Proof. unfold bind. destruct m as [l [e | a']]; simpl; congruence. Qed.

(** An AB line with DeltaEasting = 0 (pointing due north or south) makes
    every otherwise valid call fail with [ZeroDivisionError]: only the
    length warning can have been issued, and no file is written. *)
Theorem north_south_ab_line_raises
        (A B : R * R) (infile : DataFrame) (outfile : string)
        (UTMzone : option string) (Hemisphere : string)
        (nrowplot : Z) (multirowind : bool)
        (rowspc rowbuf rangespc rangebuf : R)
        (stagger : option (Z * Z * R)) (plotsubset : Z)
        (field : option string) (unit_ : string)
        (SquarePlot RotatePlot : bool) :
  ~ field_absent infile ->
  ~ stagger_invalid stagger nrowplot multirowind ->
  fst B = fst A ->
  let rows := sort_values (df_rows infile) in
  plotshpcreate A B infile outfile UTMzone Hemisphere nrowplot multirowind
                rowspc rowbuf rangespc rangebuf stagger plotsubset
                field unit_ SquarePlot RotatePlot
  = ((if negb (List.length rows
               =? n_unique (map Range rows) * n_unique (map Row rows))%nat
      then [Warn LengthMismatch] else []),
     inl ZeroDivisionError).
Proof.
  intros Ha Hs HE rows. unfold plotshpcreate. fold rows.
  destruct (validate_columns_cases infile) as [[_ Ec] | [? _]];
    [| contradiction].
  destruct (validate_stagger_cases stagger nrowplot multirowind)
    as [[_ Es] | [? _]]; [| contradiction].
  rewrite Ec, bind_nil_l, Es, bind_nil_l, bind_when_emit.
  rewrite ab_line_zero by (rewrite HE; apply Rminus_diag).
  cbn [bind fst snd]. now rewrite app_nil_r.
Qed.

Lemma north_south_ab_line_raises_witness :
  plotshpcreate (0, 0)%R (0, 1)%R sample_data "t" None "N" 1 false
                2.5 0.1 25 2 None 0 None "feet" true true
  = ([], inl ZeroDivisionError).
Proof.
  refine (north_south_ab_line_raises (0, 0)%R (0, 1)%R sample_data "t" None
            "N" 1 false 2.5%R 0.1%R 25%R 2%R None 0 None "feet" true true
            _ _ _).
  - intros H. apply field_absent_iff in H. now apply H.
  - intros H. exact H.
  - reflexivity.
Defined.

Lemma row_grouping_empty n mr k :
  ~ subset_invalid n k ->
  row_grouping n mr k [] [] [] = ([], inl NumpyValueError) \/
  row_grouping n mr k [] [] [] = ([], inr ([], [])).
Proof.
  intros Hs. unfold row_grouping.
  destruct (combined_mode n mr k); [now left | right].
  rewrite bind_ret_l. destruct (relabel_mode n mr k); [| reflexivity].
  unfold relabel_rows. destruct (Z.eqb_spec k 0) as [-> | Hk]; [reflexivity |].
  cbn [negb].
  destruct (subset_checks_cases n k) as [[Hc _] | [_ E]].
  - exfalso. apply Hs. now split.
  - rewrite E. reflexivity.
Qed.

(** A table that has the four columns and no row makes every otherwise
    valid call fail with a library [ValueError] (the maximum of an empty
    column, or [np.vstack] of no array), silently and with no file. *)
Theorem empty_table_raises
        (A B : R * R) (infile : DataFrame) (outfile : string)
        (UTMzone : option string) (Hemisphere : string)
        (nrowplot : Z) (multirowind : bool)
        (rowspc rowbuf rangespc rangebuf : R)
        (stagger : option (Z * Z * R)) (plotsubset : Z)
        (field : option string) (unit_ : string)
        (SquarePlot RotatePlot : bool) :
  df_rows infile = [] ->
  ~ field_absent infile ->
  ~ stagger_invalid stagger nrowplot multirowind ->
  ~ subset_invalid nrowplot plotsubset ->
  (fst B - fst A <> 0)%R ->
  plotshpcreate A B infile outfile UTMzone Hemisphere nrowplot multirowind
                rowspc rowbuf rangespc rangebuf stagger plotsubset
                field unit_ SquarePlot RotatePlot
  = ([], inl NumpyValueError).
Proof.
  intros Hrows Ha Hs Hk HE. unfold plotshpcreate. rewrite Hrows.
  destruct (validate_columns_cases infile) as [[_ Ec] | [? _]];
    [| contradiction].
  destruct (validate_stagger_cases stagger nrowplot multirowind)
    as [[_ Es] | [? _]]; [| contradiction].
  rewrite Ec, bind_nil_l, Es, bind_nil_l, bind_when_emit.
  rewrite ab_line_defined by exact HE. rewrite bind_nil_l.
  change (sort_values []) with (@nil infile_row).
  change (create_matrix []) with (@nil mrow).
  cbn [map n_unique unique_z List.length Nat.mul Nat.eqb negb app].
  destruct (row_grouping_empty nrowplot multirowind plotsubset Hk)
    as [E | E]; rewrite E; reflexivity.
Qed.

Lemma empty_table_raises_witness :
  plotshpcreate A_doc B_doc
                {| columns := required_cols; df_rows := [] |} "t" None "N"
                1 false 2.5 0.1 25 2 None 0 None "feet" true true
  = ([], inl NumpyValueError).
Proof.
  refine (empty_table_raises A_doc B_doc
            {| columns := required_cols; df_rows := [] |} "t" None
            "N" 1 false 2.5%R 0.1%R 25%R 2%R None 0 None "feet" true true
            _ _ _ _ _).
  - reflexivity.
  - intros H. apply field_absent_iff in H. now apply H.
  - intros H. exact H.
  - intros [H _]. now apply H.
  - destruct doc_deltas as [E _]. rewrite E. lra.
Defined.

(** ** The events of a run that returns *)

Lemma sample_run :
  let run :=
    plotshpcreate A_doc B_doc sample_data "test_basic"
                  (Some "14"%string) "N" 1 false 2.5 0.1 25 2 None 0
                  (Some "TEST"%string) "feet" false false in
  run = (fst run, inr tt).
Proof.
  cbv zeta.
  erewrite plotshpcreate_run;
    [reflexivity | reflexivity | reflexivity | apply ab_line_doc
     | vm_compute; reflexivity | vm_compute; reflexivity
     | reflexivity | reflexivity | reflexivity ].
Qed.


Lemma create_square_plot_ok_inv P f o l :
  _create_square_plot P f o = (l, inr tt) ->
  P <> [] /\ l = [SavePdf (file_name f o "_Square_plots.pdf")].
Proof.
  unfold _create_square_plot. destruct P as [| r P]; [discriminate |].
  cbn. intros [= <-]. split; [discriminate | reflexivity].
Qed.

Lemma create_rotated_plot_ok_inv P f o l :
  _create_rotated_plot P f o = (l, inr tt) ->
  P <> [] /\ l = [SavePdf (file_name f o "_Rotated_plots.pdf")].
Proof.
  unfold _create_rotated_plot. destruct P as [| r P]; [discriminate |].
  cbn. intros [= <-]. split; [discriminate | reflexivity].
Qed.

Lemma when_ok_log b (m : M unit) l (l0 : list event) :
  (forall l', m = (l', inr tt) -> l' = l0) ->
  when b m = (l, inr tt) -> l = if b then l0 else [].
Proof.
  intros Hm H. apply when_ok_inv in H as [[-> ->] | [-> H]];
    [reflexivity | now apply Hm].
Qed.

(** A run that returns has issued, in this order and nothing else: the
    length warning when the table is not nRange x nRow, the square-plot PDF
    when asked, the rotated-plot PDF when asked, the CRS warning when no
    UTM zone is given, the unbuffered shapefile and the buffered one, each
    under the name built from field and outfile.  Warnings stop nothing. *)
Theorem returning_run_events
        (A B : R * R) (infile : DataFrame) (outfile : string)
        (UTMzone : option string) (Hemisphere : string)
        (nrowplot : Z) (multirowind : bool)
        (rowspc rowbuf rangespc rangebuf : R)
        (stagger : option (Z * Z * R)) (plotsubset : Z)
        (field : option string) (unit_ : string)
        (SquarePlot RotatePlot : bool) (log : list event) :
  plotshpcreate A B infile outfile UTMzone Hemisphere nrowplot multirowind
                rowspc rowbuf rangespc rangebuf stagger plotsubset
                field unit_ SquarePlot RotatePlot = (log, inr tt) ->
  let rows := sort_values (df_rows infile) in
  exists ids polys bufs,
    log =
    (if negb (List.length rows
              =? n_unique (map Range rows) * n_unique (map Row rows))%nat
     then [Warn LengthMismatch] else [])
    ++ (if SquarePlot
        then [SavePdf (file_name field outfile "_Square_plots.pdf")]
        else [])
    ++ (if RotatePlot
        then [SavePdf (file_name field outfile "_Rotated_plots.pdf")]
        else [])
    ++ (match UTMzone with None => [Warn NoCRS] | Some _ => [] end)
    ++ [ WriteShp (file_name field outfile ".shp") ids polys
                  (crs_of UTMzone Hemisphere);
         WriteShp (file_name field outfile "_buff.shp") ids bufs
                  (crs_of UTMzone Hemisphere) ].
Proof.
  intros H rows. unfold plotshpcreate in H. fold rows in H.
  apply bind_ok_inv in H as (l1 & [] & l2 & H1 & H & ->).
  apply bind_ok_inv in H as (l3 & [] & l4 & H3 & H & ->).
  apply bind_ok_inv in H as (l5 & [] & l6 & H5 & H & ->).
  apply bind_ok_inv in H as (l7 & ab & l8 & H7 & H & ->).
  apply bind_ok_inv in H as (l9 & [P1 n1] & l10 & H9 & H & ->).
  apply bind_ok_inv in H as (l11 & [P2 names] & l12 & H11 & H & ->).
  pose proof (silent_inv _ _ _ (silent_validate_columns _) H1) as ->.
  pose proof (silent_inv _ _ _ (silent_validate_stagger _ _ _) H3) as ->.
  pose proof (silent_inv _ _ _ (silent_ab_line _ _) H7) as ->.
  pose proof (silent_inv _ _ _ (silent_row_grouping _ _ _ _ _ _) H9) as ->.
  pose proof (silent_inv _ _ _ (silent_serpentine _ _ _) H11) as ->.
  apply (when_ok_log _ _ _ [Warn LengthMismatch]) in H5;
    [| now intros l' [= <-]].
  unfold build_and_export in H.
  apply bind_ok_inv in H as (a1 & [] & a2 & S1 & H & ->).
  apply bind_ok_inv in H as (a3 & [] & a4 & S3 & H & ->).
  apply bind_ok_inv in H as (a5 & [] & a6 & S5 & H & ->).
  apply bind_ok_inv in H as (a7 & [] & a8 & S7 & S8 & ->).
  apply (when_ok_log _ _ _
           [SavePdf (file_name field outfile "_Square_plots.pdf")]) in S1;
    [| intros l' E; now apply create_square_plot_ok_inv in E].
  apply (when_ok_log _ _ _
           [SavePdf (file_name field outfile "_Rotated_plots.pdf")]) in S3;
    [| intros l' E; now apply create_rotated_plot_ok_inv in E].
  apply (when_ok_log _ _ _ [Warn NoCRS]) in S5; [| now intros l' [= <-]].
  apply write_shapefile_ok_inv in S7 as [_ ->].
  apply write_shapefile_ok_inv in S8 as [_ ->].
  subst. do 3 eexists. cbn [app].
  destruct UTMzone; reflexivity.
Qed.

Lemma returning_run_events_witness :
  exists ids polys bufs,
    fst (plotshpcreate A_doc B_doc sample_data "test_basic"
                       (Some "14"%string) "N" 1 false 2.5 0.1 25 2 None 0
                       (Some "TEST"%string) "feet" false false)
    = [ WriteShp "TEST_test_basic.shp" ids polys
                 (crs_of (Some "14"%string) "N");
        WriteShp "TEST_test_basic_buff.shp" ids bufs
                 (crs_of (Some "14"%string) "N") ].
Proof.
  apply (returning_run_events A_doc B_doc sample_data "test_basic"
           (Some "14"%string) "N" 1 false 2.5%R 0.1%R 25%R 2%R None 0
           (Some "TEST"%string) "feet" false false).
  apply sample_run.
Defined.

(** ** Runs that return *)

Open Scope Z_scope.

Lemma fold_left_min_in_list l a :
  fold_left Z.min l a = a \/ In (fold_left Z.min l a) l.
Proof.
  revert a. induction l as [| x l IH]; intros a; simpl; [now left |].
  destruct (IH (Z.min a x)) as [E | H]; [| now right; right].
  rewrite E. destruct (Z.min_spec a x) as [[_ ->] | [_ ->]];
    [now left | right; now left].
Qed.

Lemma col_min_in l : l <> [] -> In (col_min l) l.
Proof.
  destruct l as [| x l]; [congruence | intros _]. simpl.
  destruct (fold_left_min_in_list l x) as [-> | H]; [now left | now right].
Qed.

Lemma create_matrix_has_range_1 rows :
  rows <> [] -> exists r, In r (create_matrix rows) /\ m_range r = 1.
Proof.
  intros Hne.
  assert (Hin : In (col_min (map Range rows)) (map Range rows)).
  { apply col_min_in. destruct rows; [congruence | discriminate]. }
  apply in_map_iff in Hin as (x & Ex & Hx).
  exists {| m_plot := Plot x;
            m_range := Range x - col_min (map Range rows) + 1;
            m_row := Row x - col_min (map Row rows) + 1;
            m_bl := zero2; m_br := zero2; m_tr := zero2; m_tl := zero2;
            m_orig := Row x - col_min (map Row rows) + 1 |}.
  split; [| cbn [m_range]; lia].
  unfold create_matrix. apply in_map_iff. now exists x.
Qed.

Lemma in_combine_exists {T U} (l1 : list T) (l2 : list U) x :
  List.length l2 = List.length l1 -> In x l1 ->
  exists y, In (x, y) (combine l1 l2).
Proof.
  revert l2. induction l1 as [| a l1 IH]; intros [| b l2] HL Hx;
    try discriminate; [contradiction |].
  simpl in *. destruct Hx as [-> | Hx].
  - exists b. now left.
  - destruct (IH l2 ltac:(lia) Hx) as [y Hy]. exists y. now right.
Qed.

Lemma n_unique_nonzero l : l <> [] -> n_unique l <> 0%nat.
Proof. destruct l; [congruence | discriminate]. Qed.

Lemma sort_values_nonempty rows : rows <> [] -> sort_values rows <> [].
Proof.
  intros H E. apply (f_equal (@List.length _)) in E.
  unfold sort_values in E. rewrite sort_by_length in E.
  destruct rows; [congruence | discriminate].
Qed.

Lemma col_max_map_some (P : list mrow) :
  P <> [] -> exists m, col_max (map m_row P) = Some m.
Proof. destruct P; [congruence | intros _; eexists; reflexivity]. Qed.

Lemma build_and_export_returns
      A ab st sM RS WS RB WB utm hem f o sq rt P names :
  P <> [] -> List.length names = List.length P ->
  snd (build_and_export A ab st sM RS WS RB WB utm hem f o sq rt P names)
  = inr tt.
Proof.
  intros HP HL. unfold build_and_export.
  assert (H4 : plot_square_4plot st sM P (map (corners RS WS) P) <> []).
  { unfold plot_square_4plot. destruct st; destruct P; try congruence;
      discriminate. }
  assert (HA : adjust A ab st sM (map (corners RS WS) P) <> []).
  { unfold adjust. destruct P; [congruence | discriminate]. }
  rewrite (bind_snd_inr _ _ tt).
  2:{ destruct sq; [| reflexivity]. unfold when, _create_square_plot.
      destruct (col_max_map_some _ H4) as [m ->]. reflexivity. }
  rewrite (bind_snd_inr _ _ tt).
  2:{ destruct rt; [| reflexivity]. unfold when, _create_rotated_plot.
      destruct (col_max_map_some _ HA) as [m ->]. reflexivity. }
  rewrite (bind_snd_inr _ _ tt) by (now destruct utm).
  rewrite !write_shapefile_run
    by (unfold adjust; now rewrite !length_map).
  reflexivity.
Qed.

Lemma row_grouping_plain n mr bc P names :
  combined_mode n mr 0 = false ->
  row_grouping n mr 0 bc P names
  = ([], inr (P, if relabel_mode n mr 0
                 then firstn (List.length P) (new_row_names bc)
                 else names)).
Proof.
  intros Hc. unfold row_grouping. rewrite Hc, bind_ret_l.
  destruct (relabel_mode n mr 0); reflexivity.
Qed.

(** With no UTM zone (so that no CRS string is parsed), no subsetting and
    no combining of rows (nrowplot <= 1, or multirowind set), a call on a
    non-empty table with its four columns, a valid stagger spec and
    DeltaEasting <> 0 returns: no exception is raised, whatever the table,
    the spacings, the buffers and the flags. *)
Theorem run_returns
        (A B : R * R) (infile : DataFrame) (outfile : string)
        (Hemisphere : string)
        (nrowplot : Z) (multirowind : bool)
        (rowspc rowbuf rangespc rangebuf : R)
        (stagger : option (Z * Z * R))
        (field : option string) (unit_ : string)
        (SquarePlot RotatePlot : bool) :
  ~ field_absent infile ->
  ~ stagger_invalid stagger nrowplot multirowind ->
  (fst B - fst A <> 0)%R ->
  df_rows infile <> [] ->
  nrowplot <= 1 \/ multirowind = true ->
  snd (plotshpcreate A B infile outfile None Hemisphere nrowplot
                     multirowind rowspc rowbuf rangespc rangebuf stagger 0
                     field unit_ SquarePlot RotatePlot)
  = inr tt.
Proof.
  intros Ha Hs HE Hne Hmode. unfold plotshpcreate.
  set (rows := sort_values (df_rows infile)).
  assert (Hrows : rows <> []) by now apply sort_values_nonempty.
  destruct (validate_columns_cases infile) as [[_ Ec] | [? _]];
    [| contradiction].
  destruct (validate_stagger_cases stagger nrowplot multirowind)
    as [[_ Es] | [? _]]; [| contradiction].
  rewrite Ec, bind_nil_l, Es, bind_nil_l, bind_when_emit. cbn [snd].
  rewrite ab_line_defined by exact HE. rewrite bind_nil_l.
  assert (Hc : combined_mode nrowplot multirowind 0 = false).
  { unfold combined_mode. destruct Hmode as [H | ->].
    - destruct (Z.ltb_spec 1 nrowplot); [lia | reflexivity].
    - cbn [negb]. now rewrite andb_false_r. }
  rewrite row_grouping_plain by exact Hc. rewrite bind_nil_l.
  set (names := if relabel_mode nrowplot multirowind 0 then _ else _).
  assert (HL : List.length names = List.length (create_matrix rows)).
  { unfold names. destruct (relabel_mode nrowplot multirowind 0).
    - rewrite length_firstn, new_row_names_length, create_matrix_length,
        length_map. lia.
    - now rewrite create_matrix_length, length_map. }
  assert (Hn : n_unique (map Range rows) <> 0%nat).
  { apply n_unique_nonzero. destruct rows; [congruence | discriminate]. }
  rewrite serpentine_run by assumption. rewrite bind_nil_l.
  apply build_and_export_returns; [| now rewrite !length_map].
  destruct (create_matrix_has_range_1 rows Hrows) as (r & Hr & Hr1).
  destruct (in_combine_exists _ names r HL Hr) as [nm Hnm].
  assert (Hin : In (r, nm)
                   (serpentine_order (n_unique (map Range rows))
                                     (combine (create_matrix rows) names))).
  { apply (Permutation_in _ (Permutation_sym (serpentine_order_perm _ _))).
    apply filter_In. split; [exact Hnm |].
    unfold in_ranges. cbn [fst]. rewrite Hr1.
    apply andb_true_iff. rewrite !Z.leb_le. lia. }
  intros E. apply (f_equal (@List.length _)) in E.
  rewrite length_map in E.
  destruct (serpentine_order _ _); [contradiction | discriminate].
Qed.

Lemma run_returns_witness :
  snd (plotshpcreate A_doc B_doc sample_data "t" None "N" 2 true
                     2.5 0.1 25 2 None 0 None "feet" true true)
  = inr tt.
Proof.
  refine (run_returns A_doc B_doc sample_data "t" "N" 2 true
                      2.5%R 0.1%R 25%R 2%R None None "feet" true true
                      _ _ _ _ _).
  - intros H. apply field_absent_iff in H. now apply H.
  - intros H. exact H.
  - destruct doc_deltas as [E _]. rewrite E. lra.
  - discriminate.
  - now right.
Defined.

(** ** Only relative ranges and rows matter *)

Lemma unique_z_shift c l :
  unique_z (map (fun x => x + c) l) = map (fun x => x + c) (unique_z l).
Proof.
  induction l as [| x l IH]; [reflexivity |]. simpl. rewrite IH. f_equal.
  generalize (unique_z l) as u. intros u.
  induction u as [| y u IHu]; [reflexivity |]. simpl.
  replace (y + c =? x + c) with (y =? x)
    by (destruct (Z.eqb_spec y x), (Z.eqb_spec (y + c) (x + c));
        try reflexivity; lia).
  destruct (y =? x); simpl; now rewrite IHu.
Qed.

Lemma n_unique_shift c l : n_unique (map (fun x => x + c) l) = n_unique l.
Proof. unfold n_unique. now rewrite unique_z_shift, length_map. Qed.

Lemma fold_left_min_shift c l a :
  fold_left Z.min (map (fun x => x + c) l) (a + c)
  = fold_left Z.min l a + c.
Proof.
  revert a. induction l as [| x l IH]; intros a; simpl; [reflexivity |].
  rewrite Z.add_min_distr_r. apply IH.
Qed.

Lemma col_min_shift c l :
  l <> [] -> col_min (map (fun x => x + c) l) = col_min l + c.
Proof.
  destruct l as [| x l]; [congruence | intros _]. simpl.
  apply fold_left_min_shift.
Qed.

Lemma create_matrix_shift dr dc rows :
  create_matrix (map (shift_row dr dc) rows) = create_matrix rows.
Proof.
  destruct rows as [| r0 rows0] eqn:E; [reflexivity |]. rewrite <- E.
  assert (Hne : rows <> []) by (rewrite E; discriminate).
  unfold create_matrix. rewrite !map_map.
  change (fun x => Range (shift_row dr dc x)) with (fun x => Range x + dr).
  change (fun x => Row (shift_row dr dc x)) with (fun x => Row x + dc).
  rewrite <- (map_map Range (fun x => x + dr)).
  rewrite <- (map_map Row (fun x => x + dc)).
  rewrite !col_min_shift
    by (intros H; apply map_eq_nil in H; contradiction).
  apply map_ext. intros x. cbn [shift_row Plot Range Row]. f_equal; lia.
Qed.

Lemma sort_values_shift dr dc rows :
  sort_values (map (shift_row dr dc) rows)
  = map (shift_row dr dc) (sort_values rows).
Proof.
  unfold sort_values. apply sort_by_map. intros a b.
  unfold plot_row_le, shift_row. cbn [Plot Row].
  f_equal. f_equal.
  destruct (Z.leb_spec (Row a + dc) (Row b + dc)), (Z.leb_spec (Row a) (Row b));
    try reflexivity; lia.
Qed.

(** Moving every Range and every Row of the table by constants changes
    nothing of a run: events and outcome are the same. *)
Theorem run_depends_on_relative_indices
        (dr dc : Z)
        (A B : R * R) (infile : DataFrame) (outfile : string)
        (UTMzone : option string) (Hemisphere : string)
        (nrowplot : Z) (multirowind : bool)
        (rowspc rowbuf rangespc rangebuf : R)
        (stagger : option (Z * Z * R)) (plotsubset : Z)
        (field : option string) (unit_ : string)
        (SquarePlot RotatePlot : bool) :
  plotshpcreate A B (shift_table dr dc infile) outfile UTMzone Hemisphere
                nrowplot multirowind rowspc rowbuf rangespc rangebuf stagger
                plotsubset field unit_ SquarePlot RotatePlot
  = plotshpcreate A B infile outfile UTMzone Hemisphere
                  nrowplot multirowind rowspc rowbuf rangespc rangebuf stagger
                  plotsubset field unit_ SquarePlot RotatePlot.
Proof.
  unfold plotshpcreate.
  change (validate_columns (shift_table dr dc infile))
    with (validate_columns infile).
  cbn [df_rows shift_table].
  rewrite sort_values_shift, create_matrix_shift, length_map.
  rewrite !map_map.
  change (fun x => Barcode (shift_row dr dc x)) with Barcode.
  change (fun x => Range (shift_row dr dc x)) with (fun x => Range x + dr).
  change (fun x => Row (shift_row dr dc x)) with (fun x => Row x + dc).
  rewrite <- (map_map Range (fun x => x + dr)).
  rewrite <- (map_map Row (fun x => x + dc)).
  rewrite !n_unique_shift.
  reflexivity.
Qed.

(** ** Units *)

Open Scope R_scope.

(** Any unit other than the exact string "feet" is taken as meters, with no
    error and no warning: the run is that of unit "meter". *)
Theorem unknown_unit_is_meter
        (A B : R * R) (infile : DataFrame) (outfile : string)
        (UTMzone : option string) (Hemisphere : string)
        (nrowplot : Z) (multirowind : bool)
        (rowspc rowbuf rangespc rangebuf : R)
        (stagger : option (Z * Z * R)) (plotsubset : Z)
        (field : option string) (unit_ : string)
        (SquarePlot RotatePlot : bool) :
  unit_ <> "feet"%string ->
  plotshpcreate A B infile outfile UTMzone Hemisphere nrowplot multirowind
                rowspc rowbuf rangespc rangebuf stagger plotsubset
                field unit_ SquarePlot RotatePlot
  = plotshpcreate A B infile outfile UTMzone Hemisphere nrowplot multirowind
                  rowspc rowbuf rangespc rangebuf stagger plotsubset
                  field "meter" SquarePlot RotatePlot.
Proof.
  intros Hu. apply String.eqb_neq in Hu.
  unfold plotshpcreate, to_m, row_spacing_m, combined_row_spacing,
    stagger_m, to_m, is_feet.
  rewrite Hu.
  change (String.eqb "meter" "feet") with false.
  reflexivity.
Qed.

Lemma unknown_unit_is_meter_witness :
  plotshpcreate A_doc B_doc sample_data "t" None "N" 1 false
                2.5 0.1 25 2 None 0 None "Feet" false false
  = plotshpcreate A_doc B_doc sample_data "t" None "N" 1 false
                  2.5 0.1 25 2 None 0 None "meter" false false.
Proof.
  apply (unknown_unit_is_meter A_doc B_doc sample_data "t" None "N" 1 false
           2.5 0.1 25 2 None 0 None "Feet" false false).
  discriminate.
Defined.

(** ** The sort of the table *)

Open Scope Z_scope.

(** [sort_values] loses and duplicates no row and leaves the table ordered
    by Plot, then by Row; so nPlot is the number of input rows. *)
Theorem sort_values_sorts (rows : list infile_row) :
  Permutation (sort_values rows) rows /\
  plot_row_sorted (sort_values rows) /\
  List.length (sort_values rows) = List.length rows.
Proof.
  unfold sort_values. split; [apply sort_by_perm |].
  split; [| apply sort_by_length].
  unfold plot_row_sorted.
  apply StronglySorted_impl with (R1 := fun a b => plot_row_le a b = true).
  - intros a b. unfold plot_row_le.
    rewrite orb_true_iff, andb_true_iff, Z.ltb_lt, Z.eqb_eq, Z.leb_le. tauto.
  - apply sort_by_sorted.
    + intros a b. unfold plot_row_le.
      rewrite !orb_true_iff, !andb_true_iff, !Z.ltb_lt, !Z.eqb_eq, !Z.leb_le.
      lia.
    + intros a b c. unfold plot_row_le.
      rewrite !orb_true_iff, !andb_true_iff, !Z.ltb_lt, !Z.eqb_eq, !Z.leb_le.
      lia.
Qed.

(** ** New row names *)

Lemma unique_s_NoDup l : NoDup l -> unique_s l = l.
Proof.
  induction 1 as [| x l Hx _ IH]; [reflexivity |]. simpl. rewrite IH.
  f_equal. apply forallb_filter_id. apply forallb_forall. intros y Hy.
  apply negb_true_iff, String.eqb_neq. intros ->. contradiction.
Qed.

Lemma count_s_notin b l : ~ In b l -> count_s b l = 0%nat.
Proof.
  intros H. unfold count_s. induction l as [| x l IH]; [reflexivity |].
  simpl. destruct (String.eqb_spec b x) as [-> | _].
  - exfalso. apply H. now left.
  - apply IH. intros Hin. apply H. now right.
Qed.

Lemma flat_map_ext_in {T U} (f g : T -> list U) l :
  (forall x, In x l -> f x = g x) -> flat_map f l = flat_map g l.
Proof.
  induction l as [| x l IH]; intros H; simpl; [reflexivity |].
  rewrite H by now left. f_equal. apply IH. intros y Hy. apply H. now right.
Qed.

Lemma flat_map_singleton {T U} (g : T -> U) l :
  flat_map (fun x => [g x]) l = map g l.
Proof.
  induction l as [| x l IH]; [reflexivity |]. simpl. now rewrite IH.
Qed.

(** When the barcodes are pairwise distinct, the relabelling appends "_1"
    to each, in the order of the table. *)
Theorem new_row_names_distinct (bc : list string) :
  NoDup bc -> new_row_names bc = map (fun b => (b ++ "_1")%string) bc.
Proof.
  intros ND. unfold new_row_names. rewrite unique_s_NoDup by exact ND.
  rewrite (flat_map_ext_in _ (fun b => [(b ++ "_1")%string])).
  - apply flat_map_singleton.
  - intros b Hb.
    assert (E : count_s b bc = 1%nat).
    { clear - ND Hb. induction ND as [| x l Hx ND IH]; [contradiction |].
      unfold count_s in *. simpl.
      destruct (String.eqb_spec b x) as [-> | Hne].
      - simpl. f_equal. now apply (count_s_notin x l).
      - destruct Hb as [-> | Hb]; [congruence | now apply IH]. }
    rewrite E. reflexivity.
Qed.

Lemma new_row_names_distinct_witness :
  new_row_names ["a"; "b"]%string = ["a_1"; "b_1"]%string.
Proof.
  apply (new_row_names_distinct ["a"; "b"]%string).
  repeat constructor; simpl; intuition discriminate.
Defined.

(** ** The subset filter *)

Lemma existsb_arange_1 x lo hi :
  existsb (Z.eqb x) (arange lo hi 1) = (lo <=? x) && (x <? hi).
Proof.
  apply eq_true_iff_eq.
  rewrite existsb_exists, andb_true_iff, Z.leb_le, Z.ltb_lt. split.
  - intros (y & Hy & E). apply Z.eqb_eq in E. subst y.
    apply in_arange in Hy; lia.
  - intros H. exists x. split; [| apply Z.eqb_refl].
    apply in_arange; [lia |]. split; [lia |]. apply Z.mod_1_r.
Qed.

(** The subset filter keeps a record exactly when its local row lies at
    least [plotsubset] rows inside its plot, on both sides; a plot spanning
    fewer than 2 plotsubset + 1 rows keeps none, and when every plot is
    that narrow the filter leaves an empty matrix. *)
Theorem subset_filter_keeps_interior (k : Z) (P : list mrow) :
  (forall r mx,
      In r P ->
      let rows := map m_row (filter (fun q => m_plot q =? m_plot r) P) in
      col_max rows = Some mx ->
      (In r (compress (subset_mask k P) P)
       <-> col_min rows + k <= m_row r <= mx - k)) /\
  ((forall r mx,
       In r P ->
       col_max (map m_row (filter (fun q => m_plot q =? m_plot r) P))
       = Some mx ->
       mx - col_min (map m_row (filter (fun q => m_plot q =? m_plot r) P))
       < 2 * k) ->
   compress (subset_mask k P) P = []).
Proof.
  assert (Hbit : forall r mx,
             let rows := map m_row (filter (fun q => m_plot q =? m_plot r) P) in
             col_max rows = Some mx ->
             (existsb (Z.eqb (m_row r))
                      (arange (col_min rows + k)
                              (match col_max rows with
                               | Some m => m
                               | None => 0
                               end - k + 1) 1) = true
              <-> col_min rows + k <= m_row r <= mx - k)).
  { intros r mx rows Hmx. rewrite Hmx, existsb_arange_1.
    rewrite andb_true_iff, Z.leb_le, Z.ltb_lt. lia. }
  unfold subset_mask. rewrite compress_map_filter. split.
  - intros r mx Hr. cbv zeta. intros Hmx. rewrite filter_In.
    specialize (Hbit r mx Hmx). cbv zeta in Hbit. tauto.
  - intros Hn.
    destruct (filter _ P) as [| r l] eqn:E; [reflexivity |].
    assert (Hin : In r (r :: l)) by now left. rewrite <- E in Hin.
    apply filter_In in Hin as [Hr Hb].
    destruct (col_max (map m_row (filter (fun q => m_plot q =? m_plot r) P)))
      as [mx |] eqn:Hmx.
    + rewrite existsb_arange_1 in Hb.
      apply andb_true_iff in Hb as [H1 H2].
      apply Z.leb_le in H1. apply Z.ltb_lt in H2.
      specialize (Hn r mx Hr Hmx). lia.
    + exfalso.
      assert (Hrin : In r (filter (fun q => m_plot q =? m_plot r) P)).
      { apply filter_In. split; [exact Hr | apply Z.eqb_refl]. }
      destruct (filter (fun q => m_plot q =? m_plot r) P);
        [contradiction | discriminate].
Qed.

Lemma subset_filter_keeps_interior_witness :
  compress (subset_mask 2 (create_matrix (df_rows four_rows)))
           (create_matrix (df_rows four_rows)) = [].
Proof.
  apply (proj2 (subset_filter_keeps_interior
                  2 (create_matrix (df_rows four_rows)))).
  intros r mx Hr. simpl in Hr.
  destruct Hr as [<- | [<- | [<- | [<- | []]]]]; vm_compute;
    intros [= <-]; reflexivity.
Defined.

(** ** Single-row plots pass through *)

Lemma col_min_perm l l' : Permutation l l' -> col_min l = col_min l'.
Proof.
  intros HP.
  destruct l as [| x l0] eqn:E.
  { apply Permutation_nil in HP. now subst. }
  rewrite <- E in *.
  assert (Hne : l <> []) by (rewrite E; discriminate).
  assert (Hne' : l' <> []).
  { intros ->. apply Permutation_sym, Permutation_nil in HP. contradiction. }
  pose proof (col_min_in l Hne) as H1.
  pose proof (col_min_in l' Hne') as H2.
  apply (Permutation_in _ HP) in H1.
  apply (Permutation_in _ (Permutation_sym HP)) in H2.
  apply col_min_le in H1. apply col_min_le in H2. lia.
Qed.

Lemma contiguous_perm l l' :
  Permutation l l' -> contiguous l -> contiguous l'.
Proof.
  intros HP Hc v x Hx Hv.
  rewrite <- (col_min_perm _ _ HP) in Hv.
  apply (Permutation_in _ HP). apply (Hc v x); [| exact Hv].
  now apply (Permutation_in _ (Permutation_sym HP)).
Qed.

Lemma combine_map_snd_perm {T U} (l : list (T * U)) l1 l2 :
  Permutation l (combine l1 l2) -> List.length l2 = List.length l1 ->
  Permutation (map snd l) l2.
Proof.
  intros HP HL. rewrite HP.
  replace (map snd (combine l1 l2)) with l2; [reflexivity |].
  clear HP. revert l2 HL. induction l1 as [| a l1 IH]; intros [| b l2] HL;
    try discriminate; [reflexivity |].
  simpl. f_equal. apply IH. now injection HL.
Qed.

(** With single-row plots (nrowplot <= 1), no subsetting and contiguous
    Range values, a run that returns wrote one polygon per row of the
    table in each shapefile, and the ids are the Barcodes of the table,
    each as often as it occurs there. *)
Theorem single_row_plots_pass_through
        (A B : R * R) (infile : DataFrame) (outfile : string)
        (UTMzone : option string) (Hemisphere : string)
        (nrowplot : Z) (multirowind : bool)
        (rowspc rowbuf rangespc rangebuf : R)
        (stagger : option (Z * Z * R))
        (field : option string) (unit_ : string)
        (SquarePlot RotatePlot : bool) (log : list event) :
  nrowplot <= 1 ->
  contiguous (map Range (df_rows infile)) ->
  plotshpcreate A B infile outfile UTMzone Hemisphere nrowplot multirowind
                rowspc rowbuf rangespc rangebuf stagger 0
                field unit_ SquarePlot RotatePlot = (log, inr tt) ->
  exists f ids polys crs fb bufs,
    shapefiles log = [ (f, ids, polys, crs); (fb, ids, bufs, crs) ] /\
    Permutation ids (map Barcode (df_rows infile)) /\
    List.length polys = List.length (df_rows infile) /\
    List.length bufs = List.length (df_rows infile).
Proof.
  intros Hn Hc H.
  apply plotshpcreate_ok_order in H
    as (ab & P1 & n1 & _ & Hg & HL1 & _ & HS).
  set (rows := sort_values (df_rows infile)) in *.
  assert (HPr : Permutation rows (df_rows infile)) by apply sort_by_perm.
  assert (Hcm : combined_mode nrowplot multirowind 0 = false).
  { unfold combined_mode. destruct (Z.ltb_spec 1 nrowplot); [lia | reflexivity]. }
  assert (Hrm : relabel_mode nrowplot multirowind 0 = false).
  { unfold relabel_mode. destruct (Z.ltb_spec 1 nrowplot); [lia | reflexivity]. }
  rewrite row_grouping_plain, Hrm in Hg by exact Hcm.
  injection Hg as <- <-.
  set (order := serpentine_order _ _) in HS.
  assert (HPo : Permutation order
                            (combine (create_matrix rows) (map Barcode rows))).
  { unfold order. rewrite serpentine_order_perm. rewrite in_ranges_all;
      [reflexivity |].
    intros [r nm] Hx. apply in_combine_l in Hx. cbn [fst].
    apply create_matrix_contiguous; [| exact Hx].
    apply contiguous_perm with (map Range (df_rows infile)); [| exact Hc].
    apply Permutation_map. now symmetry. }
  do 6 eexists. split; [exact HS |].
  assert (HLo : List.length order = List.length (df_rows infile)).
  { rewrite (Permutation_length HPo), length_combine, create_matrix_length,
      length_map, Nat.min_id. now apply Permutation_length. }
  rewrite !length_map.
  split; [| split; exact HLo].
  rewrite (combine_map_snd_perm _ _ _ HPo HL1).
  now apply Permutation_map.
Qed.

Lemma single_row_plots_pass_through_witness :
  exists f ids polys crs fb bufs,
    shapefiles
      (fst (plotshpcreate A_doc B_doc sample_data "test_basic"
                          (Some "14"%string) "N" 1 false 2.5 0.1 25 2 None 0
                          (Some "TEST"%string) "feet" false false))
    = [ (f, ids, polys, crs); (fb, ids, bufs, crs) ] /\
    Permutation ids (map Barcode (df_rows sample_data)) /\
    List.length polys = List.length (df_rows sample_data) /\
    List.length bufs = List.length (df_rows sample_data).
Proof.
  apply (single_row_plots_pass_through A_doc B_doc sample_data "test_basic"
           (Some "14"%string) "N" 1 false 2.5%R 0.1%R 25%R 2%R None
           (Some "TEST"%string) "feet" false false).
  - lia.
  - intros v x Hx Hv. simpl in Hx. change (col_min _) with 1 in Hv. simpl.
    assert (v = 1 \/ v = 2) as [-> | ->] by (intuition lia); tauto.
  - apply sample_run.
Defined.
